(** * Link extraction, subgraph selection and passage ordering of splitter.py

    A shallow embedding of the core of [splitter.py]: the link extractor
    ([split_body], [find_links_in_macro], [find_links_in_text],
    [find_links]), the subgraph selector ([subgraph]) and the topological
    orderer ([order_graph]), together with the properties of them that the
    specification states.

    Modelling conventions.
    - A Python [str] is a [string]; characters are the code points 0..255.
    - A Python [dict] is an association list in insertion order
      ([dict V]); a dict used as an ordered set ([{link: None}]) is the list
      of its keys ([oset]).
    - A Python exception is [Raise e]; loops run on fuel and [OutOfFuel] is
      a separate outcome, shown below never to happen for the fuel used.
    - [print] appends to a diagnostics log where a property is about the
      report.
    - [json.loads], a function of the Python library, is an argument
      [json_loads] of the functions that call it. *)

From Stdlib Require Import List Bool Arith Lia String Ascii Permutation.
From Stdlib Require Import Sorted Relations.
Import ListNotations.
Open Scope string_scope.
Open Scope list_scope.

(** ** Exceptions and results *)

Inductive exn : Type :=
| KeyError (k : string)
| AssertionError
| ValueError
| IndexError.

Inductive result (A : Type) : Type :=
| Ok (a : A)
| Raise (e : exn)
| OutOfFuel.

Arguments Ok {A} a.
Arguments Raise {A} e.
Arguments OutOfFuel {A}.

Definition bind {A B} (r : result A) (k : A -> result B) : result B :=
  match r with
  | Ok a => k a
  | Raise e => Raise e
  | OutOfFuel => OutOfFuel
  end.

Notation "x <- c1 ;; c2" := (bind c1 (fun x => c2))
  (at level 61, c1 at next level, right associativity).

(** [for x in xs: acc = body(acc, x)], stopping at the first exception. *)
Fixpoint for_each {A S} (body : S -> A -> result S) (xs : list A) (acc : S)
  : result S :=
  match xs with
  | [] => Ok acc
  | x :: xs' => acc' <- body acc x ;; for_each body xs' acc'
  end.

(** ** Python string operations *)

(** The double quote and the line feed. *)
Definition dq : ascii := "034"%char.
Definition lf : ascii := "010"%char.

(** [s.find(sub, start)]; [None] stands for [-1]. *)
Definition find (sub s : string) (start : nat) : option nat :=
  index start sub s.

(** [s[lo:hi]] for indices counted from the start. *)
Definition slice (s : string) (lo hi : nat) : string :=
  substring lo (hi - lo) s.

(** [s[lo:]] *)
Definition slice_from (s : string) (lo : nat) : string :=
  substring lo (String.length s - lo) s.

(** [s[lo:-k]] *)
Definition slice_trim (s : string) (lo k : nat) : string :=
  substring lo (String.length s - k - lo) s.

(** [s.startswith(p)] *)
Definition startswith (s p : string) : bool := prefix p s.

(** [s.endswith(p)] *)
Definition endswith (s p : string) : bool :=
  Nat.leb (String.length p) (String.length s)
  && String.eqb
       (substring (String.length s - String.length p) (String.length p) s) p.

(** [s[0]] and [s[-1]] *)
Definition first_char (s : string) : result ascii :=
  match String.get 0 s with Some c => Ok c | None => Raise IndexError end.

Definition last_char (s : string) : result ascii :=
  match String.get (String.length s - 1) s with
  | Some c => Ok c
  | None => Raise IndexError
  end.

(** [assert b] *)
Definition assert (b : bool) : result unit :=
  if b then Ok tt else Raise AssertionError.

(** ** The regular expression [re_macro_arg] *)

(** [\s] on the code points below 256. *)
Definition is_space (c : ascii) : bool :=
  existsb (Ascii.eqb c)
    [ "009"; "010"; "011"; "012"; "013"; "028"; "029"; "030"; "031"; "032";
      "133"; "160" ]%char.

(** The first character class of the expression: anything but a double
    quote, an opening bracket and whitespace. *)
Definition is_word_char (c : ascii) : bool :=
  negb (Ascii.eqb c dq || Ascii.eqb c "["%char || is_space c).

(** Length of the longest prefix whose characters satisfy [p]: what a
    greedy [p*] takes. *)
Fixpoint span_len (p : ascii -> bool) (s : string) : nat :=
  match s with
  | String c s' => if p c then S (span_len p s') else 0
  | EmptyString => 0
  end.

(** Each alternative gives the length of its match at the start of [s]. *)

(** First alternative: one or more characters of the class above. *)
Definition match_word (s : string) : option nat :=
  match span_len is_word_char s with
  | 0 => None
  | n => Some n
  end.

(** Second alternative: a double quote, any characters but double quotes,
    a double quote. *)
Definition match_quoted (s : string) : option nat :=
  match s with
  | String c s' =>
      if Ascii.eqb c dq then
        let n := span_len (fun c => negb (Ascii.eqb c dq)) s' in
        match String.get n s' with
        | Some _ => Some (n + 2)
        | None => None
        end
      else None
  | EmptyString => None
  end.

(** Third alternative: two opening brackets, any characters but closing
    brackets, two closing brackets. *)
Definition match_bracket (s : string) : option nat :=
  if prefix "[[" s then
    let s' := slice_from s 2 in
    let n := span_len (fun c => negb (Ascii.eqb c "]"%char)) s' in
    if prefix "]]" (slice_from s' n) then Some (n + 4) else None
  else None.

Definition match_arg (s : string) : option nat :=
  match match_word s with
  | Some n => Some n
  | None =>
      match match_quoted s with
      | Some n => Some n
      | None => match_bracket s
      end
  end.

(** [re_macro_arg.findall(s)]: the matches from left to right; after a
    match the scan resumes behind it ([skip] characters are still part of
    the last match), without one it moves on by one character. *)
Fixpoint findall_from (skip : nat) (s : string) : list string :=
  match s with
  | EmptyString => []
  | String c s' =>
      match skip with
      | S k => findall_from k s'
      | 0 =>
          match match_arg s with
          | Some n => substring 0 n s :: findall_from (n - 1) s'
          | None => findall_from 0 s'
          end
      end
  end.

Definition findall (s : string) : list string := findall_from 0 s.

(** ** The link extractor *)

(** What [print] reports. *)
Inductive report : Type :=
| IncompleteMacro (rest : string)
| IncompleteLink (rest : string).

(** [split_body]: the segments it yields and what it prints. *)
Fixpoint split_body_loop (fuel : nat) (body : string) (pos : nat)
  : result (list string * list report) :=
  match fuel with
  | 0 => OutOfFuel
  | S fuel' =>
      if Nat.ltb pos (String.length body) then
        match find "<<" body pos with
        | None => Ok ([slice_from body pos], [])
        | Some start =>
            let text := if Nat.ltb pos start then [slice body pos start] else [] in
            match find ">>" body start with
            | None => Ok (text, [IncompleteMacro (slice_from body start)])
            | Some end_ =>
                let pos' := end_ + 2 in
                r <- split_body_loop fuel' body pos' ;;
                Ok (text ++ slice body start pos' :: fst r, snd r)
            end
        end
      else Ok ([], [])
  end.

Definition split_body (body : string) : result (list string * list report) :=
  split_body_loop (S (String.length body)) body 0.

(** [find_links_in_text]: the links it yields and what it prints. *)
Fixpoint find_links_in_text_loop (fuel : nat) (text : string) (pos : nat)
  : result (list string * list report) :=
  match fuel with
  | 0 => OutOfFuel
  | S fuel' =>
      match find "[[" text pos with
      | None => Ok ([], [])
      | Some start =>
          match find "]]" text start with
          | None => Ok ([], [IncompleteLink (slice_from text start)])
          | Some end_ =>
              let link := slice text (start + 2) end_ in
              let target :=
                match find "|" link 0 with
                | None => link
                | Some sep => slice_from link (sep + 1)
                end in
              r <- find_links_in_text_loop fuel' text (end_ + 2) ;;
              Ok (target :: fst r, snd r)
          end
      end
  end.

Definition find_links_in_text (text : string)
  : result (list string * list report) :=
  find_links_in_text_loop (S (String.length text)) text 0.

(** The two assertions that [s[0]] and [s[-1]] are double quotes. *)
Definition assert_quoted (s : string) : result unit :=
  c <- first_char s ;;
  _ <- assert (Ascii.eqb c dq) ;;
  c' <- last_char s ;;
  assert (Ascii.eqb c' dq).

(** [args[0]] *)
Definition first_arg (args : list string) : result string :=
  match args with
  | a :: _ => Ok a
  | [] => Raise IndexError
  end.

Definition find_links_in_macro (macro : string)
  : result (list string * list report) :=
  _ <- assert (startswith macro "<<") ;;
  _ <- assert (endswith macro ">>") ;;
  match findall (slice_trim macro 2 2) with
  | [] => Raise ValueError
  | name :: args =>
      if String.eqb name "display" then
        arg0 <- first_arg args ;;
        _ <- assert_quoted arg0 ;;
        Ok ([slice_trim arg0 1 1], [])
      else if String.eqb name "click" then
        arg0 <- first_arg args ;;
        c <- first_char arg0 ;;
        if Ascii.eqb c "["%char then find_links_in_text arg0
        else
          link <- match args with
                  | [a] => Ok a
                  | [_; b] => Ok b
                  | _ => Raise AssertionError
                  end ;;
          _ <- assert_quoted link ;;
          Ok ([slice_trim link 1 1], [])
      else Ok ([], [])
  end.

(** The loop of [find_links] over the segments. *)
Fixpoint find_links_in_segments (segments : list string)
  : result (list string * list report) :=
  match segments with
  | [] => Ok ([], [])
  | segment :: rest =>
      r <- (if startswith segment "<<" then find_links_in_macro segment
            else find_links_in_text segment) ;;
      r' <- find_links_in_segments rest ;;
      Ok (fst r ++ fst r', snd r ++ snd r')
  end.

(** [find_links] on the joined body. *)
Definition find_links_in_body (text : string)
  : result (list string * list report) :=
  s <- split_body text ;;
  r <- find_links_in_segments (fst s) ;;
  Ok (fst r, snd r ++ snd s).

Definition find_links (body : list string)
  : result (list string * list report) :=
  find_links_in_body (String.concat (String lf EmptyString) body).

(** A string in double quotes. *)
Definition quoted (s : string) : string :=
  String dq (s ++ String dq EmptyString)%string.

(** ** Insertion-ordered dictionaries *)

Module Dict.

Definition dict (V : Type) := list (string * V).

Definition keys {V} (d : dict V) : list string := map fst d.

Fixpoint get {V} (d : dict V) (k : string) : option V :=
  match d with
  | [] => None
  | (k', v) :: d' => if String.eqb k k' then Some v else get d' k
  end.

Definition mem {V} (d : dict V) (k : string) : bool :=
  match get d k with Some _ => true | None => false end.

(** [d[k]]: raises [KeyError] on a missing key. *)
Definition getitem {V} (d : dict V) (k : string) : result V :=
  match get d k with Some v => Ok v | None => Raise (KeyError k) end.

(** [d[k] = v]: replaces in place, or appends a new key at the end. *)
Fixpoint set {V} (d : dict V) (k : string) (v : V) : dict V :=
  match d with
  | [] => [(k, v)]
  | (k', v') :: d' =>
      if String.eqb k k' then (k', v) :: d' else (k', v') :: set d' k v
  end.

(** The dictionary without key [k]. *)
Fixpoint remove {V} (d : dict V) (k : string) : dict V :=
  match d with
  | [] => []
  | (k', v) :: d' =>
      if String.eqb k k' then remove d' k else (k', v) :: remove d' k
  end.

(** [del d[k]]: raises [KeyError] on a missing key. *)
Definition delitem {V} (d : dict V) (k : string) : result (dict V) :=
  if mem d k then Ok (remove d k) else Raise (KeyError k).

End Dict.

Import Dict.

(** ** Ordered sets of names: a dict whose values are all [None] *)

Definition oset := list string.

Definition smem (k : string) (s : list string) : bool :=
  existsb (String.eqb k) s.

(** [s[k] = None] *)
Definition oset_add (s : oset) (k : string) : oset :=
  if smem k s then s else s ++ [k].

(** [del s[k]] *)
Definition oset_del (s : oset) (k : string) : result oset :=
  if smem k s then Ok (filter (fun x => negb (String.eqb k x)) s)
  else Raise (KeyError k).

Definition graph := dict oset.

(** ** The subgraph selector *)

(** [{link: None for link in links if link not in limits}] *)
Definition filter_links (limits : list string) (links : oset) : oset :=
  fold_left
    (fun acc link => if smem link limits then acc else oset_add acc link)
    links [].

(** [remaining[link] = filter_links(graph[link])] for the links not yet in
    [reached]. *)
Definition discover (g : graph) (limits : list string) (reached : graph)
    (remaining : graph) (link : string) : result graph :=
  if mem reached link then Ok remaining
  else targets <- getitem g link ;;
       Ok (set remaining link (filter_links limits targets)).

Fixpoint subgraph_loop (fuel : nat) (g : graph) (limits : list string)
    (remaining reached : graph) : result graph :=
  match fuel with
  | 0 => match remaining with [] => Ok reached | _ => OutOfFuel end
  | S fuel' =>
      match remaining with
      | [] => Ok reached
      | (name, links) :: _ =>
          let remaining1 := remove remaining name in
          let reached1 := set reached name links in
          remaining2 <-
            for_each (discover g limits reached1) links remaining1 ;;
          subgraph_loop fuel' g limits remaining2 reached1
      end
  end.

(** [{name: filter_links(graph[name]) for name in starts}] *)
Definition initial_remaining (g : graph) (limits starts : list string)
  : result graph :=
  for_each
    (fun acc name =>
       targets <- getitem g name ;;
       Ok (set acc name (filter_links limits targets)))
    starts [].

Definition subgraph (g : graph) (starts limits : list string)
  : result graph :=
  remaining <- initial_remaining g limits starts ;;
  subgraph_loop (List.length g) g limits remaining [].

(** ** The topological orderer *)

(** The names at which [order_graph] breaks a cycle, in scan order. *)
Definition cycle_breakers : list string :=
  [ "Makeover Options";
    "Rosalind actions";
    "Ask Billy what he and Mr. Anderson talked about last night.";
    "Go to the arcade." ].

(** [link_from = {name: {} for name in link_to}] *)
Definition empty_link_from (link_to : graph) : dict oset :=
  fold_left (fun acc name => set acc name []) (keys link_to) [].

(** [link_from[link][name] = None] *)
Definition add_incoming (name : string) (link_from : dict oset)
    (link : string) : result (dict oset) :=
  sources <- getitem link_from link ;;
  Ok (set link_from link (oset_add sources name)).

Definition build_link_from (link_to : graph) : result (dict oset) :=
  for_each
    (fun link_from item => for_each (add_incoming (fst item)) (snd item)
                                    link_from)
    link_to (empty_link_from link_to).

Definition is_empty {A} (l : list A) : bool :=
  match l with [] => true | _ => false end.

(** [[name for name, links in link_from.items() if not links]] *)
Definition no_incoming (link_from : dict oset) : list string :=
  map fst (filter (fun item => is_empty (snd item)) link_from).

(** [l.pop()] *)
Definition list_pop {A} (l : list A) : result (list A * A) :=
  match rev l with
  | [] => Raise IndexError
  | x :: r => Ok (rev r, x)
  end.

Record state : Type := mkState
  { link_from : dict oset;
    ready : list string;
    ordered_names : list string }.

(** The state on entry to [while True]. *)
Definition initial_state (link_to : graph) : result state :=
  link_from0 <- build_link_from link_to ;;
  let ready0 := rev (no_incoming link_from0) in
  link_from1 <- for_each delitem ready0 link_from0 ;;
  Ok (mkState link_from1 ready0 []).

(** The [for name in (...)] scan: the first breaker still in [link_from]. *)
Definition find_breaker (link_from : dict oset) : option string :=
  List.find (mem link_from) cycle_breakers.

(** One round of [for link in reversed(link_to[name])]. *)
Definition release (name : string) (acc : dict oset * list string)
    (link : string) : result (dict oset * list string) :=
  let (link_from, ready) := acc in
  match get link_from link with
  | None => Ok acc
  | Some waiting_on =>
      waiting_on' <- oset_del waiting_on name ;;
      if is_empty waiting_on'
      then link_from' <- delitem link_from link ;;
           Ok (link_from', ready ++ [link])
      else Ok (set link_from link waiting_on', ready)
  end.

Inductive step (S : Type) : Type :=
| Continue (st : S)
| Break.

Arguments Continue {S} st.
Arguments Break {S}.

(** [ready.pop()], [ordered_names.append(name)] and the release of the
    links of [name]. *)
Definition emit (link_to : graph) (st : state) : result state :=
  popped <- list_pop (ready st) ;;
  let (ready1, name) := popped in
  let ordered1 := ordered_names st ++ [name] in
  links <- getitem link_to name ;;
  acc <- for_each (release name) (rev links) (link_from st, ready1) ;;
  Ok (mkState (fst acc) (snd acc) ordered1).

(** One iteration of [while True]. *)
Definition loop_body (link_to : graph) (st : state) : result (step state) :=
  if is_empty (ready st) then
    match find_breaker (link_from st) with
    | Some name =>
        link_from1 <- delitem (link_from st) name ;;
        st' <- emit link_to (mkState link_from1 [name] (ordered_names st)) ;;
        Ok (Continue st')
    | None => Ok Break
    end
  else st' <- emit link_to st ;; Ok (Continue st').

Fixpoint order_loop (fuel : nat) (link_to : graph) (st : state)
  : result state :=
  match fuel with
  | 0 => OutOfFuel
  | S fuel' =>
      r <- loop_body link_to st ;;
      match r with
      | Continue st' => order_loop fuel' link_to st'
      | Break => Ok st
      end
  end.

(** [sorted(names)]: a stable insertion sort under the code-point order of
    strings. *)
Fixpoint insert_sorted (x : string) (l : list string) : list string :=
  match l with
  | [] => [x]
  | y :: l' => if String.leb x y then x :: l else y :: insert_sorted x l'
  end.

Definition sorted (l : list string) : list string :=
  fold_right insert_sorted [] l.

(** The code after the loop: [ordered_names += sorted(link_from)] when
    [link_from] is not empty. *)
Definition finish (st : state) : list string :=
  if is_empty (link_from st) then ordered_names st
  else ordered_names st ++ sorted (keys (link_from st)).

Definition order_graph (link_to : graph) : result (list string) :=
  st0 <- initial_state link_to ;;
  st <- order_loop (S (List.length link_to)) link_to st0 ;;
  Ok (finish st).

(** ** Specification vocabulary for the subgraph selector *)

(** Every recorded edge set is the limit-filtered edge set of the graph. *)
Definition faithful (g : graph) (limits : list string) (d : graph) : Prop :=
  forall name links, In (name, links) d ->
    exists targets, get g name = Some targets
                    /\ links = filter_links limits targets.

(** Reachability from [starts] along edges whose target is not a limit. *)
Inductive reach (g : graph) (starts limits : list string) : string -> Prop :=
| reach_start name : In name starts -> In name (keys g) ->
    reach g starts limits name
| reach_step name targets link :
    reach g starts limits name ->
    get g name = Some targets -> In link targets -> ~ In link limits ->
    reach g starts limits link.

(** Reachability when a limit node is a wall that is never expanded. *)
Inductive walled_reach (g : graph) (starts limits : list string)
  : string -> Prop :=
| walled_start name : In name starts -> walled_reach g starts limits name
| walled_step name targets link :
    walled_reach g starts limits name -> ~ In name limits ->
    get g name = Some targets -> In link targets -> ~ In link limits ->
    walled_reach g starts limits link.

(** The loop invariant of [subgraph]. *)
Record sub_inv (g : graph) (starts limits : list string)
    (remaining reached : graph) : Prop := mkSubInv
  { si_faithful_rem : faithful g limits remaining;
    si_faithful_reached : faithful g limits reached;
    si_closed : forall name links x, In (name, links) reached -> In x links ->
        In x (keys reached) \/ In x (keys remaining);
    si_reach : forall k, In k (keys remaining) \/ In k (keys reached) ->
        reach g starts limits k;
    si_nodup : NoDup (keys reached);
    si_disjoint : forall k, In k (keys remaining) -> ~ In k (keys reached);
    si_known : forall k, In k (keys remaining) \/ In k (keys reached) ->
        In k (keys g) }.

(** ** Well-formed link graphs *)

(** [a -> b] is an edge of the graph. *)
Definition edge (g : graph) (a b : string) : Prop :=
  exists links, get g a = Some links /\ In b links.

(** A link graph is a dict of dicts whose targets are all keys: keys and
    edge sets hold no duplicates and no edge dangles. *)
Record wf_graph (g : graph) : Prop := mkWf
  { wf_keys : NoDup (keys g);
    wf_links : forall name links, In (name, links) g -> NoDup links;
    wf_closed : forall name links link,
        In (name, links) g -> In link links -> In link (keys g) }.

(** ** Specification vocabulary for the topological orderer *)

Definition edgeb (g : graph) (a b : string) : bool :=
  match get g a with Some links => smem b links | None => false end.

(** Some key of the graph links to [k]. *)
Definition has_incoming (g : graph) (k : string) : bool :=
  existsb (fun item => smem k (snd item)) g.

Definition acyclic (g : graph) : Prop :=
  forall n, ~ clos_trans string (edge g) n n.

(** [a] stands strictly before [b] in [l]. *)
Definition before (a b : string) (l : list string) : Prop :=
  exists l1 l2 l3, l = l1 ++ a :: l2 ++ b :: l3.

(** Lexicographic order of names by code point. *)
Definition name_le (a b : string) : Prop := String.leb a b = true.

(** The invariant of [while True]: every key is in exactly one of
    [link_from], [ready] and [ordered_names], and the entry of [link_from]
    for a name holds its sources that were not emitted yet. *)
Record ord_inv (g : graph) (st : state) : Prop := mkOrdInv
  { oi_perm :
      Permutation (keys (link_from st) ++ ready st ++ ordered_names st)
                  (keys g);
    oi_waiting : forall k w, get (link_from st) k = Some w ->
        forall s, In s w <-> edge g s k /\ ~ In s (ordered_names st) }.

(** The names not yet emitted. *)
Definition pending (st : state) : nat :=
  List.length (keys (link_from st)) + List.length (ready st).


(** The states [order_graph] goes through on a graph. *)
Inductive reachable (g : graph) : state -> Prop :=
| reachable_init st0 : initial_state g = Ok st0 -> reachable g st0
| reachable_step st st' :
    reachable g st -> loop_body g st = Ok (Continue st') -> reachable g st'.

(** [name] is the first cycle breaker that is still a key of [lf]. *)
Definition first_breaker (lf : dict oset) (name : string) : Prop :=
  exists l1 l2, cycle_breakers = l1 ++ name :: l2
                /\ In name (keys lf)
                /\ forall x, In x l1 -> ~ In x (keys lf).

(** The emitted sequence respects the edges: the sources of an emitted name
    were all emitted before it. *)
Definition respects (g : graph) (l : list string) : Prop :=
  forall l1 k l2, l = l1 ++ k :: l2 -> forall s, edge g s k -> In s l1.

(** ** Decision procedures for concrete graphs *)

Fixpoint nodupb (l : list string) : bool :=
  match l with
  | [] => true
  | x :: l' => negb (smem x l') && nodupb l'
  end.

Definition wf_graphb (g : graph) : bool :=
  nodupb (keys g)
  && forallb
       (fun item =>
          nodupb (snd item) && forallb (fun l => smem l (keys g)) (snd item))
       g.

(** Position of a name in a list (the length of the list when absent). *)
Fixpoint pos_of (k : string) (l : list string) : nat :=
  match l with
  | [] => 0
  | x :: l' => if String.eqb k x then 0 else S (pos_of k l')
  end.

(** Every edge goes forward in the key order. *)
Definition forward_edges (g : graph) : bool :=
  forallb
    (fun item =>
       forallb (fun l => Nat.ltb (pos_of (fst item) (keys g)) (pos_of l (keys g)))
               (snd item))
    g.

(** What holds in addition along a run on an acyclic graph: the sources of
    a ready name were all emitted, the emitted sequence respects the edges,
    and every name still in [link_from] waits for some source. *)
Record acyclic_inv (g : graph) (st : state) : Prop := mkAcyclicInv
  { ai_ready : forall k, In k (ready st) ->
        forall s, edge g s k -> In s (ordered_names st);
    ai_respects : respects g (ordered_names st);
    ai_waiting : forall k w, get (link_from st) k = Some w -> w <> [] }.

(** The state after [n] full iterations of the loop, when there are that
    many. *)
Fixpoint state_after (n : nat) (g : graph) : option state :=
  match n with
  | 0 => match initial_state g with Ok st0 => Some st0 | _ => None end
  | S n' =>
      match state_after n' g with
      | Some st =>
          match loop_body g st with
          | Ok (Continue st') => Some st'
          | _ => None
          end
      | None => None
      end
  end.

(** ** Specification vocabulary for the link extractor *)

(** What a generator yields, without what it prints. *)
Definition yielded {A B} (r : result (A * B)) : result A :=
  x <- r ;; Ok (fst x).

(** What a generator prints. *)
Definition reported {A B} (r : result (A * B)) : result B :=
  x <- r ;; Ok (snd x).

(** The character [c] occurs in [s]. *)
Fixpoint has_char (c : ascii) (s : string) : bool :=
  match s with
  | EmptyString => false
  | String c' s' => Ascii.eqb c c' || has_char c s'
  end.

(** The call ends in an exception. *)
Definition raises {A} (r : result A) : Prop := exists e, r = Raise e.

(** The tokens of a macro: its name and its arguments. *)
Definition macro_tokens (macro : string) : list string :=
  findall (slice_trim macro 2 2).

(** A quoted string: it starts and ends with a double quote. *)
Definition is_quoted (s : string) : bool :=
  match first_char s, last_char s with
  | Ok c, Ok c' => Ascii.eqb c dq && Ascii.eqb c' dq
  | _, _ => false
  end.

(** A bracketed link, as the extractor tests it: it starts with an opening
    bracket. *)
Definition is_bracketed (s : string) : bool :=
  match first_char s with
  | Ok c => Ascii.eqb c "["%char
  | _ => false
  end.

(** The malformed shapes the specification names: a display macro whose
    first argument is not quoted; a click macro whose first argument is
    not a bracketed link and that has more than two arguments or a last
    argument that is not quoted. *)
Definition named_violation (tokens : list string) : bool :=
  match tokens with
  | name :: a :: rest =>
      if String.eqb name "display" then negb (is_quoted a)
      else if String.eqb name "click" then
        negb (is_bracketed a)
        && (Nat.ltb 2 (List.length (a :: rest))
            || negb (is_quoted (last rest a)))
      else false
  | _ => false
  end.

(** The shapes on which the extractor raises: the named ones, a macro
    without any token, and a display or click macro without argument. *)
Definition shape_violation (tokens : list string) : bool :=
  match tokens with
  | [] => true
  | [name] => String.eqb name "display" || String.eqb name "click"
  | _ => named_violation tokens
  end.

(** ** Further vocabulary for the link extractor *)

(** The text a report quotes. *)
Definition report_text (r : report) : string :=
  match r with
  | IncompleteMacro rest => rest
  | IncompleteLink rest => rest
  end.

(** What [split_body] makes of a segment: a macro span, delimited on both
    sides, or text without macro opener. *)
Definition segment_ok (segment : string) : Prop :=
  segment <> EmptyString
  /\ ((startswith segment "<<" = true /\ endswith segment ">>" = true)
      \/ find "<<" segment 0 = None).

(** The target of a bracketed link with content [link]: what stands behind
    the first pipe, or all of it. *)
Definition link_target (link : string) : string :=
  match find "|" link 0 with
  | None => link
  | Some sep => slice_from link (sep + 1)
  end.

(** All characters of [s] satisfy [p]. *)
Fixpoint all_chars (p : ascii -> bool) (s : string) : bool :=
  match s with
  | EmptyString => true
  | String c s' => p c && all_chars p s'
  end.

(** ** Headers of passages *)

(** The backslash. *)
Definition bs : ascii := "092"%char.

(** [s.replace(c, r)] for a single character [c]. *)
Fixpoint replace_char (c : ascii) (r : string) (s : string) : string :=
  match s with
  | EmptyString => EmptyString
  | String x s' =>
      if Ascii.eqb x c then (r ++ replace_char c r s')%string
      else String x (replace_char c r s')
  end.

(** A backslash in front of the character [c]. *)
Definition escaped (c : ascii) : string := String bs (String c EmptyString).

Definition escape (s : string) : string :=
  let s := replace_char bs (escaped bs) s in
  let s := replace_char "]" (escaped "]")
             (replace_char "[" (escaped "[") s) in
  replace_char "}" (escaped "}") (replace_char "{" (escaped "{") s).

(** [s.lstrip()], [s.rstrip()] and [s.strip()]. *)
Fixpoint lstrip (s : string) : string :=
  match s with
  | EmptyString => EmptyString
  | String c s' => if is_space c then lstrip s' else s
  end.

Fixpoint rstrip (s : string) : string :=
  match s with
  | EmptyString => EmptyString
  | String c s' =>
      match rstrip s' with
      | EmptyString => if is_space c then EmptyString
                       else String c EmptyString
      | r => String c r
      end
  end.

Definition strip (s : string) : string := rstrip (lstrip s).

(** [s.split()]: the maximal runs without whitespace; [word] is the run
    being read. *)
Fixpoint split_loop (s word : string) : list string :=
  match s with
  | EmptyString =>
      match word with EmptyString => [] | _ => [word] end
  | String c s' =>
      if is_space c then
        match word with
        | EmptyString => split_loop s' EmptyString
        | _ => word :: split_loop s' EmptyString
        end
      else split_loop s' (word ++ String c EmptyString)
  end.

Definition split (s : string) : list string := split_loop s EmptyString.

(** The [while] loop of [parse_header] on the unread rest of the line;
    [in_tags] tells that [chars] is [tag_chars]. It returns the two
    buffers and the unread rest [line[i:]]. *)
Fixpoint parse_header_loop (rest : string) (in_tags : bool)
    (name_chars tag_chars : string) : result (string * string * string) :=
  let append ch rest' :=
    if in_tags
    then parse_header_loop rest' true name_chars
           (tag_chars ++ String ch EmptyString)
    else parse_header_loop rest' false
           (name_chars ++ String ch EmptyString) tag_chars in
  match rest with
  | EmptyString => Ok (name_chars, tag_chars, EmptyString)
  | String ch rest' =>
      if Ascii.eqb ch "[" then
        if in_tags then Raise AssertionError
        else parse_header_loop rest' true name_chars
               (tag_chars ++ String ch EmptyString)
      else if Ascii.eqb ch "]" then Ok (name_chars, tag_chars, rest')
      else if Ascii.eqb ch "{" then Ok (name_chars, tag_chars, rest)
      else if Ascii.eqb ch bs then
        match rest' with
        | EmptyString => Raise IndexError
        | String ch' rest'' => append ch' rest''
        end
      else append ch rest'
  end.

(** A value as [json.loads] returns it; a number is kept as its literal. *)
#[warnings="-register-all"]
Inductive json : Type :=
| JNull
| JBool (b : bool)
| JNumber (literal : string)
| JString (s : string)
| JArray (items : list json)
| JObject (members : list (string * json)).

(** [json.loads] belongs to the Python library and is not modelled: the
    functions that call it take it as their argument [json_loads], and what
    is proved of them holds for whatever it returns or raises. *)
Definition loader : Type := string -> result json.

(** [parse_header]: the name, the tags and the metadata, which is the
    empty dict for a line read to its end and what [json.loads] makes of
    the unread rest otherwise. *)
Definition parse_header (json_loads : loader) (line : string)
  : result (string * list string * json) :=
  _ <- assert (startswith line "::") ;;
  r <- parse_header_loop (slice_from line 2) false EmptyString EmptyString ;;
  let name := strip (fst (fst r)) in
  let tags := split (slice_from (snd (fst r)) 1) in
  metadata <- match snd r with
              | EmptyString => Ok (JObject [])
              | text => json_loads text
              end ;;
  Ok (name, tags, metadata).

(** The header line [split_file] writes for a passage. *)
Definition header_line (name : string) (tags : list string) : string :=
  if is_empty tags then (":: " ++ escape name)%string
  else (":: " ++ escape name ++ " ["
          ++ String.concat " " (map escape (sorted tags)) ++ "]")%string.

(** The characters [escape] puts a backslash in front of. *)
Definition is_special (c : ascii) : bool :=
  Ascii.eqb c bs || Ascii.eqb c "[" || Ascii.eqb c "]"
  || Ascii.eqb c "{" || Ascii.eqb c "}".

(** A tag as [split] gives it: not empty and without whitespace. *)
Definition is_tag (t : string) : Prop :=
  t <> EmptyString /\ all_chars (fun c => negb (is_space c)) t = true.

(** ** Passages of a story file *)

(** What [parse_header] returns: name, tags, metadata. *)
Definition header : Type := (string * list string * json)%type.

(** A line that [split_passages] takes for a header. *)
Definition is_header (line : string) : bool := startswith line "::".

(** The loop of [split_passages]: [current] is [header], [None] before the
    first header line, and [body] the lines collected for it. *)
Fixpoint split_passages_loop (json_loads : loader) (lines : list string)
    (current : option header) (body : list string)
  : result (list (header * list string)) :=
  match lines with
  | [] =>
      match current with
      | Some h => Ok [(h, body)]
      | None => Ok []
      end
  | line :: lines' =>
      let line := rstrip line in
      if is_header line then
        h <- parse_header json_loads line ;;
        r <- split_passages_loop json_loads lines' (Some h) [] ;;
        Ok (match current with
            | Some h0 => (h0, body) :: r
            | None => r
            end)
      else split_passages_loop json_loads lines' current (body ++ [line])
  end.

Definition split_passages (json_loads : loader) (lines : list string)
  : result (list (header * list string)) :=
  split_passages_loop json_loads lines None [].

(** The lines from the first header line on. *)
Fixpoint from_first_header (lines : list string) : list string :=
  match lines with
  | [] => []
  | line :: lines' =>
      if is_header line then lines else from_first_header lines'
  end.

(** ** Output files *)

(** [name in d] for a dict given as an association list. *)
Definition lookup (table : list (string * string)) (name : string)
  : result string :=
  match List.find (fun item => String.eqb name (fst item)) table with
  | Some item => Ok (snd item)
  | None => Raise (KeyError name)
  end.

(** [classify_passage]; the metadata argument is not used. *)
Definition classify_passage (name : string) (tags : list string)
  : result string :=
  if smem name ["StoryTitle"; "StorySubtitle"; "StorySettings";
                "StoryCaption"; "StoryAuthor"; "StoryData"]
  then Ok "metadata.twee"
  else if smem name ["StoryInit"; "StoryMenu"; "MenuOptions";
                     "PassageReady"; "Bug Report Instructions"]
  then Ok "init.twee"
  else if smem "stylesheet" tags then
    if endswith name "font" then Ok "font.css" else Ok "stylesheet.css"
  else if smem "widget" tags then Ok "widgets.twee"
  else if String.eqb name "Character Information" then Ok "tracking.twee"
  else if smem name ["Start"; "Check for Age"; "Incest Toggle"; "Underage";
                     "Reset Preferences.";
                     "Instructions and About the Game"]
          || startswith name "Beta-testing:"
  then Ok "start.twee"
  else if smem "script" tags then
    lookup [("Bug Report", "bugreport.js"); ("savesimport", "savesimport.js");
            ("Save Info", "saves.js")] name
  else if startswith name "Q:" || String.eqb name "FAQ" then
    _ <- assert (smem "nosave" tags) ;; Ok "faq.twee"
  else if smem "nosave" tags then
    if startswith name "You" || String.eqb name "Basic Description"
    then Ok "you.twee"
    else if startswith name "Var" then Ok "tracking.twee"
    else Ok "characters.twee"
  else Ok "unsorted.twee".

(** The passages of one output file: name to tags and body. *)
Definition passages : Type := dict (list string * list string).

(** [{link: None for link in links if link in passages_by_name}] *)
Definition known_links (ps : passages) (links : list string) : oset :=
  fold_left
    (fun acc link => if mem ps link then oset_add acc link else acc)
    links [].

(** The link graph [link_to] that [order_passages] builds. *)
Definition build_link_to (ps : passages) : result graph :=
  for_each
    (fun acc item =>
       r <- find_links (snd (snd item)) ;;
       Ok (set acc (fst item) (known_links ps (fst r))))
    ps [].

(** The split points of [unsorted.twee]. *)
Definition day0_start := ["Introduction"].
Definition day1_start := ["Monday Morning"].
Definition day2_start := ["Tuesday Morning"].
Definition day3_start := ["Wednesday Morning"; "Wednesday Morning (1)"].
Definition end_of_content := ["Sorry, this is the end for now."].
Definition makeover_start :=
  ["Accept Mrs. Anderson's help."; "Mrs. Anderson's Makeover";
   "Wednesday Makeover"].
Definition makeover_end := ["Go to dinner."; "Makeover Done"].

Definition dates : list (string * list string) :=
  [ ("rachel", ["Go out to meet Rachel."]);
    ("sean", ["Go out to meet Sean."]);
    ("julia", ["Go shopping with Julia."]);
    ("billy", ["Go meet Billy."]);
    ("ethan", ["Go meet Ethan."]);
    ("belinda", ["Go clubbing with Belinda.";
                 "Go to comedy club with Belinda."]);
    ("molly", ["Go and find Molly."]);
    ("emily", ["Absolutely!"]) ].

Definition date_starts : list string := List.concat (map snd dates).

(** The files [unsorted.twee] is split into, each with its starts and its
    limits, in the order in which they are yielded. *)
Definition unsorted_parts : list (string * (list string * list string)) :=
  [ ("day0.twee", (day0_start, day1_start));
    ("day1.twee", (day1_start, day2_start));
    ("day2.twee", (day2_start ++ ["Go to dinner."],
                   day3_start ++ makeover_start));
    ("day3-school.twee", (day3_start, ["Go Home"]));
    ("day3-afterschool.twee",
     (["Go Home"], makeover_start ++ ["That sounds good."; "Makeover Done"]));
    ("day3-tape.twee", (["That sounds good."], []));
    ("day3-evening.twee",
     (["Makeover Done"; "Sleep Night 3"], date_starts ++ end_of_content)) ]
  ++ map (fun date =>
            (("day3-date-" ++ fst date ++ ".twee")%string,
             (snd date,
              ["Go to Wednesday Dinner"; "Sleep Night 3"] ++ end_of_content)))
         dates
  ++ [ ("end.twee", (end_of_content, []));
       ("makeover.twee", (makeover_start, makeover_end)) ].

(** One [yield file, order_graph(subgraph(link_to, starts, limits))]. *)
Definition order_part (link_to : graph)
    (acc : list (string * list string))
    (part : string * (list string * list string))
  : result (list (string * list string)) :=
  r <- subgraph link_to (fst (snd part)) (snd (snd part)) ;;
  names <- order_graph r ;;
  Ok (acc ++ [(fst part, names)]).

(** [order_passages]: the pairs of file name and passage names it yields. *)
Definition order_passages (filename : string) (ps : passages)
  : result (list (string * list string)) :=
  if negb (endswith filename ".twee") then
    _ <- assert (Nat.eqb (List.length ps) 1) ;;
    Ok [(filename, keys ps)]
  else
    link_to <- build_link_to ps ;;
    if String.eqb filename "unsorted.twee" then
      for_each (order_part link_to) unsorted_parts []
    else
      names <- order_graph link_to ;;
      Ok [(filename, names)].


(** ** Writing the output files *)

(** [while body and not body[-1]: del body[-1]], read on the body from its
    end. *)
Fixpoint drop_blank (rev_body : list string) : list string :=
  match rev_body with
  | EmptyString :: rest => drop_blank rest
  | _ => rev_body
  end.

Definition trim_body (body : list string) : list string :=
  rev (drop_blank (rev body)).

(** What [print(line, file=out)] writes. *)
Definition print_line (line : string) : string :=
  (line ++ String lf EmptyString)%string.

(** The texts [split_file] prints to the file [filename] for its passages,
    in order; [first] is the flag of the loop. Each text is one line of the
    file when it holds no line break of its own. *)
Fixpoint write_passages (filename : string) (first : bool) (ps : passages)
  : list string :=
  match ps with
  | [] => []
  | (name, (tags, body)) :: ps' =>
      (if first then []
       else [print_line EmptyString; print_line EmptyString])
      ++ (if endswith filename ".twee"
          then [print_line (header_line name tags)] else [])
      ++ map print_line body
      ++ write_passages filename false ps'
  end.

(** A passage as [split_file] stores it after reading: the name stripped,
    the tags split at whitespace, the body lines right-stripped and no
    header lines, and no blank line at the end of the body. *)
Definition stored (p : string * (list string * list string)) : Prop :=
  strip (fst p) = fst p
  /\ Forall is_tag (fst (snd p))
  /\ Forall (fun l => rstrip l = l /\ is_header l = false) (snd (snd p))
  /\ trim_body (snd (snd p)) = snd (snd p).
(** * Properties *)

(** ** Facts about dictionaries and ordered sets *)

Lemma smem_In k s : smem k s = true <-> In k s.
Proof.
  unfold smem. rewrite existsb_exists. split.
  - intros [x [Hx He]]. apply String.eqb_eq in He. now subst.
  - intros H. exists k. split; [assumption | apply String.eqb_refl].
Qed.

Lemma smem_not_In k s : smem k s = false <-> ~ In k s.
Proof.
  rewrite <- smem_In. destruct (smem k s); split; congruence.
Qed.

Section DictFacts.

Context {V : Type}.
Implicit Types (d : dict V) (k : string) (v : V).

Lemma get_In d k v : get d k = Some v -> In (k, v) d.
Proof.
  induction d as [|[k' v'] d IH]; simpl; [discriminate|].
  destruct (String.eqb_spec k k') as [->|Hne].
  - intros [= ->]. now left.
  - intros H. right. auto.
Qed.

Lemma get_None d k : get d k = None <-> ~ In k (keys d).
Proof.
  induction d as [|[k' v'] d IH]; simpl.
  - tauto.
  - destruct (String.eqb_spec k k') as [->|Hne].
    + split; [discriminate | intros H; exfalso; apply H; now left].
    + rewrite IH. split; intros H; [intros [E|I]; [congruence|auto] | auto].
Qed.

Lemma mem_In d k : mem d k = true <-> In k (keys d).
Proof.
  unfold mem. destruct (get d k) eqn:E.
  - split; [intros _|reflexivity].
    apply get_In in E. apply (in_map fst) in E. exact E.
  - apply get_None in E. split; [discriminate | contradiction].
Qed.

Lemma mem_not_In d k : mem d k = false <-> ~ In k (keys d).
Proof.
  rewrite <- mem_In. destruct (mem d k); split; congruence.
Qed.

Lemma In_keys_get d k : In k (keys d) -> exists v, get d k = Some v.
Proof.
  intros H. destruct (get d k) eqn:E; [eauto|].
  apply get_None in E. contradiction.
Qed.

Lemma In_get d k v : NoDup (keys d) -> In (k, v) d -> get d k = Some v.
Proof.
  induction d as [|[k' v'] d IH]; simpl; [contradiction|].
  intros Hnd [E|I].
  - injection E as -> ->. now rewrite String.eqb_refl.
  - inversion Hnd as [|? ? Hni Hnd']; subst.
    destruct (String.eqb_spec k k') as [->|Hne].
    + exfalso. apply Hni. apply (in_map fst) in I. exact I.
    + auto.
Qed.

Lemma get_set_eq d k v : get (set d k v) k = Some v.
Proof.
  induction d as [|[k' v'] d IH]; simpl.
  - now rewrite String.eqb_refl.
  - destruct (String.eqb_spec k k') as [->|Hne]; simpl.
    + now rewrite String.eqb_refl.
    + apply String.eqb_neq in Hne. now rewrite Hne.
Qed.

Lemma get_set_neq d k k' v : k <> k' -> get (set d k v) k' = get d k'.
Proof.
  intros Hne. induction d as [|[k0 v0] d IH]; simpl.
  - apply not_eq_sym, String.eqb_neq in Hne. now rewrite Hne.
  - destruct (String.eqb_spec k k0) as [->|Hne0]; simpl.
    + apply not_eq_sym, String.eqb_neq in Hne. now rewrite Hne.
    + now rewrite IH.
Qed.

Lemma set_new d k v : ~ In k (keys d) -> set d k v = d ++ [(k, v)].
Proof.
  induction d as [|[k' v'] d IH]; simpl; [reflexivity|].
  intros H. destruct (String.eqb_spec k k') as [->|Hne].
  - exfalso. apply H. now left.
  - f_equal. apply IH. tauto.
Qed.

Lemma set_same d k v : get d k = Some v -> set d k v = d.
Proof.
  induction d as [|[k' v'] d IH]; simpl; [discriminate|].
  destruct (String.eqb_spec k k') as [->|Hne].
  - now intros [= ->].
  - intros H. f_equal. auto.
Qed.

Lemma keys_set_old d k v : In k (keys d) -> keys (set d k v) = keys d.
Proof.
  induction d as [|[k' v'] d IH]; simpl; [contradiction|].
  intros H. destruct (String.eqb_spec k k') as [->|Hne]; simpl.
  - reflexivity.
  - f_equal. apply IH. destruct H; congruence.
Qed.

Lemma keys_set_new d k v : ~ In k (keys d) -> keys (set d k v) = keys d ++ [k].
Proof.
  intros H. rewrite set_new by assumption.
  unfold keys. now rewrite map_app.
Qed.

Lemma In_keys_set d k v x : In x (keys (set d k v)) <-> x = k \/ In x (keys d).
Proof.
  destruct (in_dec string_dec k (keys d)) as [Hin|Hni].
  - rewrite keys_set_old by assumption. split; [tauto|]. intros [->|H]; auto.
  - rewrite keys_set_new by assumption. rewrite in_app_iff. simpl.
    split; [intros [H|[H|[]]]; auto | intros [H|H]; auto].
Qed.

Lemma In_set d k v e : In e (set d k v) -> e = (k, v) \/ In e d.
Proof.
  induction d as [|[k' v'] d IH]; simpl.
  - intros [H|[]]; auto.
  - destruct (String.eqb_spec k k') as [->|Hne]; simpl.
    + intros [H|H]; auto.
    + intros [H|H]; auto. destruct (IH H); auto.
Qed.

Lemma In_remove d k e : In e (remove d k) -> In e d.
Proof.
  induction d as [|[k' v'] d IH]; simpl; [auto|].
  destruct (String.eqb k k'); simpl; intuition.
Qed.

Lemma keys_remove d k :
  keys (remove d k) = filter (fun x => negb (String.eqb k x)) (keys d).
Proof.
  induction d as [|[k' v'] d IH]; simpl; [reflexivity|].
  destruct (String.eqb k k'); simpl; [assumption | now f_equal].
Qed.

Lemma In_keys_remove d k x : In x (keys (remove d k)) <-> In x (keys d) /\ x <> k.
Proof.
  rewrite keys_remove, filter_In, negb_true_iff, String.eqb_neq.
  intuition congruence.
Qed.

Lemma get_remove_eq d k : get (remove d k) k = None.
Proof. apply get_None. rewrite In_keys_remove. tauto. Qed.

Lemma get_remove_neq d k k' : k <> k' -> get (remove d k) k' = get d k'.
Proof.
  intros Hne. induction d as [|[k0 v0] d IH]; simpl; [reflexivity|].
  destruct (String.eqb_spec k k0) as [->|Hne0]; simpl.
  - apply not_eq_sym, String.eqb_neq in Hne. now rewrite Hne.
  - now rewrite IH.
Qed.

Lemma remove_absent d k : ~ In k (keys d) -> remove d k = d.
Proof.
  induction d as [|[k' v'] d IH]; simpl; [reflexivity|].
  intros H. destruct (String.eqb_spec k k') as [->|Hne].
  - exfalso. apply H. now left.
  - f_equal. apply IH. tauto.
Qed.

Lemma NoDup_keys_remove d k : NoDup (keys d) -> NoDup (keys (remove d k)).
Proof. intros H. rewrite keys_remove. now apply NoDup_filter. Qed.

Lemma NoDup_keys_set d k v : NoDup (keys d) -> NoDup (keys (set d k v)).
Proof.
  intros H. destruct (in_dec string_dec k (keys d)) as [Hin|Hni].
  - now rewrite keys_set_old.
  - rewrite keys_set_new by assumption.
    apply NoDup_app; [assumption | repeat constructor; simpl; tauto |].
    intros x Hx [<-|[]]. contradiction.
Qed.

Lemma Permutation_keys_remove d k :
  NoDup (keys d) -> In k (keys d) ->
  Permutation (k :: keys (remove d k)) (keys d).
Proof.
  induction d as [|[k' v'] d IH]; simpl; [contradiction|].
  intros Hnd Hin. inversion Hnd as [|? ? Hni Hnd']; subst.
  destruct (String.eqb_spec k k') as [->|Hne].
  - rewrite remove_absent by assumption. reflexivity.
  - simpl. rewrite perm_swap. constructor. apply IH; [assumption|].
    destruct Hin; congruence.
Qed.

End DictFacts.

(** ** The subgraph selector *)

Lemma In_filter_links_acc limits links acc x :
  In x (fold_left
          (fun acc link => if smem link limits then acc else oset_add acc link)
          links acc)
  <-> In x acc \/ (In x links /\ ~ In x limits).
Proof.
  revert acc. induction links as [|l links IH]; intros acc; simpl.
  - tauto.
  - rewrite IH. destruct (smem l limits) eqn:El.
    + apply smem_In in El. split; [tauto|].
      intros [H|[[->|H] Hn]]; tauto.
    + apply smem_not_In in El. unfold oset_add.
      destruct (smem l acc) eqn:Ea.
      * apply smem_In in Ea. split; [tauto|].
        intros [H|[[<-|H] Hn]]; tauto.
      * rewrite in_app_iff. simpl. split.
        -- intros [[H|[<-|[]]]|H]; tauto.
        -- intros [H|[[<-|H] Hn]]; tauto.
Qed.

Lemma In_filter_links limits links x :
  In x (filter_links limits links) <-> In x links /\ ~ In x limits.
Proof.
  unfold filter_links. rewrite In_filter_links_acc. simpl. tauto.
Qed.

Lemma filter_links_no_limits_acc links acc :
  NoDup (acc ++ links) ->
  fold_left (fun acc link => if smem link [] then acc else oset_add acc link)
            links acc = acc ++ links.
Proof.
  revert acc. induction links as [|l links IH]; intros acc Hnd; simpl.
  - now rewrite app_nil_r.
  - unfold oset_add at 2.
    assert (Hl : smem l acc = false).
    { apply smem_not_In. apply NoDup_remove_2 in Hnd.
      intros H. apply Hnd. apply in_or_app. now left. }
    rewrite Hl. rewrite IH; rewrite <- app_assoc; [reflexivity | exact Hnd].
Qed.

Lemma filter_links_no_limits links :
  NoDup links -> filter_links [] links = links.
Proof. intros H. apply (filter_links_no_limits_acc links []). exact H. Qed.

Lemma discover_inv g limits reached remaining link remaining' :
  discover g limits reached remaining link = Ok remaining' ->
  (In link (keys reached) /\ remaining' = remaining)
  \/ (~ In link (keys reached) /\
      exists targets, get g link = Some targets /\
        remaining' = set remaining link (filter_links limits targets)).
Proof.
  unfold discover. destruct (mem reached link) eqn:Em.
  - intros [= <-]. left. split; [now apply mem_In | reflexivity].
  - unfold getitem. destruct (get g link) as [targets|] eqn:Eg; simpl;
      [|discriminate].
    intros [= <-]. right. split; [now apply mem_not_In | eauto].
Qed.

Lemma explore_inv g limits reached links :
  forall remaining remaining',
  for_each (discover g limits reached) links remaining = Ok remaining' ->
  (faithful g limits remaining -> faithful g limits remaining')
  /\ (forall k, In k (keys remaining) -> In k (keys remaining'))
  /\ (forall x, In x links -> In x (keys reached) \/ In x (keys remaining'))
  /\ (forall k, In k (keys remaining') ->
        In k (keys remaining)
        \/ (In k links /\ ~ In k (keys reached) /\ In k (keys g))).
Proof.
  induction links as [|l links IH]; intros remaining remaining'; simpl.
  - intros [= <-]. refine (conj (fun H => H) (conj (fun _ H => H) (conj _ _))); [contradiction | auto].
  - destruct (discover g limits reached remaining l) as [rem1| |] eqn:Ed;
      simpl; try discriminate.
    intros Hrest. destruct (IH _ _ Hrest) as (Hf & Hmono & Hcov & Hnew).
    apply discover_inv in Ed.
    destruct Ed as [[Hin ->]|[Hni (targets & Hg & ->)]].
    + refine (conj Hf (conj Hmono (conj _ _))).
      * intros x [<-|Hx]; auto.
      * intros k Hk.
        destruct (Hnew k Hk) as [H|(H1 & H2 & H3)];
          [now left | right; simpl; tauto].
    + refine (conj _ (conj _ (conj _ _))).
      * intros Hfr. apply Hf. intros n ls Hn.
        apply In_set in Hn. destruct Hn as [[= -> ->]|Hn]; eauto.
      * intros k Hk. apply Hmono. apply In_keys_set. now right.
      * intros x [<-|Hx]; auto. right. apply Hmono, In_keys_set. now left.
      * intros k Hk. destruct (Hnew k Hk) as [H|(H1 & H2 & H3)].
        -- apply In_keys_set in H. destruct H as [->|H]; auto.
           right. split; [now left|]. split; [assumption|].
           apply get_In in Hg. apply (in_map fst) in Hg. exact Hg.
        -- right. simpl. tauto.
Qed.

Lemma In_keys_entry {V} (d : dict V) k : In k (keys d) -> exists v, In (k, v) d.
Proof.
  intros H. apply in_map_iff in H. destruct H as [[k' v] [E H]].
  simpl in E. subst. eauto.
Qed.

Lemma sub_inv_step g starts limits name links rest reached remaining2 :
  sub_inv g starts limits ((name, links) :: rest) reached ->
  for_each (discover g limits (set reached name links)) links
           (remove ((name, links) :: rest) name) = Ok remaining2 ->
  sub_inv g starts limits remaining2 (set reached name links)
  /\ (forall k, In k (keys ((name, links) :: rest)) \/ In k (keys reached) ->
        In k (keys remaining2) \/ In k (keys (set reached name links)))
  /\ keys (set reached name links) = keys reached ++ [name].
Proof.
  intros [Hfr Hfd Hcl Hre Hnd Hdj Hkn] Hfor.
  apply explore_inv in Hfor. destruct Hfor as (Hf & Hmono & Hcov & Hnew).
  assert (Hname : ~ In name (keys reached)) by (apply Hdj; now left).
  assert (Hkeys : keys (set reached name links) = keys reached ++ [name])
    by now apply keys_set_new.
  assert (Hfr1 : faithful g limits (remove ((name, links) :: rest) name)).
  { intros n ls Hn. apply In_remove in Hn. now apply Hfr. }
  assert (Hmove : forall k, In k (keys ((name, links) :: rest)) ->
            k = name \/ In k (keys (remove ((name, links) :: rest) name))).
  { intros k Hk. destruct (string_dec k name) as [->|Hne]; [now left|].
    right. apply In_keys_remove. split; assumption. }
  split; [|split]; [| |exact Hkeys].
  - constructor.
    + now apply Hf.
    + intros n ls Hn. apply In_set in Hn.
      destruct Hn as [[= -> ->]|Hn]; [|now apply Hfd].
      apply Hfr. now left.
    + intros n ls x Hn Hx. apply In_set in Hn.
      destruct Hn as [[= -> ->]|Hn]; [now apply Hcov|].
      destruct (Hcl n ls x Hn Hx) as [H|H].
      * left. apply In_keys_set. now right.
      * destruct (Hmove x H) as [->|H'].
        -- left. apply In_keys_set. now left.
        -- right. now apply Hmono.
    + intros k [Hk|Hk].
      * destruct (Hnew k Hk) as [H|(H1 & H2 & H3)].
        -- apply Hre. left. apply In_keys_remove in H. tauto.
        -- destruct (Hfr name links (or_introl eq_refl))
             as (targets & Hg & ->).
           apply In_filter_links in H1.
           apply reach_step with (name := name) (targets := targets);
             try tauto.
           apply Hre. left. now left.
      * apply In_keys_set in Hk. destruct Hk as [->|Hk].
        -- apply Hre. left. now left.
        -- apply Hre. now right.
    + rewrite Hkeys. apply NoDup_app; [assumption | repeat constructor; simpl; tauto|].
      intros x Hx [<-|[]]. contradiction.
    + intros k Hk. rewrite In_keys_set.
      destruct (Hnew k Hk) as [H|(H1 & H2 & H3)].
      * apply In_keys_remove in H. destruct H as [H Hne].
        intros [->|H']; [congruence|]. now apply (Hdj k).
      * intros H. apply H2. now apply In_keys_set.
    + intros k [Hk|Hk].
      * destruct (Hnew k Hk) as [H|(H1 & H2 & H3)]; [|assumption].
        apply Hkn. left. apply In_keys_remove in H. tauto.
      * apply In_keys_set in Hk. destruct Hk as [->|Hk].
        -- apply Hkn. left. now left.
        -- apply Hkn. now right.
  - intros k [Hk|Hk].
    + destruct (Hmove k Hk) as [->|H].
      * right. apply In_keys_set. now left.
      * left. now apply Hmono.
    + right. apply In_keys_set. now right.
Qed.

Lemma subgraph_loop_inv g starts limits fuel :
  forall remaining reached r,
  sub_inv g starts limits remaining reached ->
  subgraph_loop fuel g limits remaining reached = Ok r ->
  sub_inv g starts limits [] r
  /\ (forall k, In k (keys remaining) \/ In k (keys reached) ->
        In k (keys r)).
Proof.
  induction fuel as [|fuel IH]; intros remaining reached r Hinv; simpl.
  - destruct remaining; [|discriminate]. intros [= <-].
    split; [assumption|]. intros k [[]|H]; assumption.
  - destruct remaining as [|[name links] rest].
    + intros [= <-]. split; [assumption|]. intros k [[]|H]; assumption.
    + destruct (for_each _ links _) as [remaining2| |] eqn:Hfor;
        simpl; try discriminate.
      intros Hloop.
      destruct (sub_inv_step _ _ _ _ _ _ _ _ Hinv Hfor) as (Hinv2 & Hcov & _).
      destruct (IH _ _ _ Hinv2 Hloop) as (Hfin & Hall).
      split; [assumption|]. intros k Hk. apply Hall, Hcov, Hk.
Qed.

Lemma explore_has_fuel g limits reached links :
  forall remaining,
  for_each (discover g limits reached) links remaining <> OutOfFuel.
Proof.
  induction links as [|l links IH]; intros remaining; simpl; [discriminate|].
  unfold discover at 1, getitem.
  destruct (mem reached l); simpl; [apply IH|].
  destruct (get g l); simpl; [apply IH | discriminate].
Qed.

Lemma subgraph_loop_has_fuel g starts limits fuel :
  forall remaining reached,
  sub_inv g starts limits remaining reached ->
  List.length g <= fuel + List.length (keys reached) ->
  subgraph_loop fuel g limits remaining reached <> OutOfFuel.
Proof.
  assert (Hroom : forall name links rest reached,
             sub_inv g starts limits ((name, links) :: rest) reached ->
             S (List.length (keys reached)) <= List.length g).
  { intros name links rest reached [_ _ _ _ Hnd Hdj Hkn].
    replace (List.length g) with (List.length (keys g))
      by (unfold keys; apply length_map).
    apply (NoDup_incl_length (l := name :: keys reached)).
    - constructor; [apply Hdj; now left | assumption].
    - intros k [<-|Hk]; apply Hkn; [left; now left | now right]. }
  induction fuel as [|fuel IH]; intros remaining reached Hinv Hfuel; simpl.
  - destruct remaining as [|[name links] rest]; [discriminate|].
    apply Hroom in Hinv. lia.
  - destruct remaining as [|[name links] rest]; [discriminate|].
    destruct (for_each _ links _) as [remaining2| |] eqn:Hfor; simpl.
    + destruct (sub_inv_step _ _ _ _ _ _ _ _ Hinv Hfor) as (Hinv2 & _ & Hkeys).
      apply IH; [assumption|]. rewrite Hkeys, length_app. simpl. lia.
    + discriminate.
    + now apply explore_has_fuel in Hfor.
Qed.

Lemma initial_remaining_acc g limits starts :
  forall acc remaining,
  for_each
    (fun acc name =>
       targets <- getitem g name ;;
       Ok (set acc name (filter_links limits targets)))
    starts acc = Ok remaining ->
  faithful g limits acc ->
  (forall k, In k (keys acc) -> In k (keys g)) ->
  faithful g limits remaining
  /\ (forall k, In k (keys remaining) <-> In k (keys acc) \/ In k starts)
  /\ (forall k, In k (keys remaining) -> In k (keys g)).
Proof.
  induction starts as [|s starts IH]; intros acc remaining; simpl.
  - intros [= <-] Hf Hacc. split; [assumption|]. split; [|assumption].
    intros k. tauto.
  - unfold getitem at 1. destruct (get g s) as [targets|] eqn:Hg; simpl;
      [|discriminate].
    intros Hfor Hf Hacc.
    assert (Hs : In s (keys g)).
    { apply get_In in Hg. apply (in_map fst) in Hg. exact Hg. }
    apply IH in Hfor.
    + destruct Hfor as (H1 & H2 & H3). split; [assumption|].
      split; [|assumption].
      intros k. rewrite H2, In_keys_set. intuition.
    + intros n ls Hn. apply In_set in Hn.
      destruct Hn as [[= -> ->]|Hn]; [eauto | now apply Hf].
    + intros k Hk. apply In_keys_set in Hk. destruct Hk as [->|Hk]; auto.
Qed.

Lemma initial_remaining_inv g starts limits remaining :
  initial_remaining g limits starts = Ok remaining ->
  sub_inv g starts limits remaining []
  /\ (forall k, In k starts -> In k (keys remaining)).
Proof.
  intros H. apply initial_remaining_acc in H.
  - destruct H as (Hf & Hk & Hg). split.
    + constructor.
      * exact Hf.
      * intros n ls [].
      * intros n ls x [].
      * intros k [Hin|[]]. apply reach_start; [|now apply Hg].
        apply Hk in Hin. destruct Hin as [[]|Hin]; assumption.
      * constructor.
      * intros k _ [].
      * intros k [Hin|[]]. now apply Hg.
    + intros k Hin. apply Hk. now right.
  - intros n ls [].
  - intros k [].
Qed.

(** [subgraph] with the fuel it is given always finishes: it returns a
    mapping or raises [KeyError]. *)
Lemma subgraph_has_fuel g starts limits :
  subgraph g starts limits <> OutOfFuel.
Proof.
  unfold subgraph.
  destruct (initial_remaining g limits starts) as [remaining| |] eqn:Hinit;
    simpl.
  - apply initial_remaining_inv in Hinit. destruct Hinit as [Hinv _].
    eapply subgraph_loop_has_fuel; [exact Hinv | simpl; lia].
  - discriminate.
  - exfalso. revert Hinit. unfold initial_remaining.
    generalize (@nil (string * oset)).
    induction starts as [|s starts IH]; intros acc; simpl; [discriminate|].
    unfold getitem at 1. destruct (get g s); simpl; [apply IH | discriminate].
Qed.

(** What [subgraph] returns: the limit-filtered edge sets of exactly the
    names reachable from [starts] along edges that do not enter a limit. *)
Lemma subgraph_spec g starts limits r :
  subgraph g starts limits = Ok r ->
  faithful g limits r
  /\ (forall name links x, In (name, links) r -> In x links -> In x (keys r))
  /\ (forall k, In k (keys r) <-> reach g starts limits k)
  /\ NoDup (keys r).
Proof.
  unfold subgraph.
  destruct (initial_remaining g limits starts) as [remaining| |] eqn:Hinit;
    simpl; try discriminate.
  intros Hloop. apply initial_remaining_inv in Hinit.
  destruct Hinit as [Hinv Hstarts].
  destruct (subgraph_loop_inv _ _ _ _ _ _ _ Hinv Hloop) as (Hfin & Hall).
  destruct Hfin as [Hfr Hfd Hcl Hre Hnd Hdj Hkn].
  split; [assumption|]. split; [|split; [|assumption]].
  - intros name links x Hn Hx. destruct (Hcl _ _ _ Hn Hx) as [H|[]]. exact H.
  - intros k. split; [intros Hk; apply Hre; now right|].
    induction 1 as [name Hs Hg|name targets link Hr IH Hg Hl Hlim].
    + apply Hall. left. now apply Hstarts.
    + destruct (In_keys_entry _ _ IH) as [links Hlinks].
      destruct (Hfd _ _ Hlinks) as (targets' & Hg' & ->).
      rewrite Hg in Hg'. injection Hg' as <-.
      destruct (Hcl name (filter_links limits targets) link Hlinks) as [H|[]];
        [|exact H].
      apply In_filter_links. tauto.
Qed.

(** C10: the mapping [subgraph] returns is closed under its own edges, and
    no limit is the target of a returned edge. *)
Theorem subgraph_closed g starts limits r :
  subgraph g starts limits = Ok r ->
  forall name links link, In (name, links) r -> In link links ->
    In link (keys r) /\ ~ In link limits.
Proof.
  intros Hsub name links link Hn Hl.
  destruct (subgraph_spec _ _ _ _ Hsub) as (Hf & Hcl & _).
  split; [eapply Hcl; eassumption|].
  destruct (Hf _ _ Hn) as (targets & _ & ->).
  apply In_filter_links in Hl. tauto.
Qed.

Lemma subgraph_closed_witness :
  let g := [("S", ["M"; "X"]); ("M", ["E"]); ("X", ["E"]); ("E", [])] in
  let r := [("S", ["M"]); ("M", ["E"]); ("E", [])] in
  subgraph g ["S"] ["X"] = Ok r
  /\ (In "M" (keys r) /\ ~ In "M" ["X"]).
Proof.
  split; [reflexivity|].
  apply (subgraph_closed
           [("S", ["M"; "X"]); ("M", ["E"]); ("X", ["E"]); ("E", [])]
           ["S"] ["X"] [("S", ["M"]); ("M", ["E"]); ("E", [])]
           eq_refl "S" ["M"] "M"); simpl; auto.
Defined.

(** C5, as stated, fails: a limit that is also a start is expanded like any
    other start, so a node can be discovered through a limit's edge. *)
Lemma subgraph_limit_start_expanded :
  let g := [("A", ["B"]); ("B", [])] in
  subgraph g ["A"] ["A"] = Ok [("A", ["B"]); ("B", [])]
  /\ In "A" ["A"]
  /\ ~ walled_reach g ["A"] ["A"] "B".
Proof.
  split; [reflexivity|]. split; [now left|].
  intros H. inversion H as [n Hs|n targets link Hw Hlim Hg Hin Hnl]; subst.
  - destruct Hs as [E|[]]. discriminate.
  - simpl in Hg.
    destruct (String.eqb_spec n "A") as [->|HnA].
    + apply Hlim. now left.
    + destruct (String.eqb_spec n "B") as [->|HnB]; [|discriminate].
      injection Hg as <-. destruct Hin.
Qed.

(** C5, amended: every returned edge set is the source's edge set with the
    limits removed; the returned keys are exactly the names reachable from
    the starts along edges that do not enter a limit; a limit is never the
    target of a returned edge, and it is a returned key exactly when it is a
    start. *)
Theorem subgraph_walls g starts limits r :
  subgraph g starts limits = Ok r ->
  (forall name links, In (name, links) r ->
     exists targets, get g name = Some targets
       /\ links = filter_links limits targets
       /\ forall x, In x links <-> In x targets /\ ~ In x limits)
  /\ (forall k, In k (keys r) <-> reach g starts limits k)
  /\ (forall l, In l limits ->
        (In l (keys r) <-> In l starts)
        /\ forall name links, In (name, links) r -> ~ In l links).
Proof.
  intros Hsub.
  destruct (subgraph_spec _ _ _ _ Hsub) as (Hf & Hcl & Hre & Hnd).
  split; [|split; [exact Hre|]].
  - intros name links Hn. destruct (Hf _ _ Hn) as (targets & Hg & ->).
    exists targets. split; [assumption|]. split; [reflexivity|].
    intros x. apply In_filter_links.
  - intros l Hl. split.
    + rewrite Hre. split.
      * intros H. inversion H; subst; [assumption | contradiction].
      * intros Hs. apply reach_start; [assumption|].
        unfold subgraph in Hsub.
        destruct (initial_remaining g limits starts) as [rem| |] eqn:Hinit;
          simpl in Hsub; try discriminate.
        apply initial_remaining_inv in Hinit. destruct Hinit as [Hinv Hst].
        apply (si_known _ _ _ _ _ Hinv). left. now apply Hst.
    + intros name links Hn Hin.
      destruct (Hf _ _ Hn) as (targets & _ & ->).
      apply In_filter_links in Hin. tauto.
Qed.

Lemma subgraph_walls_witness :
  let g := [("S", ["M"; "X"]); ("M", ["E"]); ("X", ["E"]); ("E", [])] in
  let r := [("S", ["M"]); ("M", ["E"]); ("E", [])] in
  subgraph g ["S"] ["X"] = Ok r
  /\ ((In "X" (keys r) <-> In "X" ["S"])
      /\ forall name links, In (name, links) r -> ~ In "X" links).
Proof.
  split; [reflexivity|].
  apply (subgraph_walls
           [("S", ["M"; "X"]); ("M", ["E"]); ("X", ["E"]); ("E", [])]
           ["S"] ["X"] [("S", ["M"]); ("M", ["E"]); ("E", [])] eq_refl).
  simpl. auto.
Defined.

(** *** The round trip *)

Lemma get_app {V} (a b : dict V) k :
  get (a ++ b) k = match get a k with Some v => Some v | None => get b k end.
Proof.
  induction a as [|[k' v'] a IH]; simpl; [reflexivity|].
  destruct (String.eqb k k'); [reflexivity | exact IH].
Qed.

Lemma keys_app {V} (a b : dict V) : keys (a ++ b) = keys a ++ keys b.
Proof. unfold keys. apply map_app. Qed.

Lemma initial_remaining_all (g : graph) :
  NoDup (keys g) ->
  (forall name links, In (name, links) g -> NoDup links) ->
  initial_remaining g [] (keys g) = Ok g.
Proof.
  intros Hnd Hlinks. unfold initial_remaining.
  enough (H : forall g2 g1 : graph, g = g1 ++ g2 ->
            for_each
              (fun acc name =>
                 targets <- getitem g name ;;
                 Ok (set acc name (filter_links [] targets)))
              (keys g2) g1 = Ok g)
    by (apply (H g []); reflexivity).
  induction g2 as [|[n ls] g2 IH]; intros g1 Hg; simpl.
  - now rewrite app_nil_r in Hg; subst.
  - assert (Hin : In (n, ls) g) by (subst g; apply in_elt).
    unfold getitem. rewrite (In_get _ _ _ Hnd Hin). simpl.
    rewrite (filter_links_no_limits _ (Hlinks _ _ Hin)).
    rewrite set_new.
    + apply IH. rewrite <- app_assoc. exact Hg.
    + subst g. rewrite keys_app in Hnd. simpl in Hnd.
      apply NoDup_remove_2 in Hnd. intros H. apply Hnd.
      apply in_or_app. now left.
Qed.

Lemma explore_all_known (g reached rest : graph) (links : oset) :
  NoDup (keys g) ->
  (forall name links, In (name, links) g -> NoDup links) ->
  g = reached ++ rest ->
  (forall l, In l links -> In l (keys g)) ->
  for_each (discover g [] reached) links rest = Ok rest.
Proof.
  intros Hnd Hlinks Hg. induction links as [|l links IH]; intros Hin; simpl;
    [reflexivity|].
  assert (Hstep : discover g [] reached rest l = Ok rest).
  { unfold discover. destruct (mem reached l) eqn:Em; [reflexivity|].
    apply mem_not_In in Em.
    assert (Hl : In l (keys rest)).
    { specialize (Hin l (or_introl eq_refl)). rewrite Hg, keys_app in Hin.
      apply in_app_or in Hin. tauto. }
    destruct (In_keys_get _ _ Hl) as [t Ht].
    assert (Hgl : get g l = Some t).
    { rewrite Hg, get_app. apply get_None in Em. now rewrite Em. }
    unfold getitem. rewrite Hgl. simpl.
    rewrite filter_links_no_limits
      by (apply (Hlinks l); now apply get_In).
    now rewrite set_same. }
  rewrite Hstep. simpl. apply IH. intros x Hx. apply Hin. now right.
Qed.

Lemma subgraph_loop_all (g : graph) :
  wf_graph g ->
  forall fuel (remaining reached : graph),
  g = reached ++ remaining ->
  List.length remaining <= fuel ->
  subgraph_loop fuel g [] remaining reached = Ok g.
Proof.
  intros [Hnd Hlinks Hclosed].
  induction fuel as [|fuel IH]; intros remaining reached Hg Hfuel.
  - destruct remaining; [|simpl in Hfuel; lia]. simpl.
    now rewrite app_nil_r in Hg; subst.
  - destruct remaining as [|[name links] rest].
    + simpl. now rewrite app_nil_r in Hg; subst.
    + assert (Hkeys : NoDup (keys reached ++ name :: keys rest)).
      { rewrite Hg, keys_app in Hnd. exact Hnd. }
      assert (Hrest : ~ In name (keys rest)).
      { apply NoDup_remove_2 in Hkeys. intros H. apply Hkeys.
        apply in_or_app. now right. }
      assert (Hreached : ~ In name (keys reached)).
      { apply NoDup_remove_2 in Hkeys. intros H. apply Hkeys.
        apply in_or_app. now left. }
      cbn [subgraph_loop remove]. rewrite String.eqb_refl.
      rewrite (remove_absent _ _ Hrest), (set_new _ _ _ Hreached).
      assert (Hg' : g = (reached ++ [(name, links)]) ++ rest)
        by (rewrite <- app_assoc; exact Hg).
      rewrite (explore_all_known g _ rest links Hnd Hlinks Hg').
      * simpl. apply IH; [exact Hg' | simpl in Hfuel; lia].
      * intros l Hl. apply (Hclosed name links); [|exact Hl].
        rewrite Hg. apply in_elt.
Qed.

(** C6: restricting a well-formed link graph to the subgraph that starts at
    all of its keys, with no limits, gives the graph back. *)
Theorem subgraph_round_trip g :
  wf_graph g -> subgraph g (keys g) [] = Ok g.
Proof.
  intros Hwf. unfold subgraph.
  rewrite (initial_remaining_all g (wf_keys _ Hwf) (wf_links _ Hwf)). simpl.
  apply subgraph_loop_all; [assumption | reflexivity | lia].
Qed.

Lemma subgraph_round_trip_witness :
  let g := [("S", ["M"; "X"]); ("M", ["E"]); ("X", ["E"; "S"]); ("E", [])] in
  subgraph g (keys g) [] = Ok g.
Proof.
  apply subgraph_round_trip. constructor.
  - repeat constructor; simpl; intuition discriminate.
  - intros name links H. simpl in H.
    repeat (destruct H as [H|H]; [injection H as <- <-;
      repeat constructor; simpl; intuition discriminate|]).
    destruct H.
  - intros name links link H. simpl in H.
    repeat (destruct H as [H|H]; [injection H as <- <-; simpl; tauto|]).
    destruct H.
Defined.

(** ** The topological orderer *)

Lemma edge_In g s k :
  NoDup (keys g) ->
  (edge g s k <-> exists links, In (s, links) g /\ In k links).
Proof.
  intros Hnd. unfold edge. split; intros (links & H1 & H2); exists links;
    split; auto using get_In, In_get.
Qed.

Lemma edgeb_edge g s k : edgeb g s k = true <-> edge g s k.
Proof.
  unfold edgeb, edge. destruct (get g s) as [links|].
  - rewrite smem_In. split; [eauto|]. now intros (l & [= <-] & H).
  - split; [discriminate|]. now intros (l & [=] & _).
Qed.

Lemma edge_source_key g s k : edge g s k -> In s (keys g).
Proof.
  intros (links & Hg & _). apply get_In in Hg.
  apply (in_map fst) in Hg. exact Hg.
Qed.

Lemma edge_target_key g s k : wf_graph g -> edge g s k -> In k (keys g).
Proof.
  intros Hwf (links & Hg & Hin). apply get_In in Hg.
  eapply wf_closed; eassumption.
Qed.

(** *** Building the reverse graph *)

Lemma empty_link_from_acc (l : list string) :
  forall acc : dict oset,
  NoDup (keys acc ++ l) ->
  fold_left (fun acc name => set acc name []) l acc
  = acc ++ map (fun k => (k, [])) l.
Proof.
  induction l as [|k l IH]; intros acc Hnd; simpl.
  - now rewrite app_nil_r.
  - rewrite set_new.
    + rewrite IH; rewrite <- ?app_assoc; [reflexivity|].
      rewrite keys_app. simpl. rewrite <- app_assoc. exact Hnd.
    + apply NoDup_remove_2 in Hnd. intros H. apply Hnd.
      apply in_or_app. now left.
Qed.

Lemma empty_link_from_map g :
  NoDup (keys g) -> empty_link_from g = map (fun k => (k, [])) (keys g).
Proof.
  intros Hnd. unfold empty_link_from.
  now rewrite empty_link_from_acc.
Qed.

Lemma In_oset_add s k x : In x (oset_add s k) <-> In x s \/ x = k.
Proof.
  unfold oset_add. destruct (smem k s) eqn:E.
  - apply smem_In in E. split; [tauto|]. intros [H| ->]; assumption.
  - rewrite in_app_iff. simpl. intuition.
Qed.

Lemma add_incoming_loop name (links : oset) :
  forall (lf : dict oset) (E : string -> string -> Prop),
  (forall l, In l links -> In l (keys lf)) ->
  (forall k w, get lf k = Some w -> forall s, In s w <-> E s k) ->
  exists lf',
    for_each (add_incoming name) links lf = Ok lf'
    /\ keys lf' = keys lf
    /\ (forall k w, get lf' k = Some w ->
          forall s, In s w <-> E s k \/ (s = name /\ In k links)).
Proof.
  induction links as [|l links IH]; intros lf E Hin Hw; simpl.
  - exists lf. split; [reflexivity|]. split; [reflexivity|].
    intros k w Hk s. rewrite (Hw k w Hk). tauto.
  - destruct (In_keys_get _ _ (Hin l (or_introl eq_refl))) as [w0 Hw0].
    unfold add_incoming at 1, getitem. rewrite Hw0. simpl.
    destruct (IH (set lf l (oset_add w0 name))
                 (fun s k => E s k \/ (s = name /\ k = l)))
      as (lf' & Hfor & Hkeys & Hw').
    + intros x Hx. rewrite In_keys_set. right. apply Hin. now right.
    + intros k w Hk s. destruct (string_dec l k) as [<-|Hne].
      * rewrite get_set_eq in Hk. injection Hk as <-.
        rewrite In_oset_add, (Hw l w0 Hw0). tauto.
      * rewrite get_set_neq in Hk by assumption.
        rewrite (Hw k w Hk). intuition congruence.
    + exists lf'. split; [exact Hfor|]. split.
      * rewrite Hkeys. apply keys_set_old. apply Hin. now left.
      * intros k w Hk s. rewrite (Hw' k w Hk). intuition (subst; auto).
Qed.

Lemma build_link_from_loop (g : graph) (items : graph) :
  forall (lf : dict oset) (E : string -> string -> Prop),
  keys lf = keys g ->
  (forall name links l, In (name, links) items -> In l links ->
     In l (keys g)) ->
  (forall k w, get lf k = Some w -> forall s, In s w <-> E s k) ->
  exists lf',
    for_each
      (fun link_from item =>
         for_each (add_incoming (fst item)) (snd item) link_from)
      items lf = Ok lf'
    /\ keys lf' = keys g
    /\ (forall k w, get lf' k = Some w ->
          forall s, In s w <->
            E s k \/ exists links, In (s, links) items /\ In k links).
Proof.
  induction items as [|[name links] items IH]; intros lf E Hkeys Hcl Hw; simpl.
  - exists lf. split; [reflexivity|]. split; [assumption|].
    intros k w Hk s. rewrite (Hw k w Hk). split; [tauto|].
    intros [H|(l & [] & _)]. exact H.
  - destruct (add_incoming_loop name links lf E) as (lf1 & Hfor & Hk1 & Hw1).
    + intros l Hl. rewrite Hkeys. apply (Hcl name links); [now left | exact Hl].
    + exact Hw.
    + rewrite Hfor. simpl.
      destruct (IH lf1 (fun s k => E s k \/ (s = name /\ In k links)))
        as (lf' & Hfor' & Hk' & Hw').
      * congruence.
      * intros n ls l Hn Hl. apply (Hcl n ls); [now right | exact Hl].
      * exact Hw1.
      * exists lf'. split; [exact Hfor'|]. split; [exact Hk'|].
        intros k w Hk s. rewrite (Hw' k w Hk). split.
        -- intros [[H|[-> H]]|(ls & H1 & H2)].
           ++ now left.
           ++ right. exists links. split; [now left | exact H].
           ++ right. exists ls. split; [now right | exact H2].
        -- intros [H|(ls & [[= -> ->]|H1] & H2)].
           ++ left. now left.
           ++ left. right. split; [reflexivity | exact H2].
           ++ right. exists ls. split; assumption.
Qed.

Lemma build_link_from_ok g :
  wf_graph g ->
  exists lf,
    build_link_from g = Ok lf
    /\ keys lf = keys g
    /\ (forall k w, get lf k = Some w -> forall s, In s w <-> edge g s k).
Proof.
  intros [Hnd Hlinks Hcl]. unfold build_link_from.
  destruct (build_link_from_loop g g (empty_link_from g) (fun _ _ => False))
    as (lf & Hfor & Hk & Hw).
  - rewrite empty_link_from_map by assumption.
    unfold keys. rewrite map_map. simpl. apply map_id.
  - exact Hcl.
  - intros k w Hg s. rewrite empty_link_from_map in Hg by assumption.
    apply get_In, in_map_iff in Hg. destruct Hg as (x & [= _ <-] & _).
    simpl. tauto.
  - exists lf. split; [exact Hfor|]. split; [exact Hk|].
    intros k w Hg s. rewrite (Hw k w Hg), (edge_In g s k Hnd). tauto.
Qed.

(** *** The state on entry to the loop *)

Lemma has_incoming_edge g k :
  NoDup (keys g) -> (has_incoming g k = true <-> exists s, edge g s k).
Proof.
  intros Hnd. unfold has_incoming. rewrite existsb_exists. split.
  - intros ([s links] & Hin & Hk). simpl in Hk. apply smem_In in Hk.
    exists s. apply edge_In; eauto.
  - intros (s & He). apply edge_In in He; [|assumption].
    destruct He as (links & Hin & Hk). exists (s, links).
    split; [assumption | now apply smem_In].
Qed.

Lemma is_empty_nil {A} (l : list A) : is_empty l = true <-> l = [].
Proof. destruct l; simpl; split; congruence. Qed.

Lemma map_fst_filter {V} (p : string -> bool) (d : dict V) :
  map fst (filter (fun item => p (fst item)) d) = filter p (keys d).
Proof.
  induction d as [|[k v] d IH]; simpl; [reflexivity|].
  destruct (p k); simpl; now rewrite IH.
Qed.

Lemma In_filter_get {V} (p : string * V -> bool) (d : dict V) k v :
  NoDup (keys d) ->
  get (filter p d) k = Some v -> get d k = Some v /\ p (k, v) = true.
Proof.
  intros Hnd Hg. apply get_In, filter_In in Hg. destruct Hg as [Hin Hp].
  split; [now apply In_get | assumption].
Qed.

Lemma keys_partition {V} (p : string * V -> bool) (d : dict V) :
  Permutation (keys (filter (fun item => negb (p item)) d)
               ++ keys (filter p d))
              (keys d).
Proof.
  induction d as [|[k v] d IH]; simpl; [constructor|].
  destruct (p (k, v)); simpl.
  - rewrite <- Permutation_middle. now constructor.
  - now constructor.
Qed.

Lemma filter_removed {V} (d : dict V) n names :
  filter (fun item => negb (smem (fst item) names)) (remove d n)
  = filter (fun item => negb (smem (fst item) (n :: names))) d.
Proof.
  induction d as [|[k v] d IH]; simpl; [reflexivity|].
  rewrite (String.eqb_sym k n).
  destruct (String.eqb n k); simpl; [exact IH|].
  destruct (smem k names); simpl; [exact IH | now rewrite IH].
Qed.

Lemma delitem_loop {V} (names : list string) :
  forall d : dict V,
  NoDup names -> (forall n, In n names -> In n (keys d)) ->
  for_each delitem names d
  = Ok (filter (fun item => negb (smem (fst item) names)) d).
Proof.
  induction names as [|n names IH]; intros d Hnd Hin; simpl.
  - f_equal. clear. induction d as [|x d IHd]; simpl; [reflexivity|].
    now rewrite <- IHd.
  - inversion Hnd as [|? ? Hni Hnd']; subst.
    unfold delitem at 1.
    rewrite (proj2 (mem_In d n)) by (apply Hin; now left). simpl.
    rewrite IH.
    + now rewrite filter_removed.
    + assumption.
    + intros x Hx. apply In_keys_remove. split; [apply Hin; now right|].
      intros ->. contradiction.
Qed.

Lemma no_incoming_mem (lf : dict oset) item :
  NoDup (keys lf) -> In item lf ->
  smem (fst item) (rev (no_incoming lf)) = is_empty (snd item).
Proof.
  intros Hnd Hin. destruct item as [k w]. simpl.
  destruct (is_empty w) eqn:Ew.
  - apply smem_In. rewrite <- in_rev. unfold no_incoming.
    apply in_map_iff. exists (k, w). split; [reflexivity|].
    apply filter_In. split; assumption.
  - apply smem_not_In. rewrite <- in_rev. unfold no_incoming.
    intros H. apply in_map_iff in H. destruct H as ([k' w'] & E & H).
    simpl in E. subst k'. apply filter_In in H. destruct H as [H Hw'].
    simpl in Hw'. apply (In_get _ _ _ Hnd) in H, Hin. congruence.
Qed.

Lemma NoDup_keys_filter {V} (p : string * V -> bool) (d : dict V) :
  NoDup (keys d) -> NoDup (keys (filter p d)).
Proof.
  induction d as [|[k v] d IH]; simpl; [constructor|].
  intros Hnd. inversion Hnd as [|? ? Hni Hnd']; subst.
  destruct (p (k, v)); simpl; [|auto].
  constructor; [|auto]. intros H. apply Hni.
  apply in_map_iff in H. destruct H as (x & E & H).
  apply filter_In in H. apply in_map_iff. exists x. tauto.
Qed.

Lemma initial_state_ok g :
  wf_graph g ->
  exists st0,
    initial_state g = Ok st0
    /\ ord_inv g st0
    /\ ordered_names st0 = []
    /\ ready st0 = rev (filter (fun k => negb (has_incoming g k)) (keys g))
    /\ (forall k, In k (ready st0) -> forall s, ~ edge g s k)
    /\ (forall k w, get (link_from st0) k = Some w -> w <> []).
Proof.
  intros Hwf. destruct (build_link_from_ok g Hwf) as (lf & Hb & Hk & Hw).
  pose proof (wf_keys _ Hwf) as Hnd.
  assert (Hndl : NoDup (keys lf)) by now rewrite Hk.
  unfold initial_state. rewrite Hb. simpl.
  rewrite delitem_loop.
  - simpl.
    assert (Hlf1 : filter (fun item => negb (smem (fst item)
                                           (rev (no_incoming lf)))) lf
                   = filter (fun item => negb (is_empty (snd item))) lf).
    { apply filter_ext_in. intros item Hin.
      now rewrite no_incoming_mem. }
    rewrite Hlf1.
    eexists. split; [reflexivity|]. simpl.
    assert (Hempty : forall k, In k (no_incoming lf) -> get lf k = Some []).
    { intros k Hin. unfold no_incoming in Hin. apply in_map_iff in Hin.
      destruct Hin as ([k' w] & E & Hin). simpl in E. subst k'.
      apply filter_In in Hin. destruct Hin as [Hin Hw0]. simpl in Hw0.
      apply is_empty_nil in Hw0. subst w. now apply In_get. }
    split; [|split; [reflexivity|split; [|split]]].
    + constructor; simpl.
      * rewrite app_nil_r, <- Hk, <- Permutation_rev.
        apply (keys_partition (fun item => is_empty (snd item))).
      * intros k w Hg s. apply In_filter_get in Hg; [|assumption].
        rewrite (Hw k w (proj1 Hg)). tauto.
    + f_equal. unfold no_incoming. rewrite <- Hk.
      rewrite <- map_fst_filter. f_equal. apply filter_ext_in.
      intros [k w] Hin. simpl.
      apply (In_get _ _ _ Hndl) in Hin.
      destruct w as [|s w]; simpl.
      * destruct (has_incoming g k) eqn:Eh; [|reflexivity].
        apply has_incoming_edge in Eh; [|assumption].
        destruct Eh as [s He]. apply (Hw k [] Hin) in He. destruct He.
      * symmetry. apply negb_false_iff. apply has_incoming_edge; [assumption|].
        exists s. apply (Hw k _ Hin). now left.
    + intros k Hin s He. apply in_rev in Hin.
      apply Hempty in Hin. apply (Hw k [] Hin) in He. destruct He.
    + intros k w Hg. apply In_filter_get in Hg; [|assumption].
      destruct Hg as [_ Hne]. simpl in Hne. destruct w; [discriminate|].
      discriminate.
  - apply NoDup_rev. unfold no_incoming. now apply NoDup_keys_filter.
  - intros n Hin. apply in_rev in Hin. unfold no_incoming in Hin.
    apply in_map_iff in Hin. destruct Hin as (x & <- & Hin).
    apply filter_In in Hin. apply in_map. tauto.
Qed.

(** *** One emission *)

Lemma list_pop_snoc {A} (l : list A) (x : A) : list_pop (l ++ [x]) = Ok (l, x).
Proof. unfold list_pop. now rewrite rev_unit, rev_involutive. Qed.

Lemma In_oset_del_filter name (w : oset) s :
  In s (filter (fun x => negb (String.eqb name x)) w) <-> In s w /\ s <> name.
Proof.
  rewrite filter_In, negb_true_iff, String.eqb_neq. intuition congruence.
Qed.

Lemma release_loop g name ord :
  ~ In name ord ->
  forall (links : oset) (lf : dict oset) (rdy : list string),
  NoDup links ->
  (forall l, In l links -> edge g name l) ->
  NoDup (keys lf) ->
  (forall k w, get lf k = Some w ->
     forall s, In s w <->
       edge g s k /\ ~ In s ord /\ (s = name -> In k links)) ->
  exists lf' pushed,
    for_each (release name) links (lf, rdy) = Ok (lf', rdy ++ pushed)
    /\ NoDup (keys lf')
    /\ Permutation (keys lf' ++ pushed) (keys lf)
    /\ (forall k w, get lf' k = Some w ->
          forall s, In s w <-> edge g s k /\ ~ In s ord /\ s <> name)
    /\ (forall k, In k pushed ->
          forall s, edge g s k -> In s ord \/ s = name)
    /\ ((forall k w, get lf k = Some w -> w <> []) ->
        forall k w, get lf' k = Some w -> w <> []).
Proof.
  intros Hname.
  induction links as [|l links IH]; intros lf rdy Hnd Hedge Hndk HJ.
  - exists lf, []. simpl. rewrite !app_nil_r.
    split; [reflexivity|]. split; [assumption|]. split; [reflexivity|].
    split; [|split; [contradiction | auto]].
    intros k w Hg s. rewrite (HJ k w Hg). intuition.
  - inversion Hnd as [|? ? Hl Hnd']; subst.
    assert (Hother : forall (lf1 : dict oset),
               (forall k w, get lf1 k = Some w -> k <> l /\ get lf k = Some w) ->
               forall k w, get lf1 k = Some w ->
                 forall s, In s w <->
                   edge g s k /\ ~ In s ord /\ (s = name -> In k links)).
    { intros lf1 H1 k w Hg s. destruct (H1 k w Hg) as [Hne Hg0].
      rewrite (HJ k w Hg0). simpl. intuition congruence. }
    simpl. destruct (get lf l) as [w|] eqn:Hgl.
    + assert (Hin : In name w).
      { apply (HJ l w Hgl). split; [apply Hedge; now left|].
        split; [assumption | intros _; now left]. }
      unfold oset_del. rewrite (proj2 (smem_In name w) Hin). simpl.
      set (w' := filter (fun x => negb (String.eqb name x)) w).
      destruct (is_empty w') eqn:Ew.
      * unfold delitem.
        rewrite (proj2 (mem_In lf l)) by (apply get_In in Hgl;
          apply (in_map fst) in Hgl; exact Hgl). simpl.
        destruct (IH (remove lf l) (rdy ++ [l]) Hnd')
          as (lf' & pushed & Hfor & Hnd2 & Hperm & Hw2 & Hp & Hne).
        -- intros x Hx. apply Hedge. now right.
        -- now apply NoDup_keys_remove.
        -- apply Hother. intros k w0 Hg.
           destruct (string_dec l k) as [<-|Hlk].
           ++ now rewrite get_remove_eq in Hg.
           ++ rewrite get_remove_neq in Hg by assumption. split; congruence.
        -- exists lf', (l :: pushed).
           split; [rewrite Hfor, <- app_assoc; reflexivity|].
           split; [assumption|]. split; [|split; [assumption|split]].
           ++ rewrite <- Permutation_middle, Hperm.
              apply Permutation_keys_remove; [assumption|].
              apply get_In in Hgl. apply (in_map fst) in Hgl. exact Hgl.
           ++ intros k [<-|Hk]; [|now apply Hp].
              intros s He. destruct (string_dec s name) as [->|Hsn];
                [now right|].
              destruct (in_dec string_dec s ord) as [Hso|Hso]; [now left|].
              exfalso. apply is_empty_nil in Ew.
              assert (Hs : In s w') by
                  (apply In_oset_del_filter; split; [|assumption];
                   apply (HJ l w Hgl); tauto).
              rewrite Ew in Hs. destruct Hs.
           ++ intros Hall. apply Hne. intros k w0 Hg.
              destruct (string_dec l k) as [<-|Hlk].
              ** now rewrite get_remove_eq in Hg.
              ** rewrite get_remove_neq in Hg by assumption.
                 now apply (Hall k).
      * destruct (IH (set lf l w') rdy Hnd')
          as (lf' & pushed & Hfor & Hnd2 & Hperm & Hw2 & Hp & Hne).
        -- intros x Hx. apply Hedge. now right.
        -- now apply NoDup_keys_set.
        -- intros k w0 Hg s. destruct (string_dec l k) as [<-|Hlk].
           ++ rewrite get_set_eq in Hg. injection Hg as <-.
              unfold w'. rewrite In_oset_del_filter, (HJ l w Hgl).
              simpl. split.
              ** intros [(H1 & H2 & H3) H4]. tauto.
              ** intros (H1 & H2 & H3). 
                 assert (s <> name) by (intros ->; auto).
                 tauto.
           ++ rewrite get_set_neq in Hg by assumption.
              rewrite (HJ k w0 Hg). simpl. intuition congruence.
        -- exists lf', pushed. split; [exact Hfor|].
           split; [assumption|]. split; [|split; [assumption|split]].
           ++ rewrite Hperm, keys_set_old; [reflexivity|].
              apply get_In in Hgl. apply (in_map fst) in Hgl. exact Hgl.
           ++ assumption.
           ++ intros Hall. apply Hne. intros k w0 Hg.
              destruct (string_dec l k) as [<-|Hlk].
              ** rewrite get_set_eq in Hg. injection Hg as <-.
                 intros E. rewrite E in Ew. discriminate.
              ** rewrite get_set_neq in Hg by assumption.
                 now apply (Hall k).
    + destruct (IH lf rdy Hnd')
        as (lf' & pushed & Hfor & Hnd2 & Hperm & Hw2 & Hp & Hne).
      * intros x Hx. apply Hedge. now right.
      * assumption.
      * apply Hother. intros k w0 Hg. split; congruence.
      * exists lf', pushed. auto 10.
Qed.

Lemma ord_inv_nodup g st :
  wf_graph g -> ord_inv g st ->
  NoDup (keys (link_from st) ++ ready st ++ ordered_names st).
Proof.
  intros Hwf Hinv. eapply Permutation_NoDup.
  - symmetry. apply (oi_perm _ _ Hinv).
  - apply (wf_keys _ Hwf).
Qed.

Lemma NoDup_app_disjoint {A} (l1 l2 : list A) x :
  NoDup (l1 ++ l2) -> In x l1 -> ~ In x l2.
Proof.
  induction l1 as [|a l1 IH]; simpl; [contradiction|].
  intros Hnd [->|Hin] H2.
  - inversion Hnd as [|? ? Hni _]; subst. apply Hni, in_or_app. now right.
  - inversion Hnd; subst. now apply IH.
Qed.

Lemma emit_ok g st rest name :
  wf_graph g -> ord_inv g st -> ready st = rest ++ [name] ->
  exists st' pushed,
    emit g st = Ok st'
    /\ ord_inv g st'
    /\ ordered_names st' = ordered_names st ++ [name]
    /\ ready st' = rest ++ pushed
    /\ Permutation (keys (link_from st') ++ pushed) (keys (link_from st))
    /\ (forall k, In k pushed ->
          forall s, edge g s k -> In s (ordered_names st'))
    /\ ((forall k w, get (link_from st) k = Some w -> w <> []) ->
        forall k w, get (link_from st') k = Some w -> w <> []).
Proof.
  intros Hwf Hinv Hready.
  pose proof (ord_inv_nodup g st Hwf Hinv) as Hnd.
  destruct st as [lf rdy ord]. simpl in *. subst rdy.
  assert (Hkey : In name (keys g)).
  { apply (Permutation_in _ (oi_perm _ _ Hinv)). simpl.
    apply in_or_app. right. apply in_or_app. left. apply in_elt. }
  destruct (In_keys_get _ _ Hkey) as [links Hlinks].
  assert (Hord : ~ In name ord).
  { apply NoDup_app_remove_l in Hnd.
    apply (NoDup_app_disjoint _ _ name Hnd). apply in_elt. }
  destruct (release_loop g name ord Hord (rev links) lf rest)
    as (lf' & pushed & Hfor & Hnd2 & Hperm & Hw2 & Hp & Hne).
  - apply NoDup_rev. apply (wf_links _ Hwf name). now apply get_In.
  - intros l Hl. apply in_rev in Hl. exists links. split; assumption.
  - now apply NoDup_app_remove_r in Hnd.
  - intros k w Hg s. rewrite (oi_waiting _ _ Hinv k w Hg s). simpl.
    split; [|tauto]. intros [He Hn]. split; [assumption|].
    split; [assumption|]. intros ->. apply in_rev. rewrite rev_involutive.
    destruct He as (links' & Hg' & Hin). congruence.
  - exists (mkState lf' (rest ++ pushed) (ord ++ [name])), pushed.
    unfold emit. simpl. rewrite list_pop_snoc. simpl.
    unfold getitem. rewrite Hlinks. simpl. rewrite Hfor. simpl.
    split; [reflexivity|]. split; [|split; [reflexivity|split; [reflexivity|
      split; [assumption|split; [|assumption]]]]].
    + constructor; simpl.
      * rewrite <- (oi_perm _ _ Hinv). simpl.
        rewrite <- Hperm. rewrite <- !app_assoc.
        apply Permutation_app_head.
        etransitivity; [apply Permutation_app_swap_app|].
        do 2 apply Permutation_app_head.
        apply Permutation_app_comm.
      * intros k w Hg s. rewrite (Hw2 k w Hg s), in_app_iff. simpl.
        intuition congruence.
    + intros k Hk s He. apply in_or_app. simpl.
      destruct (Hp k Hk s He) as [H| ->]; auto.
Qed.

Lemma find_breaker_spec lf :
  match find_breaker lf with
  | Some name => first_breaker lf name
  | None => forall x, In x cycle_breakers -> ~ In x (keys lf)
  end.
Proof.
  unfold find_breaker, first_breaker. generalize cycle_breakers as l.
  induction l as [|b l IH]; simpl.
  - intros x [].
  - destruct (mem lf b) eqn:Em.
    + exists [], l. split; [reflexivity|]. split; [now apply mem_In|].
      intros x [].
    + apply mem_not_In in Em. destruct (List.find (mem lf) l) as [name|].
      * destruct IH as (l1 & l2 & -> & Hin & Hbefore).
        exists (b :: l1), l2. split; [reflexivity|]. split; [assumption|].
        intros x [<-|Hx]; auto.
      * intros x [<-|Hx]; auto.
Qed.

Lemma first_breaker_find lf name :
  first_breaker lf name -> find_breaker lf = Some name.
Proof.
  unfold find_breaker, first_breaker. generalize cycle_breakers as l.
  intros l (l1 & l2 & -> & Hin & Hbefore).
  induction l1 as [|b l1 IH]; simpl.
  - now rewrite (proj2 (mem_In lf name) Hin).
  - rewrite (proj2 (mem_not_In lf b)) by (apply Hbefore; now left).
    apply IH. intros x Hx. apply Hbefore. now right.
Qed.

(** The state after the forced choice of a breaker still satisfies the
    invariant: the sources the breaker was waiting for are dropped. *)
Lemma force_ready_inv g lf ord name :
  wf_graph g -> ord_inv g (mkState lf [] ord) -> In name (keys lf) ->
  ord_inv g (mkState (remove lf name) [name] ord)
  /\ delitem lf name = Ok (remove lf name).
Proof.
  intros Hwf Hinv Hin.
  pose proof (ord_inv_nodup g _ Hwf Hinv) as Hnd. simpl in Hnd.
  split.
  - constructor; simpl.
    + rewrite <- (oi_perm _ _ Hinv). simpl.
      apply Permutation_trans with ((name :: keys (remove lf name)) ++ ord).
      * symmetry. apply Permutation_middle.
      * apply Permutation_app_tail. apply Permutation_keys_remove;
          [now apply NoDup_app_remove_r in Hnd | assumption].
    + intros k w Hg s. destruct (string_dec name k) as [<-|Hne].
      * now rewrite get_remove_eq in Hg.
      * rewrite get_remove_neq in Hg by assumption.
        apply (oi_waiting _ _ Hinv k w Hg s).
  - unfold delitem. now rewrite (proj2 (mem_In lf name) Hin).
Qed.

(** *** The loop *)

Lemma snoc_cases {A} (l : list A) :
  l = [] \/ exists rest x, l = rest ++ [x].
Proof.
  destruct l as [|a l] using rev_ind; [now left | right; eauto].
Qed.

Lemma loop_body_progress g st :
  wf_graph g -> ord_inv g st ->
  match loop_body g st with
  | Ok (Continue st') => ord_inv g st' /\ S (pending st') = pending st
  | Ok Break => ready st = [] /\ find_breaker (link_from st) = None
  | _ => False
  end.
Proof.
  intros Hwf Hinv. unfold loop_body.
  destruct (snoc_cases (ready st)) as [Hempty|Hlast].
  - destruct st as [lf rdy ord]. simpl in *. subst rdy. simpl.
    pose proof (find_breaker_spec lf) as Hb.
    destruct (find_breaker lf) as [name|]; [|split; reflexivity].
    destruct Hb as (_ & _ & _ & Hin & _).
    destruct (force_ready_inv g lf ord name Hwf Hinv Hin) as [Hinv1 Hdel].
    rewrite Hdel. simpl.
    destruct (emit_ok g _ [] name Hwf Hinv1 eq_refl)
      as (st' & pushed & Hemit & Hinv' & _ & Hrdy & Hperm & _).
    rewrite Hemit. simpl. split; [assumption|].
    unfold pending. simpl. rewrite Hrdy. simpl.
    apply Permutation_length in Hperm. rewrite length_app in Hperm.
    pose proof (Permutation_length
                  (Permutation_keys_remove lf name
                     (NoDup_app_remove_r _ _ (ord_inv_nodup g _ Hwf Hinv))
                     Hin)) as Hlen.
    simpl in Hlen, Hperm. lia.
  - destruct Hlast as (rest & name & Hrdy).
    assert (Hne : is_empty (ready st) = false)
      by (rewrite Hrdy; destruct rest; reflexivity).
    rewrite Hne.
    destruct (emit_ok g st rest name Hwf Hinv Hrdy)
      as (st' & pushed & Hemit & Hinv' & _ & Hrdy' & Hperm & _).
    rewrite Hemit. simpl. split; [assumption|].
    unfold pending. rewrite Hrdy, Hrdy', !length_app.
    apply Permutation_length in Hperm. rewrite length_app in Hperm.
    simpl. lia.
Qed.

Lemma order_loop_inv g (Q : state -> Prop) :
  wf_graph g ->
  (forall st st', ord_inv g st -> Q st ->
     loop_body g st = Ok (Continue st') -> Q st') ->
  forall fuel st,
  ord_inv g st -> Q st -> pending st < fuel ->
  exists st',
    order_loop fuel g st = Ok st'
    /\ ord_inv g st' /\ Q st' /\ loop_body g st' = Ok Break.
Proof.
  intros Hwf Hstep. induction fuel as [|fuel IH]; intros st Hinv HQ Hfuel;
    [lia|].
  simpl. pose proof (loop_body_progress g st Hwf Hinv) as Hprog.
  destruct (loop_body g st) as [[st'|]| |] eqn:Hbody; simpl;
    try contradiction.
  - destruct Hprog as [Hinv' Hpend]. apply IH; [assumption| |lia].
    apply (Hstep st st' Hinv HQ Hbody).
  - exists st. auto.
Qed.

(** *** [sorted] *)

Lemma insert_sorted_perm x l : Permutation (insert_sorted x l) (x :: l).
Proof.
  induction l as [|y l IH]; simpl; [reflexivity|].
  destruct (String.leb x y); [reflexivity|].
  rewrite IH. apply perm_swap.
Qed.

Lemma sorted_perm l : Permutation (sorted l) l.
Proof.
  induction l as [|x l IH]; simpl; [constructor|].
  rewrite insert_sorted_perm. now constructor.
Qed.

Lemma insert_sorted_Sorted x l :
  Sorted name_le l -> Sorted name_le (insert_sorted x l).
Proof.
  induction 1 as [|y l Hs IH Hhd]; simpl.
  - repeat constructor.
  - destruct (String.leb x y) eqn:E.
    + constructor; [now constructor|]. constructor. exact E.
    + constructor; [assumption|].
      assert (Hyx : name_le y x).
      { destruct (String.leb_total x y) as [H|H]; [congruence | exact H]. }
      destruct l as [|z l]; simpl in *; [now constructor|].
      destruct (String.leb x z); constructor; [assumption|].
      now inversion Hhd.
Qed.

Lemma sorted_Sorted l : Sorted name_le (sorted l).
Proof.
  induction l as [|x l IH]; simpl; [constructor|].
  now apply insert_sorted_Sorted.
Qed.

Lemma finish_perm g st :
  ord_inv g st -> ready st = [] -> Permutation (finish st) (keys g).
Proof.
  intros Hinv Hrdy. rewrite <- (oi_perm _ _ Hinv), Hrdy. simpl.
  unfold finish. destruct (link_from st) as [|x lf] eqn:E.
  - reflexivity.
  - cbn [is_empty]. rewrite Permutation_app_comm.
    apply Permutation_app_tail, sorted_perm.
Qed.

Lemma initial_pending g st0 :
  ord_inv g st0 -> ordered_names st0 = [] -> pending st0 = List.length g.
Proof.
  intros Hinv Hord. pose proof (Permutation_length (oi_perm _ _ Hinv)) as H.
  rewrite Hord, app_nil_r, length_app in H. unfold pending.
  unfold keys in H at 2. rewrite length_map in H. exact H.
Qed.

(** C1: on every link graph, [order_graph] returns a permutation of the
    keys: each key exactly once. *)
Theorem order_graph_permutation g :
  wf_graph g ->
  exists out, order_graph g = Ok out
              /\ Permutation out (keys g) /\ NoDup out.
Proof.
  intros Hwf.
  destruct (initial_state_ok g Hwf) as (st0 & Hinit & Hinv0 & Hord & _).
  destruct (order_loop_inv g (fun _ => True) Hwf (fun _ _ _ _ _ => I)
              (S (List.length g)) st0 Hinv0 I)
    as (st & Hloop & Hinv & _ & Hbreak).
  { rewrite (initial_pending g st0 Hinv0 Hord). lia. }
  exists (finish st). unfold order_graph. rewrite Hinit. cbn [bind].
  rewrite Hloop. cbn [bind]. split; [reflexivity|].
  pose proof (loop_body_progress g st Hwf Hinv) as Hprog.
  rewrite Hbreak in Hprog. destruct Hprog as [Hrdy _].
  pose proof (finish_perm g st Hinv Hrdy) as Hperm.
  split; [exact Hperm|].
  apply (Permutation_NoDup (Permutation_sym Hperm)), (wf_keys _ Hwf).
Qed.

(** *** Deciding well-formedness and acyclicity of a concrete graph *)

Lemma nodupb_NoDup l : nodupb l = true -> NoDup l.
Proof.
  induction l as [|x l IH]; simpl; [constructor|].
  rewrite andb_true_iff, negb_true_iff, smem_not_In.
  intros [H1 H2]. constructor; auto.
Qed.

Lemma wf_graphb_wf g : wf_graphb g = true -> wf_graph g.
Proof.
  unfold wf_graphb. rewrite andb_true_iff, forallb_forall.
  intros [Hk Hall]. constructor.
  - now apply nodupb_NoDup.
  - intros name links Hin. apply Hall in Hin. simpl in Hin.
    apply andb_true_iff in Hin. apply nodupb_NoDup, Hin.
  - intros name links link Hin Hl. apply Hall in Hin. simpl in Hin.
    apply andb_true_iff in Hin. destruct Hin as [_ Hin].
    rewrite forallb_forall in Hin. apply smem_In, Hin, Hl.
Qed.

Lemma rank_acyclic g (rank : string -> nat) :
  (forall a b, edge g a b -> rank a < rank b) -> acyclic g.
Proof.
  intros Hrank n Hn.
  enough (H : forall a b, clos_trans string (edge g) a b -> rank a < rank b)
    by (specialize (H n n Hn); lia).
  induction 1 as [a b He|a b c _ IH1 _ IH2]; [auto | lia].
Qed.

Lemma forward_edges_acyclic g : forward_edges g = true -> acyclic g.
Proof.
  unfold forward_edges. rewrite forallb_forall. intros Hall.
  apply (rank_acyclic g (fun k => pos_of k (keys g))).
  intros a b (links & Hg & Hin). apply get_In, Hall in Hg. simpl in Hg.
  rewrite forallb_forall in Hg. apply Nat.ltb_lt, Hg, Hin.
Qed.

(** *** Acyclic graphs *)

Lemma minimal_from g :
  acyclic g ->
  forall n (S : list string), List.length S <= n ->
  forall s, In s S ->
  exists m, In m S
            /\ (m = s \/ clos_trans string (edge g) m s)
            /\ forall y, In y S -> ~ edge g y m.
Proof.
  intros Hacyc. induction n as [|n IH]; intros S Hlen s Hs.
  - destruct S; [destruct Hs | simpl in Hlen; lia].
  - destruct (existsb (fun y => edgeb g y s) S) eqn:Ex.
    + apply existsb_exists in Ex. destruct Ex as (y & Hy & He).
      apply edgeb_edge in He.
      assert (Hys : y <> s).
      { intros ->. apply (Hacyc s). now constructor. }
      destruct (IH (List.remove string_dec s S)) with (s := y)
        as (m & Hm & Hpath & Hmin).
      * pose proof (remove_length_lt string_dec S s Hs). lia.
      * apply in_in_remove; assumption.
      * assert (Hms : clos_trans string (edge g) m s).
        { destruct Hpath as [->|Hp]; [now constructor|].
          eapply t_trans; [exact Hp | now constructor]. }
        exists m. split; [now apply in_remove in Hm|]. split; [now right|].
        intros y' Hy' He'. destruct (string_dec y' s) as [->|Hne].
        -- apply (Hacyc m). eapply t_trans; [exact Hms | now constructor].
        -- apply (Hmin y'); [|assumption]. now apply in_in_remove.
    + exists s. split; [assumption|]. split; [now left|].
      intros y Hy He. apply edgeb_edge in He.
      assert (existsb (fun y => edgeb g y s) S = true)
        by (apply existsb_exists; eauto).
      congruence.
Qed.

(** In an acyclic graph the ready stack never empties while names wait:
    no cycle-breaker is ever needed. *)
Lemma acyclic_not_stuck g st :
  wf_graph g -> acyclic g -> ord_inv g st -> ready st = [] ->
  (forall k w, get (link_from st) k = Some w -> w <> []) ->
  link_from st = [].
Proof.
  intros Hwf Hacyc Hinv Hrdy Hne.
  destruct st as [lf rdy ord]. simpl in *. subst rdy.
  destruct lf as [|[k0 w0] lf0]; [reflexivity|]. exfalso.
  set (lf := (k0, w0) :: lf0) in *.
  destruct (minimal_from g Hacyc _ (keys lf) (le_n _) k0)
    as (m & Hm & _ & Hmin); [now left|].
  destruct (In_keys_get _ _ Hm) as [w Hw].
  destruct w as [|s w]; [now apply (Hne m [])|].
  assert (Hs : edge g s m /\ ~ In s ord)
    by (apply (oi_waiting _ _ Hinv m _ Hw); now left).
  destruct Hs as [He Hord]. apply (Hmin s); [|assumption].
  apply edge_source_key in He as Hk.
  apply (Permutation_in _ (Permutation_sym (oi_perm _ _ Hinv))) in Hk.
  cbn [link_from ready ordered_names app] in Hk.
  apply in_app_or in Hk. tauto.
Qed.

Lemma respects_snoc g ord name :
  respects g ord -> (forall s, edge g s name -> In s ord) ->
  respects g (ord ++ [name]).
Proof.
  intros Hres Hsrc l1 k l2 Heq s He.
  destruct (snoc_cases l2) as [->|(l2' & x & ->)].
  - apply app_inj_tail in Heq. destruct Heq as [-> ->]. now apply Hsrc.
  - rewrite app_comm_cons, app_assoc in Heq.
    apply app_inj_tail in Heq. destruct Heq as [-> _].
    now apply (Hres l1 k l2').
Qed.

Lemma acyclic_inv_step g :
  wf_graph g -> acyclic g ->
  forall st st', ord_inv g st -> acyclic_inv g st ->
    loop_body g st = Ok (Continue st') -> acyclic_inv g st'.
Proof.
  intros Hwf Hacyc st st' Hinv [Hrdy Hres Hwait] Hbody.
  destruct (snoc_cases (ready st)) as [Hempty|(rest & name & Hsnoc)].
  - exfalso. unfold loop_body in Hbody. rewrite Hempty in Hbody. simpl in Hbody.
    rewrite (acyclic_not_stuck g st Hwf Hacyc Hinv Hempty Hwait) in Hbody.
    discriminate.
  - unfold loop_body in Hbody.
    assert (Hne : is_empty (ready st) = false)
      by (rewrite Hsnoc; destruct rest; reflexivity).
    rewrite Hne in Hbody.
    destruct (emit_ok g st rest name Hwf Hinv Hsnoc)
      as (st1 & pushed & Hemit & _ & Hord & Hrdy' & _ & Hpushed & Hne').
    rewrite Hemit in Hbody. injection Hbody as <-.
    constructor.
    + intros k Hk s He. rewrite Hrdy' in Hk. apply in_app_or in Hk.
      destruct Hk as [Hk|Hk]; [|now apply (Hpushed k)].
      rewrite Hord. apply in_or_app. left. apply (Hrdy k); [|assumption].
      rewrite Hsnoc. apply in_or_app. now left.
    + rewrite Hord. apply respects_snoc; [assumption|].
      apply Hrdy. rewrite Hsnoc. apply in_elt.
    + now apply Hne'.
Qed.

(** C2: on an acyclic link graph the returned sequence has the source of
    every edge strictly before its target. *)
Theorem order_graph_respects_edges g :
  wf_graph g -> acyclic g ->
  exists out, order_graph g = Ok out
              /\ forall a b, edge g a b -> before a b out.
Proof.
  intros Hwf Hacyc.
  destruct (initial_state_ok g Hwf)
    as (st0 & Hinit & Hinv0 & Hord & _ & Hseed & Hwait).
  destruct (order_loop_inv g (acyclic_inv g) Hwf
              (acyclic_inv_step g Hwf Hacyc)
              (S (List.length g)) st0 Hinv0)
    as (st & Hloop & Hinv & [Hrdy Hres Hne] & Hbreak).
  { constructor; [|rewrite Hord|assumption].
    - intros k Hk s He. now apply Hseed in He.
    - intros l1 k l2 Heq. now destruct l1. }
  { rewrite (initial_pending g st0 Hinv0 Hord). lia. }
  exists (finish st). unfold order_graph. rewrite Hinit. cbn [bind].
  rewrite Hloop. cbn [bind]. split; [reflexivity|].
  pose proof (loop_body_progress g st Hwf Hinv) as Hprog.
  rewrite Hbreak in Hprog. destruct Hprog as [Hempty _].
  pose proof (finish_perm g st Hinv Hempty) as Hperm.
  unfold finish in *.
  rewrite (acyclic_not_stuck g st Hwf Hacyc Hinv Hempty Hne) in *.
  cbn [is_empty] in *.
  intros a b He.
  assert (Hb : In b (ordered_names st)).
  { apply (Permutation_in _ (Permutation_sym Hperm)).
    now apply (edge_target_key g a b). }
  apply in_split in Hb. destruct Hb as (l1 & l3 & Hb).
  pose proof (Hres l1 b l3 Hb a He) as Ha.
  apply in_split in Ha. destruct Ha as (l0 & l2 & ->).
  exists l0, l2, l3. rewrite Hb, <- app_assoc. reflexivity.
Qed.

Lemma order_graph_respects_edges_witness :
  let g := [("a", ["c"; "b"]); ("b", ["d"]); ("c", ["d"]); ("e", ["d"]);
            ("d", [])] in
  exists out, order_graph g = Ok out
              /\ forall a b, edge g a b -> before a b out.
Proof.
  apply order_graph_respects_edges.
  - apply wf_graphb_wf. reflexivity.
  - apply forward_edges_acyclic. reflexivity.
Defined.

Lemma order_graph_permutation_witness :
  let g := [("A", ["B"]); ("B", ["C"; "D"]); ("C", ["A"]); ("D", []);
            ("E", ["E"])] in
  exists out, order_graph g = Ok out
              /\ Permutation out (keys g) /\ NoDup out.
Proof.
  apply order_graph_permutation. apply wf_graphb_wf. reflexivity.
Defined.

(** *** Reachable states *)

Lemma reachable_inv g st : wf_graph g -> reachable g st -> ord_inv g st.
Proof.
  intros Hwf. induction 1 as [st0 Hinit|st st' _ IH Hbody].
  - destruct (initial_state_ok g Hwf) as (st1 & Hinit1 & Hinv & _).
    congruence.
  - pose proof (loop_body_progress g st Hwf IH) as Hprog.
    rewrite Hbody in Hprog. tauto.
Qed.

Lemma reachable_run g st :
  wf_graph g -> reachable g st ->
  exists st0 n,
    initial_state g = Ok st0
    /\ pending st + n = List.length g
    /\ forall fuel, order_loop (n + fuel) g st0 = order_loop fuel g st.
Proof.
  intros Hwf. induction 1 as [st0 Hinit|st st' Hreach IH Hbody].
  - exists st0, 0. split; [assumption|]. split; [|reflexivity].
    destruct (initial_state_ok g Hwf) as (st1 & Hinit1 & Hinv & Hord & _).
    assert (st1 = st0) by congruence. subst st1.
    rewrite (initial_pending g st0 Hinv Hord). lia.
  - destruct IH as (st0 & n & Hinit & Hpend & Hrun).
    exists st0, (S n). split; [assumption|].
    pose proof (loop_body_progress g st Hwf (reachable_inv g st Hwf Hreach))
      as Hprog.
    rewrite Hbody in Hprog. destruct Hprog as [_ Hp].
    split; [lia|]. intros fuel.
    replace (S n + fuel) with (n + S fuel) by lia.
    rewrite Hrun. simpl. rewrite Hbody. reflexivity.
Qed.

Lemma state_after_reachable g n :
  forall st, state_after n g = Some st -> reachable g st.
Proof.
  induction n as [|n IH]; simpl; intros st.
  - destruct (initial_state g) as [st0| |] eqn:E; try discriminate.
    intros [= <-]. now apply reachable_init.
  - destruct (state_after n g) as [st1|]; [|discriminate].
    destruct (loop_body g st1) as [[st'|]| |] eqn:E; try discriminate.
    intros [= <-]. apply (reachable_step g st1); auto.
Qed.

(** A reachable state at which the loop breaks is the one [order_graph]
    finishes from. *)
Lemma reachable_break g st :
  wf_graph g -> reachable g st -> loop_body g st = Ok Break ->
  order_graph g = Ok (finish st).
Proof.
  intros Hwf Hreach Hbreak.
  destruct (reachable_run g st Hwf Hreach) as (st0 & n & Hinit & Hpend & Hrun).
  unfold order_graph. rewrite Hinit. cbn [bind].
  replace (S (List.length g)) with (n + S (pending st)) by lia.
  rewrite Hrun. simpl. rewrite Hbreak. reflexivity.
Qed.

(** C3: when the ready stack is empty and names remain, the first cycle
    breaker still waiting is emitted next and its entry of [link_from] is
    dropped; when no breaker is waiting the loop stops and [order_graph]
    returns the emitted names followed by the waiting ones in lexicographic
    order. *)
Theorem cycle_breaking g st :
  wf_graph g -> reachable g st -> ready st = [] -> link_from st <> [] ->
  (forall name, first_breaker (link_from st) name ->
     exists st',
       loop_body g st = Ok (Continue st')
       /\ emit g (mkState (remove (link_from st) name) [name]
                          (ordered_names st)) = Ok st'
       /\ ordered_names st' = ordered_names st ++ [name]
       /\ ~ In name (keys (link_from st')))
  /\ ((forall x, In x cycle_breakers -> ~ In x (keys (link_from st))) ->
      loop_body g st = Ok Break
      /\ order_graph g
         = Ok (ordered_names st ++ sorted (keys (link_from st)))
      /\ Sorted name_le (sorted (keys (link_from st)))
      /\ Permutation (sorted (keys (link_from st))) (keys (link_from st))).
Proof.
  intros Hwf Hreach Hrdy Hlf.
  pose proof (reachable_inv g st Hwf Hreach) as Hinv.
  split.
  - intros name Hfirst.
    pose proof (first_breaker_find _ _ Hfirst) as Hfind.
    destruct Hfirst as (_ & _ & _ & Hin & _).
    destruct st as [lf rdy ord]. simpl in *. subst rdy.
    destruct (force_ready_inv g lf ord name Hwf Hinv Hin) as [Hinv1 Hdel].
    destruct (emit_ok g _ [] name Hwf Hinv1 eq_refl)
      as (st' & pushed & Hemit & Hinv' & Hord & _).
    exists st'. unfold loop_body. simpl. rewrite Hfind, Hdel. cbn [bind].
    rewrite Hemit. split; [reflexivity|]. split; [reflexivity|].
    split; [exact Hord|].
    pose proof (ord_inv_nodup g st' Hwf Hinv') as Hnd. intros Hk.
    apply (NoDup_app_disjoint _ _ name Hnd Hk).
    apply in_or_app. right. rewrite Hord. apply in_elt.
  - intros Hnone.
    assert (Hfind : find_breaker (link_from st) = None).
    { pose proof (find_breaker_spec (link_from st)) as Hb.
      destruct (find_breaker (link_from st)) as [name|]; [|reflexivity].
      destruct Hb as (l1 & l2 & Hcb & Hin & _). exfalso.
      apply (Hnone name); [|assumption]. rewrite Hcb. apply in_elt. }
    assert (Hbreak : loop_body g st = Ok Break).
    { unfold loop_body. now rewrite Hrdy, Hfind. }
    split; [exact Hbreak|]. split; [|split].
    + rewrite (reachable_break g st Hwf Hreach Hbreak). unfold finish.
      destruct (link_from st); [contradiction | reflexivity].
    + apply sorted_Sorted.
    + apply sorted_perm.
Qed.

Lemma cycle_breaking_witness :
  let g := [("z", ["Go to the arcade."]); ("Go to the arcade.", ["B"]);
            ("B", ["Go to the arcade."]); ("y", ["x"]); ("x", ["y"])] in
  let st := mkState [("y", ["x"]); ("x", ["y"])] []
                    ["z"; "Go to the arcade."; "B"] in
  loop_body g st = Ok Break
  /\ order_graph g = Ok (ordered_names st ++ sorted (keys (link_from st)))
  /\ Sorted name_le (sorted (keys (link_from st)))
  /\ Permutation (sorted (keys (link_from st))) (keys (link_from st)).
Proof.
  intros g st.
  assert (Hwf : wf_graph g) by (apply wf_graphb_wf; reflexivity).
  assert (Hreach : reachable g st)
    by (apply (state_after_reachable g 3); reflexivity).
  apply (cycle_breaking g st Hwf Hreach eq_refl); [discriminate|].
  intros x Hx. simpl in Hx. simpl.
  repeat (destruct Hx as [<-|Hx]; [intuition discriminate|]). destruct Hx.
Defined.

(** *** The ready stack *)







(** ** Strings: [find] and slices *)

Lemma length_append (a b : string) :
  String.length (a ++ b)%string = String.length a + String.length b.
Proof. induction a as [|c a IH]; simpl; [reflexivity | now rewrite IH]. Qed.

Lemma append_nil_r (a : string) : (a ++ EmptyString)%string = a.
Proof. induction a as [|c a IH]; simpl; [reflexivity | now rewrite IH]. Qed.

Lemma append_assoc (a b c : string) :
  ((a ++ b) ++ c)%string = (a ++ (b ++ c))%string.
Proof. induction a as [|x a IH]; simpl; [reflexivity | now rewrite IH]. Qed.

Lemma substring_length (s : string) :
  forall m k,
  String.length (substring m k s) = Nat.min k (String.length s - m).
Proof.
  induction s as [|c s IH]; intros [|m] [|k]; simpl; auto;
    rewrite IH; try reflexivity; now rewrite Nat.sub_0_r.
Qed.

Lemma substring_app_l (a b : string) :
  forall m k, m + k <= String.length a ->
  substring m k (a ++ b) = substring m k a.
Proof.
  induction a as [|c a IH]; intros m k Hle; simpl in *.
  - assert (m = 0) by lia. assert (k = 0) by lia. subst.
    destruct b; reflexivity.
  - destruct m as [|m].
    + destruct k as [|k]; [reflexivity|]. f_equal. apply IH. simpl in Hle. lia.
    + apply IH. lia.
Qed.

Lemma substring_all (s : string) : substring 0 (String.length s) s = s.
Proof. induction s as [|c s IH]; simpl; [reflexivity | now rewrite IH]. Qed.

Lemma substring_app_r (a b : string) :
  forall k, substring (String.length a) k (a ++ b) = substring 0 k b.
Proof. induction a as [|c a IH]; intros k; simpl; [reflexivity | apply IH]. Qed.

Lemma substring_prefix (a b : string) :
  substring 0 (String.length a) (a ++ b) = a.
Proof.
  rewrite substring_app_l by lia. apply substring_all.
Qed.

(** [p] occurs in [s] at position [m]. *)
Lemma occurrence_bound (p s : string) m :
  p <> EmptyString -> substring m (String.length p) s = p ->
  m + String.length p <= String.length s.
Proof.
  intros Hp Hocc. apply (f_equal String.length) in Hocc.
  rewrite substring_length in Hocc.
  assert (0 < String.length p) by (destruct p; [contradiction | simpl; lia]).
  lia.
Qed.

Lemma index_ge (p s : string) :
  forall n m, index n p s = Some m -> n <= m.
Proof.
  induction s as [|b s IH]; intros [|n] m; simpl; try lia; try discriminate.
  destruct (index n p s) as [k|] eqn:E; [|discriminate].
  intros [= <-]. apply IH in E. lia.
Qed.

Lemma index_Some_iff (p s : string) n m :
  p <> EmptyString ->
  (index n p s = Some m <->
   n <= m /\ substring m (String.length p) s = p
   /\ forall k, n <= k -> k < m -> substring k (String.length p) s <> p).
Proof.
  intros Hp. split.
  - intros H. split; [eapply index_ge; eassumption|].
    split; [eapply index_correct1; eassumption|].
    intros k. eapply index_correct2; eassumption.
  - intros (Hle & Hocc & Hmin).
    destruct (index n p s) as [m'|] eqn:E.
    + f_equal. pose proof (index_ge _ _ _ _ E) as Hle'.
      pose proof (index_correct1 _ _ _ _ E) as Hocc'.
      pose proof (index_correct2 _ _ _ _ E) as Hmin'.
      destruct (Nat.lt_trichotomy m' m) as [Hlt|[Heq|Hgt]]; [|assumption|].
      * exfalso. now apply (Hmin m').
      * exfalso. now apply (Hmin' m).
    + exfalso. now apply (index_correct3 n m p s E Hp Hle).
Qed.

Lemma index_bound (p s : string) n m :
  p <> EmptyString -> index n p s = Some m ->
  n <= m /\ m + String.length p <= String.length s.
Proof.
  intros Hp H. split; [eapply index_ge; eassumption|].
  apply occurrence_bound; [assumption|]. eapply index_correct1; eassumption.
Qed.

(** A match found in [a] is the match found in [a ++ b]. *)
Lemma index_app_stable (p a b : string) n m :
  p <> EmptyString -> index n p a = Some m -> index n p (a ++ b) = Some m.
Proof.
  intros Hp H. apply (index_Some_iff p a n m Hp) in H.
  destruct H as (Hle & Hocc & Hmin).
  pose proof (occurrence_bound p a m Hp Hocc) as Hb.
  apply index_Some_iff; [assumption|]. split; [assumption|]. split.
  - now rewrite substring_app_l.
  - intros k Hk1 Hk2. rewrite substring_app_l by lia. now apply Hmin.
Qed.

(** There is a match at or after [n] as soon as [p] occurs there. *)
Lemma index_found (p s : string) n m :
  p <> EmptyString -> n <= m -> substring m (String.length p) s = p ->
  exists m', index n p s = Some m' /\ m' <= m.
Proof.
  intros Hp Hle Hocc. destruct (index n p s) as [m'|] eqn:E.
  - exists m'. split; [reflexivity|].
    destruct (Nat.le_gt_cases m' m) as [H|H]; [assumption|].
    exfalso. apply (index_correct2 _ _ _ _ E m); assumption.
  - exfalso. now apply (index_correct3 n m p s E Hp Hle).
Qed.

(** No match in [a ++ b] from [n] on when there is none in [a] from [n]
    on and none in [a ++ b] from [k] on, [a] reaching far enough behind
    [k]. *)
Lemma index_app_none (p a b : string) n k :
  p <> EmptyString ->
  k + String.length p <= S (String.length a) ->
  index n p a = None -> index k p (a ++ b) = None ->
  index n p (a ++ b) = None.
Proof.
  intros Hp Hlen Ha Hab. destruct (index n p (a ++ b)) as [e|] eqn:E;
    [|reflexivity].
  exfalso. pose proof (index_ge _ _ _ _ E) as Hle.
  pose proof (index_correct1 _ _ _ _ E) as Hocc.
  destruct (Nat.le_gt_cases k e) as [Hke|Hke].
  - now apply (index_correct3 k e p (a ++ b) Hab Hp Hke).
  - rewrite substring_app_l in Hocc by lia.
    now apply (index_correct3 n e p a Ha Hp Hle).
Qed.

(** A pair of characters [b] does not reach into a closing pair of
    characters [a]. *)
Lemma pair_before_pair (a b : ascii) (p : string) :
  a <> b ->
  forall e,
  substring e 2 (p ++ String a (String a EmptyString))
  = String b (String b EmptyString) ->
  e + 2 <= String.length p.
Proof.
  intros Hab. induction p as [|c p IH]; intros e; simpl.
  - destruct e as [|[|[|e]]]; simpl; intros [=]; congruence.
  - destruct e as [|e].
    + destruct p as [|c' p]; simpl; [intros [=]; congruence | lia].
    + intros H. apply IH in H. lia.
Qed.

(** ** The link extractor *)

Lemma split_body_loop_eq fuel body pos :
  split_body_loop (S fuel) body pos =
  if Nat.ltb pos (String.length body) then
    match find "<<" body pos with
    | None => Ok ([slice_from body pos], [])
    | Some start =>
        let text := if Nat.ltb pos start then [slice body pos start] else [] in
        match find ">>" body start with
        | None => Ok (text, [IncompleteMacro (slice_from body start)])
        | Some end_ =>
            r <- split_body_loop fuel body (end_ + 2) ;;
            Ok (text ++ slice body start (end_ + 2) :: fst r, snd r)
        end
    end
  else Ok ([], []).
Proof. reflexivity. Qed.

Lemma find_links_in_text_loop_eq fuel text pos :
  find_links_in_text_loop (S fuel) text pos =
  match find "[[" text pos with
  | None => Ok ([], [])
  | Some start =>
      match find "]]" text start with
      | None => Ok ([], [IncompleteLink (slice_from text start)])
      | Some end_ =>
          let link := slice text (start + 2) end_ in
          let target :=
            match find "|" link 0 with
            | None => link
            | Some sep => slice_from link (sep + 1)
            end in
          r <- find_links_in_text_loop fuel text (end_ + 2) ;;
          Ok (target :: fst r, snd r)
      end
  end.
Proof. reflexivity. Qed.

Lemma two_chars_nonempty (a b : ascii) :
  String a (String b EmptyString) <> EmptyString.
Proof. discriminate. Qed.

(** *** The loops have enough fuel *)

Lemma split_body_loop_has_fuel body :
  forall fuel pos,
  String.length body - pos < fuel ->
  split_body_loop fuel body pos <> OutOfFuel.
Proof.
  induction fuel as [|fuel IH]; intros pos Hfuel; [lia|].
  rewrite split_body_loop_eq.
  destruct (Nat.ltb pos (String.length body)) eqn:Hpos; [|discriminate].
  apply Nat.ltb_lt in Hpos. unfold find.
  destruct (index pos "<<" body) as [start|] eqn:Hs; [|discriminate].
  cbv zeta.
  destruct (index start ">>" body) as [e|] eqn:He; [|discriminate].
  apply index_bound in Hs; [|discriminate].
  apply index_bound in He; [|discriminate]. simpl in Hs, He.
  specialize (IH (e + 2)).
  destruct (split_body_loop fuel body (e + 2)); simpl; try discriminate.
  apply IH. lia.
Qed.

Lemma find_links_in_text_loop_has_fuel text :
  forall fuel pos,
  String.length text - pos < fuel ->
  find_links_in_text_loop fuel text pos <> OutOfFuel.
Proof.
  induction fuel as [|fuel IH]; intros pos Hfuel; [lia|].
  rewrite find_links_in_text_loop_eq. unfold find at 1 2.
  destruct (index pos "[[" text) as [start|] eqn:Hs; [|discriminate].
  destruct (index start "]]" text) as [e|] eqn:He; [|discriminate].
  apply index_bound in Hs; [|discriminate].
  apply index_bound in He; [|discriminate]. simpl in Hs, He.
  cbv zeta. specialize (IH (e + 2)).
  destruct (find_links_in_text_loop fuel text (e + 2)); simpl;
    try discriminate.
  apply IH. lia.
Qed.

(** [split_body] and [find_links_in_text] always return. *)
Lemma split_body_returns body : exists r, split_body body = Ok r.
Proof.
  unfold split_body.
  pose proof (split_body_loop_has_fuel body (S (String.length body)) 0) as H.
  assert (Hr : forall fuel pos e, split_body_loop fuel body pos <> Raise e).
  { induction fuel as [|fuel IH]; intros pos e; [discriminate|].
    rewrite split_body_loop_eq.
    destruct (Nat.ltb pos (String.length body)); [|discriminate].
    destruct (find "<<" body pos); [|discriminate]. cbv zeta.
    destruct (find ">>" body n) as [e'|]; [|discriminate].
    specialize (IH (e' + 2) e).
    destruct (split_body_loop fuel body (e' + 2)); simpl; congruence. }
  destruct (split_body_loop (S (String.length body)) body 0) as [r|e|] eqn:E.
  - eauto.
  - now apply Hr in E.
  - exfalso. apply H; [lia | reflexivity].
Qed.

Lemma find_links_in_text_returns text :
  exists r, find_links_in_text text = Ok r.
Proof.
  unfold find_links_in_text.
  pose proof (find_links_in_text_loop_has_fuel text
                (S (String.length text)) 0) as H.
  assert (Hr : forall fuel pos e,
             find_links_in_text_loop fuel text pos <> Raise e).
  { induction fuel as [|fuel IH]; intros pos e; [discriminate|].
    rewrite find_links_in_text_loop_eq.
    destruct (find "[[" text pos); [|discriminate].
    destruct (find "]]" text n) as [e'|]; [|discriminate]. cbv zeta.
    specialize (IH (e' + 2) e).
    destruct (find_links_in_text_loop fuel text (e' + 2)); simpl;
      congruence. }
  destruct (find_links_in_text_loop (S (String.length text)) text 0)
    as [r|e|] eqn:E.
  - eauto.
  - now apply Hr in E.
  - exfalso. apply H; [lia | reflexivity].
Qed.

(** *** Unterminated spans *)

Lemma opener_occurs (p : string) (a : ascii) :
  substring (String.length p) 2 (p ++ String a (String a EmptyString))
  = String a (String a EmptyString).
Proof. now rewrite substring_app_r. Qed.

Lemma substring_zero (s : string) : forall n, substring n 0 s = EmptyString.
Proof. induction s as [|c s IH]; intros [|n]; simpl; auto. Qed.

Lemma slice_app_l (a b : string) lo hi :
  hi <= String.length a -> slice (a ++ b) lo hi = slice a lo hi.
Proof.
  intros H. unfold slice. destruct (Nat.le_gt_cases lo hi) as [Hle|Hgt].
  - apply substring_app_l. lia.
  - replace (hi - lo) with 0 by lia. now rewrite !substring_zero.
Qed.

Lemma split_body_loop_truncated (p r : string) :
  index (String.length p) ">>" ((p ++ "<<") ++ r) = None ->
  forall fuel1 fuel0 pos,
  pos <= String.length p ->
  String.length (p ++ "<<") - pos < fuel0 ->
  String.length ((p ++ "<<") ++ r) - pos < fuel1 ->
  exists segs rest0 rest1,
    split_body_loop fuel0 (p ++ "<<") pos
    = Ok (segs, [IncompleteMacro rest0])
    /\ split_body_loop fuel1 ((p ++ "<<") ++ r) pos
       = Ok (segs, [IncompleteMacro rest1]).
Proof.
  intros Hnone.
  assert (Hlen0 : String.length (p ++ "<<") = String.length p + 2)
    by (rewrite length_append; reflexivity).
  assert (Hlen1 : String.length ((p ++ "<<") ++ r)
                  = String.length p + 2 + String.length r)
    by (rewrite length_append, Hlen0; reflexivity).
  induction fuel1 as [|fuel1 IH]; intros fuel0 pos Hpos Hf0 Hf1; [lia|].
  destruct fuel0 as [|fuel0]; [lia|].
  rewrite !split_body_loop_eq.
  rewrite (proj2 (Nat.ltb_lt pos (String.length (p ++ "<<")))) by lia.
  rewrite (proj2 (Nat.ltb_lt pos (String.length ((p ++ "<<") ++ r))))
    by lia.
  unfold find.
  destruct (index_found "<<" (p ++ "<<") pos (String.length p))
    as (start & Hs & Hstart); [discriminate | assumption | apply opener_occurs|].
  rewrite Hs, (index_app_stable "<<" _ r _ _ (two_chars_nonempty _ _) Hs).
  pose proof (index_ge _ _ _ _ Hs) as Hps. cbv zeta.
  rewrite (slice_app_l (p ++ "<<") r pos start) by lia.
  destruct (index start ">>" (p ++ "<<")) as [e|] eqn:He.
  - rewrite (index_app_stable ">>" _ r _ _ (two_chars_nonempty _ _) He).
    pose proof (index_ge _ _ _ _ He) as Hse.
    apply index_correct1 in He.
    apply (pair_before_pair "<" ">" p) in He; [|discriminate].
    destruct (IH fuel0 (e + 2)) as (segs & rest0 & rest1 & H0 & H1);
      [lia | lia | lia |].
    rewrite H0, H1. cbn [bind fst snd].
    rewrite (slice_app_l (p ++ "<<") r start (e + 2)) by lia.
    eauto.
  - rewrite (index_app_none ">>" (p ++ "<<") r start (String.length p));
      [eauto | discriminate | simpl; lia | assumption | assumption].
Qed.

Lemma find_links_in_text_loop_truncated (p r : string) :
  index (String.length p) "]]" ((p ++ "[[") ++ r) = None ->
  forall fuel1 fuel0 pos,
  pos <= String.length p ->
  String.length (p ++ "[[") - pos < fuel0 ->
  String.length ((p ++ "[[") ++ r) - pos < fuel1 ->
  exists links rest0 rest1,
    find_links_in_text_loop fuel0 (p ++ "[[") pos
    = Ok (links, [IncompleteLink rest0])
    /\ find_links_in_text_loop fuel1 ((p ++ "[[") ++ r) pos
       = Ok (links, [IncompleteLink rest1]).
Proof.
  intros Hnone.
  assert (Hlen0 : String.length (p ++ "[[") = String.length p + 2)
    by (rewrite length_append; reflexivity).
  assert (Hlen1 : String.length ((p ++ "[[") ++ r)
                  = String.length p + 2 + String.length r)
    by (rewrite length_append, Hlen0; reflexivity).
  induction fuel1 as [|fuel1 IH]; intros fuel0 pos Hpos Hf0 Hf1; [lia|].
  destruct fuel0 as [|fuel0]; [lia|].
  rewrite !find_links_in_text_loop_eq. unfold find at 1 2 4 5.
  destruct (index_found "[[" (p ++ "[[") pos (String.length p))
    as (start & Hs & Hstart); [discriminate | assumption | apply opener_occurs|].
  rewrite Hs, (index_app_stable "[[" _ r _ _ (two_chars_nonempty _ _) Hs).
  pose proof (index_ge _ _ _ _ Hs) as Hps.
  destruct (index start "]]" (p ++ "[[")) as [e|] eqn:He.
  - rewrite (index_app_stable "]]" _ r _ _ (two_chars_nonempty _ _) He).
    pose proof (index_ge _ _ _ _ He) as Hse.
    apply index_correct1 in He.
    apply (pair_before_pair "[" "]" p) in He; [|discriminate].
    destruct (IH fuel0 (e + 2)) as (links & rest0 & rest1 & H0 & H1);
      [lia | lia | lia |].
    cbv zeta. rewrite H0, H1. cbn [bind fst snd].
    rewrite (slice_app_l (p ++ "[[") r (start + 2) e) by lia.
    eauto.
  - rewrite (index_app_none "]]" (p ++ "[[") r start (String.length p));
      [eauto | discriminate | simpl; lia | assumption | assumption].
Qed.

Lemma index_app_shift (p a s : string) :
  forall n,
  index (String.length a + n) p (a ++ s)
  = option_map (Nat.add (String.length a)) (index n p s).
Proof.
  induction a as [|c a IH]; intros n.
  - simpl. destruct (index n p s); reflexivity.
  - cbn [String.length append Nat.add index]. rewrite IH.
    destruct (index n p s); reflexivity.
Qed.

Lemma substring_app_shift (a s : string) :
  forall n m, substring (String.length a + n) m (a ++ s) = substring n m s.
Proof. induction a as [|c a IH]; intros n m; simpl; [reflexivity | apply IH]. Qed.

Lemma slice_app_shift (a s : string) lo hi :
  slice (a ++ s) (String.length a + lo) (String.length a + hi) = slice s lo hi.
Proof.
  unfold slice. rewrite substring_app_shift. f_equal. lia.
Qed.

Lemma slice_from_app_shift (a s : string) lo :
  slice_from (a ++ s) (String.length a + lo) = slice_from s lo.
Proof.
  unfold slice_from. rewrite substring_app_shift, length_append. f_equal. lia.
Qed.

Lemma split_body_loop_shift (a s : string) :
  forall fuel pos,
  split_body_loop fuel (a ++ s) (String.length a + pos)
  = split_body_loop fuel s pos.
Proof.
  induction fuel as [|fuel IH]; intros pos; [reflexivity|].
  rewrite !split_body_loop_eq.
  assert (Hlt : forall x y,
             Nat.ltb (String.length a + x) (String.length a + y)
             = Nat.ltb x y).
  { intros x y. destruct (Nat.ltb_spec x y);
      [apply Nat.ltb_lt | apply Nat.ltb_ge]; lia. }
  rewrite length_append, Hlt.
  destruct (Nat.ltb pos (String.length s)); [|reflexivity].
  unfold find. rewrite index_app_shift.
  destruct (index pos "<<" s) as [start|]; cbn [option_map].
  - cbv zeta. rewrite Hlt, slice_app_shift, index_app_shift.
    destruct (index start ">>" s) as [e|]; cbn [option_map].
    + replace (String.length a + e + 2) with (String.length a + (e + 2))
        by lia.
      now rewrite IH, slice_app_shift.
    + now rewrite slice_from_app_shift.
  - now rewrite slice_from_app_shift.
Qed.

Lemma split_body_loop_fuel body :
  forall fuel1 fuel2 pos,
  String.length body - pos < fuel1 -> String.length body - pos < fuel2 ->
  split_body_loop fuel1 body pos = split_body_loop fuel2 body pos.
Proof.
  induction fuel1 as [|fuel1 IH]; intros fuel2 pos H1 H2; [lia|].
  destruct fuel2 as [|fuel2]; [lia|].
  rewrite !split_body_loop_eq.
  destruct (Nat.ltb pos (String.length body)) eqn:Hlt; [|reflexivity].
  apply Nat.ltb_lt in Hlt. unfold find.
  destruct (index pos "<<" body) as [start|] eqn:Hs; [|reflexivity].
  destruct (index start ">>" body) as [e|] eqn:He; [|reflexivity].
  apply index_bound in Hs; [|discriminate].
  apply index_bound in He; [|discriminate]. simpl in Hs, He.
  cbv zeta. rewrite (IH fuel2 (e + 2)) by lia. reflexivity.
Qed.

(** A text in front of the first macro opener of a body is its first
    segment, and the rest is split as it is on its own. *)
Lemma split_body_text_first (t rest : string) :
  0 < String.length t ->
  find "<<" (t ++ rest) 0 = Some (String.length t) ->
  exists segs reports,
    split_body rest = Ok (segs, reports)
    /\ split_body (t ++ rest) = Ok (t :: segs, reports).
Proof.
  intros Hlen Hfind.
  destruct (split_body_returns rest) as [[segs reports] Hrest].
  exists segs, reports. split; [exact Hrest|].
  assert (Hocc : substring 0 2 rest = "<<").
  { unfold find in Hfind. apply index_correct1 in Hfind.
    rewrite <- (Nat.add_0_r (String.length t)) in Hfind.
    now rewrite substring_app_shift in Hfind. }
  assert (Hrlen : 2 <= String.length rest)
    by (apply (occurrence_bound "<<" rest 0); [discriminate | exact Hocc]).
  assert (Hopen : index 0 "<<" rest = Some 0).
  { destruct (index_found "<<" rest 0 0) as (m & Hm & Hle);
      [discriminate | lia | exact Hocc|].
    now replace m with 0 in Hm by lia. }
  unfold split_body in *. rewrite split_body_loop_eq in Hrest |- *.
  rewrite length_append.
  replace (Nat.ltb 0 (String.length t + String.length rest)) with true
    by (symmetry; apply Nat.ltb_lt; lia).
  replace (Nat.ltb 0 (String.length rest)) with true in Hrest
    by (symmetry; apply Nat.ltb_lt; lia).
  rewrite Hfind. unfold find in Hrest |- *. rewrite Hopen in Hrest.
  cbv zeta in Hrest |- *.
  replace (Nat.ltb 0 (String.length t)) with true
    by (symmetry; apply Nat.ltb_lt; lia).
  change (Nat.ltb 0 0) with false in Hrest. cbv iota in Hrest.
  assert (Htext : slice (t ++ rest) 0 (String.length t) = t).
  { unfold slice. rewrite Nat.sub_0_r. apply substring_prefix. }
  rewrite Htext.
  rewrite <- (Nat.add_0_r (String.length t)) at 1.
  rewrite index_app_shift.
  destruct (index 0 ">>" rest) as [e|] eqn:He; cbn [option_map].
  - apply index_bound in He; [|discriminate]. simpl in He.
    replace (String.length t + e + 2) with (String.length t + (e + 2))
      by lia.
    rewrite split_body_loop_shift.
    rewrite (split_body_loop_fuel rest _ (String.length rest)) by lia.
    destruct (split_body_loop (String.length rest) rest (e + 2))
      as [[segs' reports']| |]; cbn [bind fst snd] in Hrest |- *;
      try discriminate.
    injection Hrest as <- <-. cbn [app].
    rewrite <- (Nat.add_0_r (String.length t)) at 1.
    now rewrite slice_app_shift.
  - injection Hrest as <- <-. cbn [app].
    rewrite <- (Nat.add_0_r (String.length t)).
    now rewrite slice_from_app_shift.
Qed.

Lemma find_links_in_segments_app (a b : list string) :
  find_links_in_segments (a ++ b)
  = (ra <- find_links_in_segments a ;;
     rb <- find_links_in_segments b ;;
     Ok (fst ra ++ fst rb, snd ra ++ snd rb)).
Proof.
  induction a as [|s a IH].
  - cbn [app find_links_in_segments bind fst snd].
    destruct (find_links_in_segments b) as [[l rp]| |]; reflexivity.
  - cbn [app find_links_in_segments]. rewrite IH.
    destruct (if startswith s "<<" then find_links_in_macro s
              else find_links_in_text s) as [[l0 rp0]| |];
      cbn [bind fst snd]; try reflexivity.
    destruct (find_links_in_segments a) as [[l1 rp1]| |];
      cbn [bind fst snd]; try reflexivity.
    destruct (find_links_in_segments b) as [[l2 rp2]| |];
      cbn [bind fst snd]; try reflexivity.
    now rewrite !app_assoc.
Qed.

(** A text with an unterminated link opener yields the links of the text
    cut behind the opener, and one report. *)
Lemma unterminated_link_text (p r : string) :
  index (String.length p) "]]" ((p ++ "[[") ++ r) = None ->
  exists links x x',
    find_links_in_text (p ++ "[[") = Ok (links, [IncompleteLink x'])
    /\ find_links_in_text ((p ++ "[[") ++ r)
       = Ok (links, [IncompleteLink x]).
Proof.
  intros Hnone.
  destruct (find_links_in_text_loop_truncated p r Hnone
              (S (String.length ((p ++ "[[") ++ r)))
              (S (String.length (p ++ "[["))) 0)
    as (links & rest0 & rest1 & H0 & H1); try lia.
  exists links, rest1, rest0. split; assumption.
Qed.

Lemma find_links_in_body_segments text segs reports :
  split_body text = Ok (segs, reports) ->
  yielded (find_links_in_body text)
  = yielded (find_links_in_segments segs).
Proof.
  intros H. unfold find_links_in_body, yielded. rewrite H. simpl.
  destruct (find_links_in_segments segs); reflexivity.
Qed.

(** C7, as stated, fails for link openers: an unterminated link opener
    ends the scan of its own text segment only, and a macro behind it still
    yields its link. *)
Lemma unterminated_link_scan_goes_on :
  let body := [("[[a <<display " ++ quoted "X" ++ ">>")%string] in
  find "]]" (String.concat (String lf EmptyString) body) 0 = None
  /\ find_links body = Ok (["X"], [IncompleteLink "[[a "]).
Proof. split; reflexivity. Qed.

(** C7, amended: an unterminated macro opener is reported and ends the
    scan of the body, so that the segments and the links are those of the
    body cut behind the opener; an unterminated link opener is reported and
    ends the scan of the text segment it is in, so that the links of the
    segment are those of the segment cut behind the opener, while the scan
    of the body goes on: a body that starts with such a text yields the
    links of the cut text followed by all that the rest of the body, from
    its first macro opener on, yields on its own, and wherever the text
    stands among the segments of a body, the segments in front of it and
    behind it are scanned as they are without it. Neither opener raises. *)
Theorem unterminated_spans (p r : string) :
  (find ">>" (p ++ "<<" ++ r) (String.length p) = None ->
   exists segs rest rest',
     split_body (p ++ "<<" ++ r) = Ok (segs, [IncompleteMacro rest])
     /\ split_body (p ++ "<<") = Ok (segs, [IncompleteMacro rest'])
     /\ yielded (find_links_in_body (p ++ "<<" ++ r))
        = yielded (find_links_in_body (p ++ "<<")))
  /\ (find "]]" (p ++ "[[" ++ r) (String.length p) = None ->
      exists links rest rest',
        find_links_in_text (p ++ "[[" ++ r)
        = Ok (links, [IncompleteLink rest])
        /\ find_links_in_text (p ++ "[[")
           = Ok (links, [IncompleteLink rest']))
  /\ (find "]]" (p ++ "[[" ++ r) (String.length p) = None ->
      forall behind,
      find "<<" ((p ++ "[[" ++ r) ++ behind) 0
      = Some (String.length (p ++ "[[" ++ r)) ->
      exists links rest rest',
        find_links_in_text (p ++ "[[") = Ok (links, [IncompleteLink rest'])
        /\ find_links_in_body ((p ++ "[[" ++ r) ++ behind)
           = (r2 <- find_links_in_body behind ;;
              Ok (links ++ fst r2, IncompleteLink rest :: snd r2)))
  /\ (find "]]" (p ++ "[[" ++ r) (String.length p) = None ->
      startswith (p ++ "[[" ++ r) "<<" = false ->
      forall body segs1 segs2 reports,
      split_body body
      = Ok (segs1 ++ (p ++ "[[" ++ r)%string :: segs2, reports) ->
      exists links rest rest',
        find_links_in_text (p ++ "[[") = Ok (links, [IncompleteLink rest'])
        /\ find_links_in_body body
           = (r1 <- find_links_in_segments segs1 ;;
              r2 <- find_links_in_segments segs2 ;;
              Ok (fst r1 ++ links ++ fst r2,
                  (snd r1 ++ IncompleteLink rest :: snd r2) ++ reports))).
Proof.
  split; [|split; [|split]]; intros Hnone; unfold find in Hnone;
    rewrite <- append_assoc in Hnone |- *.
  - destruct (split_body_loop_truncated p r Hnone
                (S (String.length ((p ++ "<<") ++ r)))
                (S (String.length (p ++ "<<"))) 0)
      as (segs & rest0 & rest1 & H0 & H1); try lia.
    exists segs, rest1, rest0. fold (split_body (p ++ "<<")) in H0.
    fold (split_body ((p ++ "<<") ++ r)) in H1.
    split; [exact H1|]. split; [exact H0|].
    now rewrite (find_links_in_body_segments _ _ _ H0),
                (find_links_in_body_segments _ _ _ H1).
  - destruct (unterminated_link_text p r Hnone)
      as (links & x & x' & H0 & H1).
    exists links, x, x'. split; assumption.
  - intros behind Hfind.
    destruct (unterminated_link_text p r Hnone)
      as (links & x & x' & H0 & H1).
    set (t := ((p ++ "[[") ++ r)%string) in *.
    assert (Hlen : 2 <= String.length t).
    { unfold t. rewrite !length_append. simpl. lia. }
    assert (Hstart : startswith t "<<" = false).
    { unfold startswith. destruct (prefix "<<" t) eqn:E; [|reflexivity].
      exfalso. apply prefix_correct in E. simpl String.length in E.
      unfold find in Hfind.
      apply (index_correct2 _ _ _ _ Hfind 0); [lia | lia|].
      rewrite substring_app_l by (simpl; lia). exact E. }
    destruct (split_body_text_first t behind) as (segs & reports & Hr & Hb);
      [lia | exact Hfind|].
    exists links, x, x'. split; [exact H0|].
    unfold find_links_in_body. rewrite Hb, Hr.
    cbn [bind fst snd find_links_in_segments]. rewrite Hstart, H1.
    cbn [bind fst snd].
    destruct (find_links_in_segments segs) as [[l rp]| |]; reflexivity.
  - intros Hstart body segs1 segs2 reports Hsplit.
    destruct (unterminated_link_text p r Hnone)
      as (links & x & x' & H0 & H1).
    exists links, x, x'. split; [exact H0|].
    unfold find_links_in_body. rewrite Hsplit. cbn [bind fst snd].
    rewrite find_links_in_segments_app.
    cbn [find_links_in_segments]. rewrite Hstart, H1.
    destruct (find_links_in_segments segs1) as [[l1 rp1]| |];
      cbn [bind fst snd]; try reflexivity.
    destruct (find_links_in_segments segs2) as [[l2 rp2]| |];
      cbn [bind fst snd]; reflexivity.
Qed.

Lemma unterminated_spans_witness :
  (find ">>" ("[[x]] " ++ "<<" ++ "set $y [[z]]") (String.length "[[x]] ")
   = None
   /\ exists segs rest rest',
       split_body ("[[x]] " ++ "<<" ++ "set $y [[z]]")
       = Ok (segs, [IncompleteMacro rest])
       /\ split_body ("[[x]] " ++ "<<") = Ok (segs, [IncompleteMacro rest'])
       /\ yielded (find_links_in_body ("[[x]] " ++ "<<" ++ "set $y [[z]]"))
          = yielded (find_links_in_body ("[[x]] " ++ "<<")))
  /\ (find "]]" ("[[x]] and " ++ "[[" ++ "y] [z") (String.length "[[x]] and ")
      = None
      /\ exists links rest rest',
          find_links_in_text ("[[x]] and " ++ "[[" ++ "y] [z")
          = Ok (links, [IncompleteLink rest])
          /\ find_links_in_text ("[[x]] and " ++ "[[")
             = Ok (links, [IncompleteLink rest']))
  /\ (let behind := ("<<display " ++ quoted "X" ++ ">> or [[k]]")%string in
      exists links rest rest',
        find_links_in_text ("[[x]] and " ++ "[[")
        = Ok (links, [IncompleteLink rest'])
        /\ find_links_in_body (("[[x]] and " ++ "[[" ++ "y] [z") ++ behind)
           = (r2 <- find_links_in_body behind ;;
              Ok (links ++ fst r2, IncompleteLink rest :: snd r2)))
  /\ (let body := ("<<display " ++ quoted "A" ++ ">>[[x]] and [[y] [z"
                   ++ "<<click " ++ quoted "go" ++ " " ++ quoted "B"
                   ++ ">>[[c]]")%string in
      let segs1 := [("<<display " ++ quoted "A" ++ ">>")%string] in
      let segs2 := [("<<click " ++ quoted "go" ++ " " ++ quoted "B"
                     ++ ">>")%string; "[[c]]"] in
      exists links rest rest',
        find_links_in_text ("[[x]] and " ++ "[[")
        = Ok (links, [IncompleteLink rest'])
        /\ find_links_in_body body
           = (r1 <- find_links_in_segments segs1 ;;
              r2 <- find_links_in_segments segs2 ;;
              Ok (fst r1 ++ links ++ fst r2,
                  (snd r1 ++ IncompleteLink rest :: snd r2) ++ []))).
Proof.
  split; [|split; [|split]].
  - split; [reflexivity|].
    apply (proj1 (unterminated_spans "[[x]] " "set $y [[z]]")). reflexivity.
  - split; [reflexivity|].
    apply (proj1 (proj2 (unterminated_spans "[[x]] and " "y] [z"))).
    reflexivity.
  - intros behind.
    apply (proj1 (proj2 (proj2 (unterminated_spans "[[x]] and " "y] [z"))));
      reflexivity.
  - intros body segs1 segs2.
    apply (proj2 (proj2 (proj2 (unterminated_spans "[[x]] and " "y] [z"))));
      reflexivity.
Defined.

(** *** Tokens of a macro *)

Lemma findall_skip (a b : string) :
  forall k, k = String.length a -> findall_from k (a ++ b) = findall_from 0 b.
Proof.
  induction a as [|c a IH]; intros k ->; simpl; [reflexivity|].
  now apply IH.
Qed.

Lemma span_len_stop (q : ascii -> bool) (c : ascii) (a rest : string) :
  (forall x, q x = negb (Ascii.eqb x c)) ->
  has_char c a = false ->
  span_len q (a ++ String c rest) = String.length a.
Proof.
  intros Hq. induction a as [|x a IH]; simpl.
  - intros _. rewrite Hq, Ascii.eqb_refl. reflexivity.
  - rewrite orb_false_iff, Ascii.eqb_sym. intros [Hx Ha].
    rewrite Hq, Hx. simpl. now rewrite IH.
Qed.

Lemma get_app_r (a b : string) :
  String.get (String.length a) (a ++ b) = String.get 0 b.
Proof. induction a as [|c a IH]; simpl; [reflexivity | exact IH]. Qed.

Lemma findall_click (rest : string) :
  findall ("click " ++ rest) = "click" :: findall rest.
Proof. reflexivity. Qed.

Lemma findall_space (rest : string) :
  findall_from 0 (" " ++ rest) = findall_from 0 rest.
Proof. reflexivity. Qed.

Lemma findall_quoted (X rest : string) :
  has_char dq X = false ->
  findall_from 0 (quoted X ++ rest) = quoted X :: findall_from 0 rest.
Proof.
  intros HX. unfold quoted.
  change (String dq (X ++ String dq EmptyString) ++ rest)%string
    with (String dq ((X ++ String dq EmptyString) ++ rest)).
  cbn [findall_from]. unfold match_arg.
  change (match_word (String dq ((X ++ String dq EmptyString) ++ rest))) with (@None nat).
  cbn [match_quoted]. rewrite Ascii.eqb_refl.
  rewrite append_assoc. cbn [append].
  rewrite (span_len_stop _ dq X rest (fun x => eq_refl) HX).
  rewrite get_app_r. cbn [String.get].
  assert (Hs : (X ++ String dq rest)%string = ((X ++ String dq EmptyString) ++ rest)%string)
    by (rewrite append_assoc; reflexivity).
  assert (Hlen : String.length (X ++ String dq EmptyString) = String.length X + 1)
    by (rewrite length_append; reflexivity).
  rewrite Hs, findall_skip by lia.
  replace (String.length X + 2) with (S (String.length (X ++ String dq EmptyString)))
    by lia.
  cbn [substring]. now rewrite substring_prefix.
Qed.

Lemma has_char_app c (a b : string) :
  has_char c (a ++ b) = has_char c a || has_char c b.
Proof.
  induction a as [|x a IH]; simpl; [reflexivity|].
  now rewrite IH, orb_assoc.
Qed.

Lemma prefix_app (p r : string) : prefix p (p ++ r) = true.
Proof.
  induction p as [|c p IH]; simpl; [now destruct r|].
  destruct (ascii_dec c c); [exact IH | contradiction].
Qed.

Lemma prefix_nil (s : string) : prefix EmptyString s = true.
Proof. now destruct s. Qed.

Lemma prefix_cons (c : ascii) (p s : string) :
  prefix (String c p) (String c s) = prefix p s.
Proof. simpl. destruct (ascii_dec c c); [reflexivity | contradiction]. Qed.

Lemma index_first (c : ascii) (p' Y rest : string) :
  has_char c Y = false ->
  index 0 (String c p') (Y ++ String c p' ++ rest) = Some (String.length Y).
Proof.
  induction Y as [|x Y IH]; intros HY.
  - cbn [append index String.length].
    change (String c (p' ++ rest))%string with (String c p' ++ rest)%string.
    now rewrite prefix_app.
  - simpl in HY. apply orb_false_iff in HY. destruct HY as [Hx HY].
    change ((String x Y ++ String c p' ++ rest)%string)
      with (String x (Y ++ String c p' ++ rest)).
    cbn [index String.length prefix].
    destruct (ascii_dec c x) as [->|Hne];
      [now rewrite Ascii.eqb_refl in Hx|].
    now rewrite (IH HY).
Qed.

Lemma index_at_end (p s : string) :
  p <> EmptyString -> index (String.length s) p s = None.
Proof.
  intros Hp. induction s as [|c s IH]; simpl.
  - destruct p; [contradiction | reflexivity].
  - now rewrite IH.
Qed.

Lemma findall_from_match (c : ascii) (s : string) n :
  match_arg (String c s) = Some n ->
  findall_from 0 (String c s)
  = substring 0 n (String c s) :: findall_from (n - 1) s.
Proof. intros H. cbn [findall_from]. now rewrite H. Qed.

Lemma findall_from_no_match (c : ascii) (s : string) :
  match_arg (String c s) = None ->
  findall_from 0 (String c s) = findall_from 0 s.
Proof. intros H. cbn [findall_from]. now rewrite H. Qed.

Lemma slice_from_2 (a b : ascii) (t : string) :
  slice_from (String a (String b t)) 2 = t.
Proof.
  unfold slice_from. cbn [String.length].
  replace (S (S (String.length t)) - 2) with (String.length t) by lia.
  cbn [substring]. apply substring_all.
Qed.

Lemma match_arg_bracket (Y rest : string) :
  has_char "]" Y = false ->
  match_arg (String "[" (String "[" (Y ++ "]]" ++ rest)))
  = Some (String.length Y + 4).
Proof.
  intros HY. set (t := (Y ++ "]]" ++ rest)%string).
  unfold match_arg.
  assert (Hw : match_word (String "[" (String "[" t)) = None) by reflexivity.
  assert (Hq : match_quoted (String "[" (String "[" t)) = None)
    by reflexivity.
  rewrite Hw, Hq. unfold match_bracket.
  rewrite !prefix_cons, prefix_nil, slice_from_2.
  assert (Hspan : span_len (fun c => negb (Ascii.eqb c "]")) t
                  = String.length Y).
  { unfold t. apply span_len_stop; [reflexivity | assumption]. }
  rewrite Hspan.
  assert (Hclose : prefix "]]" (slice_from t (String.length Y)) = true).
  { unfold slice_from, t. rewrite substring_app_r, length_append.
    replace (String.length Y + String.length ("]]" ++ rest) - String.length Y)
      with (S (S (String.length rest))) by (simpl; lia).
    cbn [append substring]. now rewrite !prefix_cons, prefix_nil. }
  now rewrite Hclose.
Qed.

Lemma findall_bracket (Y rest : string) :
  has_char "]" Y = false ->
  findall_from 0 ("[[" ++ Y ++ "]]" ++ rest)
  = ("[[" ++ Y ++ "]]")%string :: findall_from 0 rest.
Proof.
  intros HY.
  change ("[[" ++ Y ++ "]]" ++ rest)%string
    with (String "[" (String "[" (Y ++ "]]" ++ rest))).
  rewrite (findall_from_match _ _ _ (match_arg_bracket Y rest HY)).
  set (t := (Y ++ "]]" ++ rest)%string).
  assert (Htok : String "[" (String "[" t)
                 = (("[[" ++ Y ++ "]]") ++ rest)%string).
  { unfold t. cbn [append]. now rewrite append_assoc. }
  assert (Hlen : String.length ("[[" ++ Y ++ "]]") = String.length Y + 4).
  { cbn [append String.length]. rewrite length_append. simpl. lia. }
  f_equal.
  - rewrite Htok, <- Hlen. apply substring_prefix.
  - assert (Htail : String "[" t = (("[" ++ Y ++ "]]") ++ rest)%string).
    { unfold t. cbn [append]. now rewrite append_assoc. }
    rewrite Htail. apply findall_skip.
    cbn [append String.length]. rewrite length_append. simpl. lia.
Qed.

Lemma find_links_in_text_pipe (A B : string) :
  has_char "|" A = false -> has_char "]" A = false ->
  has_char "]" B = false ->
  find_links_in_text ("[[" ++ A ++ "|" ++ B ++ "]]") = Ok ([B], []).
Proof.
  intros HpA HbA HbB.
  set (Y := (A ++ "|" ++ B)%string).
  assert (HY : has_char "]" ("[[" ++ Y) = false).
  { unfold Y. cbn [append has_char]. rewrite !has_char_app. simpl.
    now rewrite HbA, HbB. }
  assert (Htext : ("[[" ++ A ++ "|" ++ B ++ "]]")%string
                  = (("[[" ++ Y) ++ "]]" ++ EmptyString)%string).
  { unfold Y. cbn [append]. rewrite !append_assoc. reflexivity. }
  rewrite Htext. set (text := (("[[" ++ Y) ++ "]]" ++ EmptyString)%string).
  assert (Hlen : String.length text = String.length Y + 4).
  { unfold text. rewrite length_append. simpl. lia. }
  unfold find_links_in_text. rewrite find_links_in_text_loop_eq.
  assert (Hopen : find "[[" text 0 = Some 0).
  { unfold find, text. cbn [append index].
    now rewrite !prefix_cons, prefix_nil. }
  rewrite Hopen.
  assert (Hclose : find "]]" text 0 = Some (String.length Y + 2)).
  { unfold find, text. rewrite index_first by assumption. simpl.
    f_equal. lia. }
  rewrite Hclose. cbv zeta.
  assert (Hlink : slice text (0 + 2) (String.length Y + 2) = Y).
  { unfold slice, text.
    replace (String.length Y + 2 - (0 + 2)) with (String.length Y) by lia.
    cbn [append Nat.add substring]. apply substring_prefix. }
  rewrite Hlink.
  assert (Hsep : find "|" Y 0 = Some (String.length A)).
  { unfold find, Y. now apply index_first. }
  rewrite Hsep.
  assert (Htarget : slice_from Y (String.length A + 1) = B).
  { unfold slice_from, Y. rewrite <- append_assoc.
    replace (String.length A + 1) with (String.length (A ++ "|"))
      by (rewrite length_append; reflexivity).
    rewrite substring_app_r, length_append, Nat.add_comm, Nat.add_sub.
    apply substring_all. }
  rewrite Htarget. rewrite Hlen.
  replace (String.length Y + 4) with (S (String.length Y + 3)) by lia.
  rewrite find_links_in_text_loop_eq.
  replace (String.length Y + 2 + 2) with (String.length text) by lia.
  unfold find. rewrite index_at_end by discriminate. reflexivity.
Qed.

(** *** Macros *)

Lemma macro_delimited (inner : string) :
  startswith ("<<" ++ inner ++ ">>") "<<" = true
  /\ endswith ("<<" ++ inner ++ ">>") ">>" = true
  /\ slice_trim ("<<" ++ inner ++ ">>") 2 2 = inner.
Proof.
  assert (Hlen : String.length ("<<" ++ inner ++ ">>")
                 = String.length inner + 4).
  { cbn [append String.length]. rewrite length_append. simpl. lia. }
  split; [|split].
  - unfold startswith. cbn [append]. now rewrite !prefix_cons, prefix_nil.
  - unfold endswith. rewrite Hlen.
    rewrite (proj2 (Nat.leb_le _ _)) by (simpl; lia).
    replace (String.length inner + 4 - String.length ">>")
      with (String.length ("<<" ++ inner)) by (simpl; lia).
    rewrite <- append_assoc, substring_app_r. reflexivity.
  - unfold slice_trim. rewrite Hlen.
    replace (String.length inner + 4 - 2 - 2) with (String.length inner)
      by lia.
    cbn [append substring]. apply substring_prefix.
Qed.

Lemma quoted_length (X : string) :
  String.length (quoted X) = String.length X + 2.
Proof. unfold quoted. simpl. rewrite length_append. simpl. lia. Qed.

Lemma assert_quoted_quoted (X : string) : assert_quoted (quoted X) = Ok tt.
Proof.
  unfold assert_quoted, first_char, last_char. rewrite quoted_length.
  unfold quoted at 1. cbn [String.get bind]. rewrite Ascii.eqb_refl.
  cbn [assert bind].
  replace (String.length X + 2 - 1) with (S (String.length X)) by lia.
  unfold quoted. cbn [String.get]. rewrite get_app_r. cbn [String.get bind].
  now rewrite Ascii.eqb_refl.
Qed.

Lemma slice_trim_quoted (X : string) : slice_trim (quoted X) 1 1 = X.
Proof.
  unfold slice_trim. rewrite quoted_length.
  replace (String.length X + 2 - 1 - 1) with (String.length X) by lia.
  unfold quoted. cbn [substring]. apply substring_prefix.
Qed.

Lemma click_last_argument macro args a0 c X :
  startswith macro "<<" = true -> endswith macro ">>" = true ->
  findall (slice_trim macro 2 2) = "click" :: args ->
  first_arg args = Ok a0 -> first_char a0 = Ok c ->
  Ascii.eqb c "[" = false ->
  args = [quoted X] \/ args = [a0; quoted X] ->
  find_links_in_macro macro = Ok ([X], []).
Proof.
  intros Hs He Htok Ha Hc Hb Hargs. unfold find_links_in_macro.
  rewrite Hs, He, Htok. cbn [assert bind].
  change (String.eqb "click" "display") with false.
  change (String.eqb "click" "click") with true. cbv iota.
  rewrite Ha. cbn [bind]. rewrite Hc. cbn [bind]. rewrite Hb.
  destruct Hargs as [->| ->]; cbn [bind];
    now rewrite assert_quoted_quoted, slice_trim_quoted.
Qed.

Lemma click_bracketed_argument macro args a0 :
  startswith macro "<<" = true -> endswith macro ">>" = true ->
  findall (slice_trim macro 2 2) = "click" :: args ->
  first_arg args = Ok a0 -> first_char a0 = Ok "["%char ->
  find_links_in_macro macro = find_links_in_text a0.
Proof.
  intros Hs He Htok Ha Hc. unfold find_links_in_macro.
  rewrite Hs, He, Htok. cbn [assert bind].
  change (String.eqb "click" "display") with false.
  change (String.eqb "click" "click") with true. cbv iota.
  rewrite Ha. cbn [bind]. rewrite Hc. cbn [bind]. reflexivity.
Qed.

(** C8: a click macro with one quoted argument yields the argument
    without its quotes; with a bracketed link as first argument it yields
    what bracketed-link parsing yields on that argument, the target behind
    the pipe; with two arguments of which the first is not a bracketed link
    it yields the second argument without its quotes. *)
Theorem click_extraction :
  (forall X, has_char dq X = false ->
     find_links_in_macro ("<<click " ++ quoted X ++ ">>") = Ok ([X], []))
  /\ (forall A B,
        has_char "|" A = false -> has_char "]" A = false ->
        has_char "]" B = false ->
        find_links_in_macro ("<<click [[" ++ A ++ "|" ++ B ++ "]]>>")
        = Ok ([B], []))
  /\ (forall L X, has_char dq L = false -> has_char dq X = false ->
        find_links_in_macro
          ("<<click " ++ quoted L ++ " " ++ quoted X ++ ">>")
        = Ok ([X], []))
  /\ (forall macro args a0 c X,
        startswith macro "<<" = true -> endswith macro ">>" = true ->
        findall (slice_trim macro 2 2) = "click" :: args ->
        first_arg args = Ok a0 -> first_char a0 = Ok c ->
        (Ascii.eqb c "[" = true ->
         find_links_in_macro macro = find_links_in_text a0)
        /\ (Ascii.eqb c "[" = false ->
            args = [quoted X] \/ args = [a0; quoted X] ->
            find_links_in_macro macro = Ok ([X], []))).
Proof.
  split; [|split; [|split]].
  - intros X HX.
    change ("<<click " ++ quoted X ++ ">>")%string
      with ("<<" ++ ("click " ++ quoted X) ++ ">>")%string.
    destruct (macro_delimited ("click " ++ quoted X)) as (Hs & He & Hin).
    apply (click_last_argument _ [quoted X] (quoted X) dq X Hs He);
      [|reflexivity|reflexivity|reflexivity|now left].
    rewrite Hin, findall_click. f_equal. unfold findall.
    rewrite <- (append_nil_r (quoted X)) at 1.
    now rewrite findall_quoted.
  - intros A B HpA HbA HbB.
    set (Y := (A ++ "|" ++ B)%string).
    assert (HY : has_char "]" Y = false).
    { unfold Y. rewrite !has_char_app. simpl. now rewrite HbA, HbB. }
    assert (Harg : ("[[" ++ Y ++ "]]")%string
                   = ("[[" ++ A ++ "|" ++ B ++ "]]")%string)
      by (unfold Y; cbn [append]; rewrite ?append_assoc; cbn [append];
          rewrite ?append_assoc; cbn [append]; rewrite ?append_nil_r;
          reflexivity).
    assert (Hmacro : ("<<click [[" ++ A ++ "|" ++ B ++ "]]>>")%string
                     = ("<<" ++ ("click " ++ "[[" ++ Y ++ "]]" ++ EmptyString) ++ ">>")%string)
      by (unfold Y; cbn [append]; rewrite ?append_assoc; cbn [append];
          rewrite ?append_assoc; cbn [append]; rewrite ?append_nil_r;
          reflexivity).
    rewrite Hmacro.
    destruct (macro_delimited ("click " ++ "[[" ++ Y ++ "]]" ++ EmptyString))
      as (Hs & He & Hin).
    rewrite (click_bracketed_argument _ ["[[" ++ Y ++ "]]"]%string
               ("[[" ++ Y ++ "]]") Hs He).
    + rewrite Harg. now apply find_links_in_text_pipe.
    + rewrite Hin, findall_click. f_equal. unfold findall.
      now rewrite findall_bracket.
    + reflexivity.
    + reflexivity.
  - intros L X HL HX.
    assert (Hmacro : ("<<click " ++ quoted L ++ " " ++ quoted X ++ ">>")%string
                     = ("<<" ++ ("click " ++ quoted L ++ " " ++ quoted X ++ EmptyString)
                             ++ ">>")%string)
      by (unfold quoted; cbn [append]; rewrite ?append_assoc; cbn [append];
          rewrite ?append_assoc; cbn [append]; rewrite ?append_nil_r;
          reflexivity).
    rewrite Hmacro.
    destruct (macro_delimited ("click " ++ quoted L ++ " " ++ quoted X ++ EmptyString))
      as (Hs & He & Hin).
    apply (click_last_argument _ [quoted L; quoted X] (quoted L) dq X Hs He);
      [|reflexivity|reflexivity|reflexivity|now right].
    rewrite Hin, findall_click. f_equal. unfold findall.
    rewrite findall_quoted, findall_space by assumption.
    now rewrite findall_quoted.
  - intros macro args a0 c X Hs He Htok Ha Hc. split.
    + intros Hb. apply Ascii.eqb_eq in Hb. subst c.
      now apply (click_bracketed_argument macro args a0).
    + intros Hb Hargs.
      now apply (click_last_argument macro args a0 c X).
Qed.

Lemma click_extraction_witness :
  find_links_in_macro ("<<click " ++ quoted "X" ++ ">>") = Ok (["X"], [])
  /\ find_links_in_macro ("<<click [[" ++ "A" ++ "|" ++ "B" ++ "]]>>")
     = Ok (["B"], [])
  /\ find_links_in_macro
       ("<<click " ++ quoted "Label" ++ " " ++ quoted "X" ++ ">>")
     = Ok (["X"], []).
Proof.
  destruct click_extraction as (H1 & H2 & H3 & _).
  split; [|split].
  - apply (H1 "X"). reflexivity.
  - apply (H2 "A" "B"); reflexivity.
  - apply (H3 "Label" "X"); reflexivity.
Defined.

(** *** Malformed macros *)

Lemma match_arg_positive s n : match_arg s = Some n -> 0 < n.
Proof.
  unfold match_arg, match_word, match_quoted, match_bracket.
  destruct (span_len is_word_char s); [|intros [= <-]; lia].
  destruct s as [|c s].
  - simpl. discriminate.
  - destruct (Ascii.eqb c dq).
    + destruct (String.get _ s); [intros [= <-]; lia|].
      destruct (prefix "[[" (String c s)); [|discriminate].
      destruct (prefix "]]" _); [intros [= <-]; lia | discriminate].
    + destruct (prefix "[[" (String c s)); [|discriminate].
      destruct (prefix "]]" _); [intros [= <-]; lia | discriminate].
Qed.

Lemma findall_nonempty s :
  forall k, Forall (fun t => t <> EmptyString) (findall_from k s).
Proof.
  induction s as [|c s IH]; intros k; simpl; [constructor|].
  destruct k as [|k]; [|apply IH].
  destruct (match_arg (String c s)) as [n|] eqn:E; [|apply IH].
  constructor; [|apply IH].
  apply match_arg_positive in E. destruct n; [lia | discriminate].
Qed.

Lemma first_char_nonempty s :
  s <> EmptyString -> exists c, first_char s = Ok c.
Proof. destruct s as [|c s]; [contradiction | intros _; now exists c]. Qed.

Lemma assert_quoted_raises s :
  (raises (assert_quoted s) <-> is_quoted s = false)
  /\ assert_quoted s <> OutOfFuel.
Proof.
  unfold assert_quoted, is_quoted, raises.
  destruct (first_char s) as [c| |] eqn:Hf; cbn [bind].
  - destruct (Ascii.eqb c dq); cbn [assert bind andb].
    + destruct (last_char s) as [c'| |] eqn:Hl; cbn [bind].
      * destruct (Ascii.eqb c' dq); cbn [assert]; split;
          try discriminate; split; intros H; try discriminate; eauto.
        destruct H; discriminate.
      * split; [|discriminate]. split; eauto.
      * unfold last_char in Hl. destruct (String.get _ s); discriminate.
    + split; [|discriminate]. split; [|eauto].
      intros _. now destruct (last_char s).
  - split; [|discriminate]. split; eauto.
  - unfold first_char in Hf. destruct (String.get 0 s); discriminate.
Qed.

Lemma raises_then_ok {A B} (r : result A) (y : B) :
  (raises (bind r (fun _ => Ok y)) <-> raises r)
  /\ (r <> OutOfFuel -> bind r (fun _ => Ok y) <> OutOfFuel).
Proof.
  unfold raises. destruct r as [a|e|]; cbn [bind].
  - split; [|discriminate]. split; intros [e H]; discriminate.
  - split; [|discriminate]. split; intros _; eexists; reflexivity.
  - split; [|auto]. split; intros [e H]; discriminate.
Qed.

(** C9, as stated, fails: a macro without any token, and a click macro
    without argument, abort the run although none of the named shapes is
    present. *)
Lemma unnamed_macro_failures :
  find_links_in_macro "<<>>" = Raise ValueError
  /\ named_violation (macro_tokens "<<>>") = false
  /\ find_links_in_macro "<<click>>" = Raise IndexError
  /\ named_violation (macro_tokens "<<click>>") = false.
Proof. repeat split. Qed.

(** C9, amended: link extraction from a macro raises exactly when the
    macro is not delimited, has no token, is a display or click macro
    without argument, or has one of the named malformed shapes; it always
    returns otherwise. *)
Theorem macro_failures macro :
  (raises (find_links_in_macro macro) <->
   startswith macro "<<" = false \/ endswith macro ">>" = false
   \/ shape_violation (macro_tokens macro) = true)
  /\ find_links_in_macro macro <> OutOfFuel.
Proof.
  unfold find_links_in_macro, macro_tokens.
  destruct (startswith macro "<<"); cbn [assert bind];
    [|split; [split; [auto | intros _; eexists; reflexivity] | discriminate]].
  destruct (endswith macro ">>"); cbn [assert bind];
    [|split; [split; [auto | intros _; eexists; reflexivity] | discriminate]].
  pose proof (findall_nonempty (slice_trim macro 2 2) 0) as Hne.
  fold (findall (slice_trim macro 2 2)) in Hne.
  assert (Hrhs : forall b : bool,
             (true = false \/ true = false \/ b = true) <-> b = true)
    by (intros b; intuition discriminate).
  rewrite Hrhs.
  destruct (findall (slice_trim macro 2 2)) as [|name args].
  { split; [|discriminate]. split; [reflexivity | intros _; eexists; reflexivity]. }
  inversion Hne as [|? ? _ Hargs]; subst.
  destruct args as [|a rest].
  - cbn [first_arg shape_violation].
    destruct (String.eqb name "display"); cbn [bind orb].
    + split; [|discriminate]. split; [reflexivity | intros _; eexists; reflexivity].
    + destruct (String.eqb name "click"); cbn [bind].
      * split; [|discriminate].
        split; [reflexivity | intros _; eexists; reflexivity].
      * split; [|discriminate]. split; [intros [e H]|]; discriminate.
  - inversion Hargs as [|? ? Ha _]; subst.
    destruct (first_char_nonempty a Ha) as [c Hc].
    cbn [first_arg shape_violation named_violation bind].
    destruct (assert_quoted_raises a) as [Hqa Hfa].
    destruct (String.eqb name "display").
    + destruct (raises_then_ok (assert_quoted a) ([slice_trim a 1 1], @nil report))
        as [Hr Hf].
      split; [|now apply Hf]. rewrite Hr, Hqa.
      destruct (is_quoted a); simpl; intuition discriminate.
    + destruct (String.eqb name "click");
        [|split; [split; [intros [e H]|]|]; discriminate].
      rewrite Hc. cbn [bind]. unfold is_bracketed. rewrite Hc.
      destruct (Ascii.eqb c "[").
      * destruct (find_links_in_text_returns a) as [r Hr]. rewrite Hr.
        split; [|discriminate]. split; [intros [e H]|]; discriminate.
      * cbn [negb andb].
        destruct rest as [|b [|b' rest]].
        -- cbn [bind last List.length Nat.ltb Nat.leb orb].
           destruct (raises_then_ok (assert_quoted a)
                       ([slice_trim a 1 1], @nil report)) as [Hr Hf].
           split; [|now apply Hf]. rewrite Hr, Hqa.
           destruct (is_quoted a); simpl; intuition discriminate.
        -- cbn [bind last List.length Nat.ltb Nat.leb orb].
           destruct (assert_quoted_raises b) as [Hqb Hfb].
           destruct (raises_then_ok (assert_quoted b)
                       ([slice_trim b 1 1], @nil report)) as [Hr Hf].
           split; [|now apply Hf]. rewrite Hr, Hqb.
           destruct (is_quoted b); simpl; intuition discriminate.
        -- cbn [bind]. split; [|discriminate].
           split; [reflexivity | intros _; eexists; reflexivity].
Qed.

(** * Further properties *)

(** ** Segments of a body *)

Lemma substring_split (s : string) :
  forall n a b,
  substring n (a + b) s = (substring n a s ++ substring (n + a) b s)%string.
Proof.
  induction s as [|c s IH]; intros n a b.
  - destruct n, a, b; reflexivity.
  - destruct n as [|n].
    + destruct a as [|a].
      * reflexivity.
      * cbn [Nat.add substring append]. f_equal. apply (IH 0 a b).
    + cbn [Nat.add substring]. apply IH.
Qed.

Lemma substring_substring (s : string) :
  forall n m j k, j + k <= m ->
  substring j k (substring n m s) = substring (n + j) k s.
Proof.
  induction s as [|c s IH]; intros n m j k Hle.
  - destruct n, m; simpl; destruct j, k; reflexivity.
  - destruct n as [|n].
    + destruct m as [|m].
      * assert (j = 0) by lia. assert (k = 0) by lia. subst. reflexivity.
      * cbn [substring Nat.add]. destruct j as [|j].
        -- destruct k as [|k]; [reflexivity|]. cbn [substring]. f_equal.
           apply (IH 0 m 0 k). lia.
        -- cbn [substring]. apply (IH 0 m j k). lia.
    + cbn [substring Nat.add]. apply IH. exact Hle.
Qed.

Lemma concat_empty_cons (x : string) (xs : list string) :
  String.concat EmptyString (x :: xs)
  = (x ++ String.concat EmptyString xs)%string.
Proof. destruct xs; simpl; [now rewrite append_nil_r | reflexivity]. Qed.

Lemma concat_empty_app (xs ys : list string) :
  String.concat EmptyString (xs ++ ys)
  = (String.concat EmptyString xs ++ String.concat EmptyString ys)%string.
Proof.
  induction xs as [|x xs IH]; [reflexivity|].
  change ((x :: xs) ++ ys) with (x :: (xs ++ ys)).
  now rewrite !concat_empty_cons, IH, append_assoc.
Qed.

Lemma slice_join (s : string) a b c :
  a <= b -> b <= c -> (slice s a b ++ slice s b c)%string = slice s a c.
Proof.
  intros H1 H2. unfold slice.
  replace (c - a) with ((b - a) + (c - b)) by lia.
  rewrite substring_split. do 2 f_equal. lia.
Qed.

Lemma slice_slice_from (s : string) a b :
  a <= b -> b <= String.length s ->
  (slice s a b ++ slice_from s b)%string = slice_from s a.
Proof.
  intros H1 H2. unfold slice, slice_from.
  replace (String.length s - a) with ((b - a) + (String.length s - b)) by lia.
  rewrite substring_split. do 2 f_equal. lia.
Qed.

Lemma split_body_loop_pieces body :
  forall fuel pos segs reports,
  pos <= String.length body ->
  split_body_loop fuel body pos = Ok (segs, reports) ->
  (String.concat EmptyString segs
   ++ String.concat EmptyString (map report_text reports))%string
  = slice_from body pos.
Proof.
  induction fuel as [|fuel IH]; intros pos segs reports Hpos; [discriminate|].
  rewrite split_body_loop_eq.
  destruct (Nat.ltb pos (String.length body)) eqn:Hlt.
  - apply Nat.ltb_lt in Hlt. unfold find.
    destruct (index pos "<<" body) as [start|] eqn:Hs.
    + apply index_bound in Hs; [|discriminate]. simpl in Hs. cbv zeta.
      assert (Htext : String.concat EmptyString
                        (if Nat.ltb pos start then [slice body pos start]
                         else [])
                      = slice body pos start).
      { destruct (Nat.ltb pos start) eqn:E; [reflexivity|].
        apply Nat.ltb_ge in E. unfold slice.
        replace (start - pos) with 0 by lia. now rewrite substring_zero. }
      destruct (index start ">>" body) as [e|] eqn:He.
      * apply index_bound in He; [|discriminate]. simpl in He.
        destruct (split_body_loop fuel body (e + 2)) as [[segs' reports']| |]
          eqn:Hrec; cbn [bind fst snd]; try discriminate.
        intros [= <- <-]. apply IH in Hrec; [|lia].
        rewrite concat_empty_app, Htext, concat_empty_cons.
        rewrite !append_assoc, Hrec.
        rewrite (slice_slice_from body start (e + 2)) by lia.
        apply slice_slice_from; lia.
      * intros [= <- <-]. rewrite Htext. cbn [map report_text String.concat].
        apply slice_slice_from; lia.
    + intros [= <- <-]. cbn [map String.concat]. apply append_nil_r.
  - intros [= <- <-]. apply Nat.ltb_ge in Hlt. unfold slice_from.
    replace (String.length body - pos) with 0 by lia.
    now rewrite substring_zero.
Qed.

(** X1: the segments [split_body] yields, followed by the text of the
    unterminated macro it reports, if any, are the body cut into pieces:
    nothing is dropped, repeated or reordered. *)
Theorem split_body_pieces body segs reports :
  split_body body = Ok (segs, reports) ->
  (String.concat EmptyString segs
   ++ String.concat EmptyString (map report_text reports))%string
  = body.
Proof.
  intros H. apply split_body_loop_pieces in H; [|lia].
  rewrite H. unfold slice_from. rewrite Nat.sub_0_r. apply substring_all.
Qed.

Lemma split_body_pieces_witness :
  split_body "a [[b]] <<c>>d<<e f"
  = Ok (["a [[b]] "; "<<c>>"; "d"], [IncompleteMacro "<<e f"])
  /\ (String.concat EmptyString ["a [[b]] "; "<<c>>"; "d"]
      ++ String.concat EmptyString
           (map report_text [IncompleteMacro "<<e f"]))%string
     = "a [[b]] <<c>>d<<e f".
Proof.
  split; [reflexivity|].
  apply (split_body_pieces "a [[b]] <<c>>d<<e f"). reflexivity.
Defined.

Lemma length_positive_nonempty (s : string) :
  0 < String.length s -> s <> EmptyString.
Proof. destruct s; simpl; [lia | discriminate]. Qed.

Lemma no_occurrence_in_substring (p body : string) pos m :
  p <> EmptyString ->
  (forall k, pos <= k -> k + String.length p <= pos + m ->
     substring k (String.length p) body <> p) ->
  index 0 p (substring pos m body) = None.
Proof.
  intros Hp Hnone.
  destruct (index 0 p (substring pos m body)) as [j|] eqn:E; [|reflexivity].
  exfalso. apply index_correct1 in E as Hocc.
  pose proof (occurrence_bound p _ j Hp Hocc) as Hb.
  rewrite substring_length in Hb.
  rewrite substring_substring in Hocc by lia.
  apply (Hnone (pos + j)); [lia | lia | exact Hocc].
Qed.

Lemma split_body_loop_segments body :
  forall fuel pos segs reports,
  split_body_loop fuel body pos = Ok (segs, reports) ->
  Forall segment_ok segs.
Proof.
  induction fuel as [|fuel IH]; intros pos segs reports; [discriminate|].
  rewrite split_body_loop_eq.
  destruct (Nat.ltb pos (String.length body)) eqn:Hlt;
    [|intros [= <- <-]; constructor].
  apply Nat.ltb_lt in Hlt. unfold find at 1 2.
  destruct (index pos "<<" body) as [start|] eqn:Hs.
  - pose proof (index_bound "<<" body pos start (two_chars_nonempty _ _) Hs)
      as Hbs. simpl in Hbs. cbv zeta.
    assert (Htext : Forall segment_ok
                      (if Nat.ltb pos start then [slice body pos start]
                       else [])).
    { destruct (Nat.ltb pos start) eqn:E; [|constructor].
      apply Nat.ltb_lt in E. constructor; [|constructor]. split.
      - apply length_positive_nonempty. unfold slice.
        rewrite substring_length. lia.
      - right. unfold find, slice.
        apply no_occurrence_in_substring; [discriminate|].
        intros k Hk1 Hk2. simpl in Hk2.
        apply (index_correct2 _ _ _ _ Hs); lia. }
    destruct (index start ">>" body) as [e|] eqn:He.
    + pose proof (index_bound ">>" body start e (two_chars_nonempty _ _) He)
        as Hbe. simpl in Hbe.
      destruct (split_body_loop fuel body (e + 2)) as [[segs' reports']| |]
        eqn:Hrec; cbn [bind fst snd]; try discriminate.
      intros [= <- <-]. apply Forall_app. split; [exact Htext|].
      constructor; [|eapply IH; exact Hrec].
      assert (Hlen : String.length (slice body start (e + 2))
                     = e + 2 - start)
        by (unfold slice; rewrite substring_length; lia).
      split; [apply length_positive_nonempty; lia|]. left. split.
      * unfold startswith. apply prefix_correct. unfold slice.
        rewrite substring_substring by (simpl; lia).
        rewrite Nat.add_0_r. apply (index_correct1 _ _ _ _ Hs).
      * unfold endswith. rewrite Hlen.
        rewrite (proj2 (Nat.leb_le _ _)) by (simpl; lia).
        unfold slice. rewrite substring_substring by (simpl; lia).
        replace (start + (e + 2 - start - String.length ">>")) with e
          by (simpl; lia).
        rewrite (index_correct1 _ _ _ _ He). apply String.eqb_refl.
    + intros [= <- <-]. exact Htext.
  - intros [= <- <-]. constructor; [|constructor]. split.
    + apply length_positive_nonempty. unfold slice_from.
      rewrite substring_length. lia.
    + right. unfold find, slice_from.
      apply no_occurrence_in_substring; [discriminate|].
      intros k Hk1 Hk2.
      apply (index_correct3 _ _ _ _ Hs); [discriminate | lia].
Qed.

(** X2: every segment [split_body] yields is non-empty and is either a
    macro span, which starts with the opener and ends with the closer, or
    text in which no macro opener occurs; so the two delimiter assertions
    of [find_links_in_macro] cannot fail inside [find_links]. *)
Theorem split_body_segments body segs reports :
  split_body body = Ok (segs, reports) -> Forall segment_ok segs.
Proof.
  intros H. unfold split_body in H.
  exact (split_body_loop_segments body _ 0 segs reports H).
Qed.

Lemma split_body_segments_witness :
  split_body "a [[b]] <<c>>d<<e f"
  = Ok (["a [[b]] "; "<<c>>"; "d"], [IncompleteMacro "<<e f"])
  /\ Forall segment_ok ["a [[b]] "; "<<c>>"; "d"].
Proof.
  split; [reflexivity|].
  apply (split_body_segments "a [[b]] <<c>>d<<e f" _
           [IncompleteMacro "<<e f"]).
  reflexivity.
Defined.

(** ** Links in text *)

Lemma find_links_in_text_loop_shift (a s : string) :
  forall fuel pos,
  find_links_in_text_loop fuel (a ++ s) (String.length a + pos)
  = find_links_in_text_loop fuel s pos.
Proof.
  induction fuel as [|fuel IH]; intros pos; [reflexivity|].
  rewrite !find_links_in_text_loop_eq. unfold find at 1 2 4 5.
  rewrite index_app_shift.
  destruct (index pos "[[" s) as [start|]; [|reflexivity].
  cbn [option_map]. rewrite index_app_shift.
  destruct (index start "]]" s) as [e|]; cbn [option_map].
  - cbv zeta.
    replace (String.length a + start + 2) with (String.length a + (start + 2))
      by lia.
    rewrite slice_app_shift.
    replace (String.length a + e + 2) with (String.length a + (e + 2)) by lia.
    now rewrite IH.
  - now rewrite slice_from_app_shift.
Qed.

Lemma find_links_in_text_loop_fuel text :
  forall fuel1 fuel2 pos,
  String.length text - pos < fuel1 -> String.length text - pos < fuel2 ->
  find_links_in_text_loop fuel1 text pos
  = find_links_in_text_loop fuel2 text pos.
Proof.
  induction fuel1 as [|fuel1 IH]; intros fuel2 pos H1 H2; [lia|].
  destruct fuel2 as [|fuel2]; [lia|].
  rewrite !find_links_in_text_loop_eq. unfold find at 1 2 4 5.
  destruct (index pos "[[" text) as [start|] eqn:Hs; [|reflexivity].
  destruct (index start "]]" text) as [e|] eqn:He; [|reflexivity].
  apply index_bound in Hs; [|discriminate].
  apply index_bound in He; [|discriminate]. simpl in Hs, He.
  cbv zeta. rewrite (IH fuel2 (e + 2)) by lia. reflexivity.
Qed.

(** X3: a complete link span at the first link opener of a text yields its
    target, the part of its content behind the first pipe or all of it,
    followed by the links of the text behind the span, with the same
    reports. *)
Theorem find_links_in_text_first_span (pre Y post : string) :
  find "[[" (pre ++ "[[") 0 = Some (String.length pre) ->
  find "]]" (Y ++ "]]") 0 = Some (String.length Y) ->
  exists links reports,
    find_links_in_text post = Ok (links, reports)
    /\ find_links_in_text (pre ++ "[[" ++ Y ++ "]]" ++ post)
       = Ok (link_target Y :: links, reports).
Proof.
  unfold find at 1 2. intros Hopen Hclose.
  destruct (find_links_in_text_returns post) as [[links reports] Hpost].
  exists links, reports. split; [exact Hpost|].
  set (text := (pre ++ "[[" ++ Y ++ "]]" ++ post)%string).
  assert (Htext1 : text = ((pre ++ "[[") ++ (Y ++ "]]" ++ post))%string)
    by (unfold text; now rewrite append_assoc).
  assert (Htext2 : text = ((pre ++ "[[" ++ Y ++ "]]") ++ post)%string)
    by (unfold text; now rewrite !append_assoc).
  assert (Hlen2 : String.length (pre ++ "[[" ++ Y ++ "]]")
                  = String.length pre + String.length Y + 4).
  { rewrite !length_append. simpl. lia. }
  assert (Hlen : String.length text
                 = String.length pre + String.length Y + 4
                   + String.length post).
  { rewrite Htext2, length_append, Hlen2. reflexivity. }
  unfold find_links_in_text at 1. rewrite find_links_in_text_loop_eq.
  assert (Hs : find "[[" text 0 = Some (String.length pre)).
  { unfold find. rewrite Htext1. now apply index_app_stable. }
  rewrite Hs.
  assert (He : find "]]" text (String.length pre)
               = Some (String.length pre + (String.length Y + 2))).
  { unfold find, text.
    rewrite <- (Nat.add_0_r (String.length pre)) at 1.
    rewrite index_app_shift.
    change ("[[" ++ Y ++ "]]" ++ post)%string
      with (String "[" (String "[" (Y ++ "]]" ++ post))).
    cbn [index prefix].
    destruct (ascii_dec "]" "[") as [E|_]; [discriminate|].
    rewrite <- append_assoc.
    rewrite (index_app_stable "]]" _ post _ _ (two_chars_nonempty _ _) Hclose).
    cbn [option_map]. f_equal. lia. }
  rewrite He. cbv zeta.
  assert (Hlink : slice text (String.length pre + 2)
                    (String.length pre + (String.length Y + 2)) = Y).
  { rewrite Htext1.
    replace (String.length pre + 2) with (String.length (pre ++ "[[") + 0)
      by (rewrite length_append; simpl; lia).
    replace (String.length pre + (String.length Y + 2))
      with (String.length (pre ++ "[[") + String.length Y)
      by (rewrite length_append; simpl; lia).
    rewrite slice_app_shift. unfold slice. rewrite Nat.sub_0_r.
    apply substring_prefix. }
  rewrite Hlink. fold (link_target Y).
  replace (String.length pre + (String.length Y + 2) + 2)
    with (String.length (pre ++ "[[" ++ Y ++ "]]") + 0) by lia.
  rewrite Htext2 at 2. rewrite find_links_in_text_loop_shift.
  rewrite (find_links_in_text_loop_fuel post _ (S (String.length post)))
    by lia.
  unfold find_links_in_text in Hpost. rewrite Hpost. reflexivity.
Qed.

Lemma find_links_in_text_first_span_witness :
  exists links reports,
    find_links_in_text " or [[c]] and [[d" = Ok (links, reports)
    /\ find_links_in_text ("go [a] " ++ "[[" ++ "A|b|x" ++ "]]"
                           ++ " or [[c]] and [[d")
       = Ok (link_target "A|b|x" :: links, reports).
Proof.
  apply (find_links_in_text_first_span "go [a] " "A|b|x" " or [[c]] and [[d");
    reflexivity.
Defined.

Lemma index_none_not_prefix (p s : string) :
  index 0 p s = None -> prefix p s = false.
Proof.
  destruct s as [|c s]; cbn [index].
  - destruct p; [discriminate | reflexivity].
  - destruct (prefix p (String c s)); [discriminate | reflexivity].
Qed.

(** X4: a body in which neither a macro opener nor a link opener occurs
    yields no link and no report. *)
Theorem find_links_without_spans text :
  find "<<" text 0 = None -> find "[[" text 0 = None ->
  find_links_in_body text = Ok ([], []).
Proof.
  intros Hm Hl. unfold find_links_in_body, split_body.
  rewrite split_body_loop_eq.
  destruct (Nat.ltb 0 (String.length text)) eqn:E; [|reflexivity].
  rewrite Hm. cbn [bind fst snd find_links_in_segments].
  assert (Hall : slice_from text 0 = text).
  { unfold slice_from. rewrite Nat.sub_0_r. apply substring_all. }
  rewrite Hall. unfold startswith.
  rewrite (index_none_not_prefix _ _ Hm).
  unfold find_links_in_text. rewrite find_links_in_text_loop_eq, Hl.
  reflexivity.
Qed.

Lemma find_links_without_spans_witness :
  find_links_in_body "You take the [bus] < home > ] to [ school." = Ok ([], []).
Proof. apply find_links_without_spans; reflexivity. Defined.

(** ** Display macros *)

Lemma findall_display (rest : string) :
  findall ("display " ++ rest) = "display" :: findall rest.
Proof. reflexivity. Qed.

Lemma span_len_all (p : ascii -> bool) (s : string) :
  all_chars p s = true -> span_len p s = String.length s.
Proof.
  induction s as [|c s IH]; simpl; [reflexivity|].
  intros H. apply andb_true_iff in H. destruct H as [Hc Hs].
  now rewrite Hc, IH.
Qed.

Lemma findall_word (W : string) :
  W <> EmptyString -> all_chars is_word_char W = true ->
  findall W = [W].
Proof.
  intros Hne Hall. destruct W as [|c W]; [contradiction|].
  unfold findall.
  assert (Hm : match_arg (String c W) = Some (String.length (String c W))).
  { unfold match_arg, match_word. rewrite (span_len_all _ _ Hall).
    reflexivity. }
  rewrite (findall_from_match _ _ _ Hm). rewrite substring_all. f_equal.
  rewrite <- (append_nil_r W) at 2. apply findall_skip.
  simpl. lia.
Qed.

(** X5: a display macro with a quoted argument yields the argument
    without its quotes; with a bare word as argument it fails its
    assertion. *)
Theorem display_extraction :
  (forall X, has_char dq X = false ->
     find_links_in_macro ("<<display " ++ quoted X ++ ">>") = Ok ([X], []))
  /\ (forall W, W <> EmptyString -> all_chars is_word_char W = true ->
        find_links_in_macro ("<<display " ++ W ++ ">>")
        = Raise AssertionError).
Proof.
  split.
  - intros X HX.
    change ("<<display " ++ quoted X ++ ">>")%string
      with ("<<" ++ ("display " ++ quoted X) ++ ">>")%string.
    destruct (macro_delimited ("display " ++ quoted X)) as (Hs & He & Hin).
    unfold find_links_in_macro. rewrite Hs, He, Hin. cbn [assert bind].
    rewrite findall_display. unfold findall.
    rewrite <- (append_nil_r (quoted X)) at 1.
    rewrite findall_quoted by assumption.
    cbn [findall_from first_arg bind].
    change (String.eqb "display" "display") with true. cbv iota.
    now rewrite assert_quoted_quoted, slice_trim_quoted.
  - intros W Hne Hall.
    assert (Hmacro : ("<<display " ++ W ++ ">>")%string
                     = ("<<" ++ ("display " ++ W) ++ ">>")%string)
      by (cbn [append]; rewrite ?append_assoc; reflexivity).
    rewrite Hmacro.
    destruct (macro_delimited ("display " ++ W)) as (Hs & He & Hin).
    unfold find_links_in_macro. rewrite Hs, He, Hin. cbn [assert bind].
    rewrite findall_display, (findall_word W Hne Hall).
    change (String.eqb "display" "display") with true. cbv iota.
    cbn [first_arg bind]. unfold assert_quoted.
    destruct W as [|c W]; [contradiction|].
    cbn [first_char String.get bind].
    simpl in Hall. apply andb_true_iff in Hall. destruct Hall as [Hc _].
    unfold is_word_char in Hc. apply negb_true_iff in Hc.
    apply orb_false_iff in Hc. destruct Hc as [Hc _].
    apply orb_false_iff in Hc. destruct Hc as [Hc _].
    rewrite Hc. reflexivity.
Qed.

Lemma display_extraction_witness :
  find_links_in_macro ("<<display " ++ quoted "Go Home" ++ ">>")
  = Ok (["Go Home"], [])
  /\ find_links_in_macro ("<<display " ++ "Home" ++ ">>")
     = Raise AssertionError.
Proof.
  destruct display_extraction as [H1 H2]. split.
  - apply (H1 "Go Home"). reflexivity.
  - apply (H2 "Home"); [discriminate | reflexivity].
Defined.

(** ** The subgraph selector on well-formed graphs *)

Lemma for_each_app {A S} (body : S -> A -> result S) (xs ys : list A) :
  forall acc,
  for_each body (xs ++ ys) acc
  = (acc' <- for_each body xs acc ;; for_each body ys acc').
Proof.
  induction xs as [|x xs IH]; intros acc; simpl; [reflexivity|].
  destruct (body acc x); simpl; [apply IH | reflexivity | reflexivity].
Qed.

Lemma initial_remaining_ok g limits starts :
  (forall s, In s starts -> In s (keys g)) ->
  forall acc, exists remaining,
    for_each
      (fun acc name =>
         targets <- getitem g name ;;
         Ok (set acc name (filter_links limits targets)))
      starts acc = Ok remaining.
Proof.
  induction starts as [|s starts IH]; intros Hin acc; simpl; [eauto|].
  destruct (In_keys_get _ _ (Hin s (or_introl eq_refl))) as [targets Hg].
  unfold getitem at 1. rewrite Hg. simpl. apply IH.
  intros x Hx. apply Hin. now right.
Qed.

Lemma explore_ok g limits reached links :
  (forall l, In l links -> In l (keys g)) ->
  forall remaining, exists remaining',
    for_each (discover g limits reached) links remaining = Ok remaining'.
Proof.
  induction links as [|l links IH]; intros Hin remaining; simpl; [eauto|].
  unfold discover at 1.
  destruct (mem reached l); simpl.
  - apply IH. intros x Hx. apply Hin. now right.
  - destruct (In_keys_get _ _ (Hin l (or_introl eq_refl))) as [targets Hg].
    unfold getitem. rewrite Hg. simpl. apply IH.
    intros x Hx. apply Hin. now right.
Qed.

Lemma subgraph_loop_ok g starts limits :
  wf_graph g ->
  forall fuel remaining reached,
  sub_inv g starts limits remaining reached ->
  List.length g <= fuel + List.length (keys reached) ->
  exists r, subgraph_loop fuel g limits remaining reached = Ok r.
Proof.
  intros Hwf fuel remaining reached Hinv Hfuel.
  pose proof (subgraph_loop_has_fuel g starts limits fuel remaining reached
                Hinv Hfuel) as Hnofuel.
  clear Hfuel.
  enough (Hnr : forall e,
             subgraph_loop fuel g limits remaining reached <> Raise e).
  { destruct (subgraph_loop fuel g limits remaining reached) as [r|e|];
      [eauto | now destruct (Hnr e) | contradiction]. }
  clear Hnofuel. revert remaining reached Hinv.
  induction fuel as [|fuel IH]; intros remaining reached Hinv e.
  - destruct remaining; discriminate.
  - destruct remaining as [|[name links] rest]; [discriminate|].
    cbn [subgraph_loop]. cbv zeta.
    destruct (explore_ok g limits (set reached name links) links)
      with (remaining := remove ((name, links) :: rest) name)
      as [remaining2 Hfor].
    + intros l Hl.
      destruct (si_faithful_rem _ _ _ _ _ Hinv name links (or_introl eq_refl))
        as (targets & Hg & ->).
      apply In_filter_links in Hl. apply get_In in Hg.
      apply (wf_closed _ Hwf name targets); tauto.
    + rewrite Hfor. cbn [bind].
      apply IH. apply (sub_inv_step _ _ _ _ _ _ _ _ Hinv Hfor).
Qed.

Lemma NoDup_filter_links_acc limits links :
  forall acc, NoDup acc ->
  NoDup (fold_left
           (fun acc link =>
              if smem link limits then acc else oset_add acc link)
           links acc).
Proof.
  induction links as [|l links IH]; intros acc Hnd; simpl; [assumption|].
  apply IH. destruct (smem l limits); [assumption|].
  unfold oset_add. destruct (smem l acc) eqn:E; [assumption|].
  apply smem_not_In in E. apply NoDup_app; [assumption | repeat constructor; simpl; tauto|].
  intros x Hx [<-|[]]. contradiction.
Qed.

Lemma NoDup_filter_links limits links : NoDup (filter_links limits links).
Proof. apply NoDup_filter_links_acc. constructor. Qed.

(** On a well-formed graph with starts that are keys, [subgraph] returns a
    well-formed graph on the reachable names. *)
Lemma subgraph_ok g starts limits :
  wf_graph g -> (forall s, In s starts -> In s (keys g)) ->
  exists r,
    subgraph g starts limits = Ok r
    /\ wf_graph r
    /\ forall k, In k (keys r) <-> reach g starts limits k.
Proof.
  intros Hwf Hstarts. unfold subgraph.
  destruct (initial_remaining_ok g limits starts Hstarts [])
    as [remaining Hinit].
  fold (initial_remaining g limits starts) in Hinit.
  destruct (initial_remaining_inv _ _ _ _ Hinit) as [Hinv _].
  destruct (subgraph_loop_ok g starts limits Hwf (List.length g) remaining []
              Hinv) as [r Hloop]; [simpl; lia|].
  exists r.
  assert (Hsub : subgraph g starts limits = Ok r)
    by (unfold subgraph; rewrite Hinit; exact Hloop).
  split; [exact Hsub|].
  destruct (subgraph_spec _ _ _ _ Hsub) as (Hf & Hcl & Hre & Hnd).
  split; [|exact Hre].
  constructor; [exact Hnd| |exact Hcl].
  intros name links Hin. destruct (Hf _ _ Hin) as (targets & _ & ->).
  apply NoDup_filter_links.
Qed.

(** X6: the first start that is not a key of the graph makes [subgraph]
    raise [KeyError] for it, whatever else is asked for. *)
Theorem subgraph_unknown_start g known s rest limits :
  (forall k, In k known -> In k (keys g)) -> ~ In s (keys g) ->
  subgraph g (known ++ s :: rest) limits = Raise (KeyError s).
Proof.
  intros Hknown Hs. unfold subgraph, initial_remaining.
  rewrite for_each_app.
  destruct (initial_remaining_ok g limits known Hknown []) as [acc Hacc].
  rewrite Hacc. cbn [bind for_each]. unfold getitem.
  now rewrite (proj2 (get_None g s) Hs).
Qed.

Lemma subgraph_unknown_start_witness :
  subgraph [("S", ["M"]); ("M", [])] (["S"] ++ "Q" :: ["M"]) ["M"]
  = Raise (KeyError "Q").
Proof.
  apply subgraph_unknown_start.
  - intros k [<-|[]]. simpl. tauto.
  - simpl. intuition discriminate.
Defined.

(** ** The orderer: dangling edges *)

Lemma In_keys_empty_link_from_acc (l : list string) :
  forall (acc : dict oset) k,
  In k (keys (fold_left (fun acc name => set acc name []) l acc))
  <-> In k (keys acc) \/ In k l.
Proof.
  induction l as [|x l IH]; intros acc k; simpl; [tauto|].
  rewrite IH, In_keys_set. intuition.
Qed.

Lemma add_incoming_cases name (links : oset) :
  forall lf : dict oset,
  (exists lf',
     for_each (add_incoming name) links lf = Ok lf'
     /\ (forall k, In k (keys lf') <-> In k (keys lf))
     /\ forall l, In l links -> In l (keys lf))
  \/ (exists l,
        In l links /\ ~ In l (keys lf)
        /\ for_each (add_incoming name) links lf = Raise (KeyError l)).
Proof.
  induction links as [|l links IH]; intros lf.
  - left. exists lf. simpl. intuition.
  - cbn [for_each]. unfold add_incoming at 1 3, getitem.
    destruct (get lf l) as [w|] eqn:Hg; cbn [bind].
    + assert (Hl : In l (keys lf)).
      { apply get_In in Hg. apply (in_map fst) in Hg. exact Hg. }
      assert (Hkeys : forall k, In k (keys (set lf l (oset_add w name)))
                                <-> In k (keys lf)).
      { intros k. rewrite In_keys_set. intuition congruence. }
      destruct (IH (set lf l (oset_add w name)))
        as [(lf' & Hfor & Hk & Hall)|(x & Hx & Hnx & Hfor)].
      * left. exists lf'. split; [exact Hfor|]. split.
        -- intros k. now rewrite Hk, Hkeys.
        -- intros x [<-|Hx]; [assumption|]. apply Hkeys. now apply Hall.
      * right. exists x. split; [now right|]. split; [|exact Hfor].
        intros H. apply Hnx. now apply Hkeys.
    + right. exists l. split; [now left|]. split; [|reflexivity].
      now apply get_None.
Qed.

Lemma build_link_from_cases (g : graph) (items : graph) :
  forall lf : dict oset,
  (exists lf',
     for_each
       (fun link_from item =>
          for_each (add_incoming (fst item)) (snd item) link_from)
       items lf = Ok lf'
     /\ forall name links l, In (name, links) items -> In l links ->
          In l (keys lf))
  \/ (exists l,
        ~ In l (keys lf)
        /\ for_each
             (fun link_from item =>
                for_each (add_incoming (fst item)) (snd item) link_from)
             items lf = Raise (KeyError l)).
Proof.
  induction items as [|[name links] items IH]; intros lf.
  - left. exists lf. split; [reflexivity|]. intros ? ? ? [].
  - cbn [for_each fst snd].
    destruct (add_incoming_cases name links lf)
      as [(lf1 & Hfor & Hk & Hall)|(x & Hx & Hnx & Hfor)].
    + rewrite Hfor. cbn [bind].
      destruct (IH lf1) as [(lf' & Hfor' & Hall')|(x & Hnx & Hfor')].
      * left. exists lf'. split; [exact Hfor'|].
        intros n ls l [[= -> ->]|Hin] Hl; [now apply Hall|].
        apply Hk. eapply Hall'; eassumption.
      * right. exists x. split; [|exact Hfor'].
        intros H. apply Hnx. now apply Hk.
    + right. exists x. rewrite Hfor. split; [assumption | reflexivity].
Qed.

(** X7: when some edge of the graph points to a name that is not a key,
    [order_graph] raises [KeyError] for a name that is not a key: it
    returns a sequence only for graphs without dangling edge. *)
Theorem order_graph_dangling g name links link :
  In (name, links) g -> In link links -> ~ In link (keys g) ->
  exists l, ~ In l (keys g) /\ order_graph g = Raise (KeyError l).
Proof.
  intros Hin Hl Hdangling.
  assert (Hkeys : forall k, In k (keys (empty_link_from g)) <-> In k (keys g)).
  { intros k. unfold empty_link_from.
    rewrite In_keys_empty_link_from_acc. simpl. tauto. }
  destruct (build_link_from_cases g g (empty_link_from g))
    as [(lf & Hfor & Hall)|(x & Hnx & Hfor)].
  - exfalso. apply Hdangling. apply Hkeys. eapply Hall; eassumption.
  - exists x. split; [now rewrite <- Hkeys|].
    unfold order_graph, initial_state, build_link_from. now rewrite Hfor.
Qed.

Lemma order_graph_dangling_witness :
  exists l,
    ~ In l (keys [("a", ["b"; "q"]); ("b", [])])
    /\ order_graph [("a", ["b"; "q"]); ("b", [])] = Raise (KeyError l).
Proof.
  apply (order_graph_dangling [("a", ["b"; "q"]); ("b", [])]
           "a" ["b"; "q"] "q"); simpl; intuition discriminate.
Defined.

(** ** Ordering a subgraph *)

Lemma order_graph_ok g :
  wf_graph g ->
  exists st,
    order_graph g = Ok (finish st)
    /\ reachable g st /\ ord_inv g st /\ loop_body g st = Ok Break
    /\ Permutation (finish st) (keys g).
Proof.
  intros Hwf.
  destruct (initial_state_ok g Hwf) as (st0 & Hinit & Hinv0 & Hord & _).
  destruct (order_loop_inv g (reachable g) Hwf
              (fun st st' _ Hr Hb => reachable_step g st st' Hr Hb)
              (S (List.length g)) st0 Hinv0 (reachable_init g st0 Hinit))
    as (st & Hloop & Hinv & Hreach & Hbreak).
  { rewrite (initial_pending g st0 Hinv0 Hord). lia. }
  exists st. unfold order_graph. rewrite Hinit. cbn [bind].
  rewrite Hloop. cbn [bind].
  split; [reflexivity|]. split; [assumption|]. split; [assumption|].
  split; [assumption|].
  pose proof (loop_body_progress g st Hwf Hinv) as Hprog.
  rewrite Hbreak in Hprog. destruct Hprog as [Hrdy _].
  now apply finish_perm.
Qed.

Lemma order_subgraph_ok g starts limits :
  wf_graph g -> (forall s, In s starts -> In s (keys g)) ->
  exists r out,
    subgraph g starts limits = Ok r
    /\ wf_graph r
    /\ order_graph r = Ok out
    /\ NoDup out
    /\ forall k, In k out <-> reach g starts limits k.
Proof.
  intros Hwf Hstarts.
  destruct (subgraph_ok g starts limits Hwf Hstarts)
    as (r & Hsub & Hwfr & Hreach).
  destruct (order_graph_ok r Hwfr) as (st & Hord & _ & _ & _ & Hperm).
  exists r, (finish st). split; [exact Hsub|]. split; [exact Hwfr|].
  split; [exact Hord|]. split.
  - apply (Permutation_NoDup (Permutation_sym Hperm)), (wf_keys _ Hwfr).
  - intros k. rewrite <- Hreach. split; apply Permutation_in;
      [exact Hperm | exact (Permutation_sym Hperm)].
Qed.

(** X8: on a well-formed graph with starts that are keys, [subgraph]
    returns a well-formed graph, and ordering it returns every name
    reachable from the starts along edges that do not enter a limit exactly
    once, and nothing else. *)
Theorem order_subgraph g starts limits :
  wf_graph g -> (forall s, In s starts -> In s (keys g)) ->
  exists r out,
    subgraph g starts limits = Ok r
    /\ wf_graph r
    /\ (forall k, In k (keys r) <-> reach g starts limits k)
    /\ order_graph r = Ok out
    /\ NoDup out
    /\ forall k, In k out <-> reach g starts limits k.
Proof.
  intros Hwf Hstarts.
  destruct (order_subgraph_ok g starts limits Hwf Hstarts)
    as (r & out & Hsub & Hwfr & Hord & Hnd & Hout).
  exists r, out. split; [exact Hsub|]. split; [exact Hwfr|].
  split; [|auto].
  destruct (subgraph_spec _ _ _ _ Hsub) as (_ & _ & Hre & _). exact Hre.
Qed.

Lemma order_subgraph_witness :
  let g := [("S", ["M"; "X"]); ("M", ["E"; "S"]); ("X", ["E"]); ("E", [])] in
  exists r out,
    subgraph g ["S"] ["X"] = Ok r
    /\ wf_graph r
    /\ (forall k, In k (keys r) <-> reach g ["S"] ["X"] k)
    /\ order_graph r = Ok out
    /\ NoDup out
    /\ forall k, In k out <-> reach g ["S"] ["X"] k.
Proof.
  intros g. apply order_subgraph.
  - apply wf_graphb_wf. reflexivity.
  - intros s [<-|[]]. simpl. tauto.
Defined.

(** ** The orderer: where the output starts, and graphs without source *)

Lemma emit_appends g st st' :
  emit g st = Ok st' ->
  exists name, ordered_names st' = ordered_names st ++ [name].
Proof.
  unfold emit. destruct (list_pop (ready st)) as [[ready1 name]| |];
    cbn [bind]; try discriminate.
  destruct (getitem g name) as [links| |]; cbn [bind]; try discriminate.
  destruct (for_each (release name) (rev links) (link_from st, ready1))
    as [acc| |]; cbn [bind]; try discriminate.
  intros [= <-]. now exists name.
Qed.

Lemma loop_body_appends g st st' :
  loop_body g st = Ok (Continue st') ->
  exists name, ordered_names st' = ordered_names st ++ [name].
Proof.
  unfold loop_body. destruct (is_empty (ready st)).
  - destruct (find_breaker (link_from st)) as [name|]; [|discriminate].
    destruct (delitem (link_from st) name) as [lf1| |]; cbn [bind];
      try discriminate.
    destruct (emit g _) as [st1| |] eqn:E; cbn [bind]; try discriminate.
    intros [= <-]. apply emit_appends in E. exact E.
  - destruct (emit g st) as [st1| |] eqn:E; cbn [bind]; try discriminate.
    intros [= <-]. now apply emit_appends in E.
Qed.

(** X9: on a well-formed graph that has a name without incoming link, the
    output starts with the first such name in key order. *)
Theorem first_seed_first g k rest :
  wf_graph g ->
  filter (fun k => negb (has_incoming g k)) (keys g) = k :: rest ->
  exists out, order_graph g = Ok (k :: out).
Proof.
  intros Hwf Hseeds.
  destruct (initial_state_ok g Hwf) as (st0 & Hinit & Hinv0 & Hord & Hrdy & _).
  rewrite Hseeds in Hrdy. cbn [rev] in Hrdy.
  destruct (emit_ok g st0 (rev rest) k Hwf Hinv0 Hrdy)
    as (st1 & pushed & Hemit & _ & Hord1 & _).
  assert (Hbody : loop_body g st0 = Ok (Continue st1)).
  { unfold loop_body. rewrite Hrdy.
    assert (Hne : is_empty (rev rest ++ [k]) = false)
      by (destruct (rev rest); reflexivity).
    now rewrite Hne, Hemit. }
  pose proof (loop_body_progress g st0 Hwf Hinv0) as Hprog.
  rewrite Hbody in Hprog. destruct Hprog as [Hinv1 Hpend].
  rewrite (initial_pending g st0 Hinv0 Hord) in Hpend.
  destruct (order_loop_inv g
              (fun st => exists tail, ordered_names st = k :: tail) Hwf)
    with (fuel := List.length g) (st := st1)
    as (st & Hloop & _ & [tail Htail] & _).
  - intros st st' _ [tail Htail] Hb.
    destruct (loop_body_appends g st st' Hb) as [name Hname].
    exists (tail ++ [name]). now rewrite Hname, Htail.
  - exact Hinv1.
  - exists []. now rewrite Hord1, Hord.
  - lia.
  - unfold order_graph. rewrite Hinit. cbn [bind order_loop].
    rewrite Hbody. cbn [bind]. rewrite Hloop. cbn [bind].
    unfold finish. rewrite Htail.
    destruct (is_empty (link_from st)); eexists; reflexivity.
Qed.

Lemma first_seed_first_witness :
  exists out,
    order_graph [("x", ["y"]); ("y", ["x"]); ("b", ["x"]); ("a", [])]
    = Ok ("b" :: out).
Proof.
  apply (first_seed_first _ "b" ["a"]); [|reflexivity].
  apply wf_graphb_wf. reflexivity.
Defined.

Lemma initial_link_from_keys g st0 :
  wf_graph g -> initial_state g = Ok st0 ->
  keys (link_from st0) = filter (has_incoming g) (keys g).
Proof.
  intros Hwf. destruct (build_link_from_ok g Hwf) as (lf & Hb & Hk & Hw).
  pose proof (wf_keys _ Hwf) as Hnd.
  assert (Hndl : NoDup (keys lf)) by now rewrite Hk.
  unfold initial_state. rewrite Hb. cbn [bind].
  rewrite delitem_loop.
  - cbn [bind]. intros [= <-]. cbn [link_from].
    rewrite <- Hk, <- map_fst_filter. unfold keys. f_equal.
    apply filter_ext_in. intros [k w] Hin.
    rewrite (no_incoming_mem lf (k, w) Hndl Hin). cbn [fst snd].
    apply (In_get _ _ _ Hndl) in Hin.
    destruct w as [|s w]; cbn [is_empty negb].
    + destruct (has_incoming g k) eqn:Eh; [|reflexivity].
      apply has_incoming_edge in Eh; [|assumption].
      destruct Eh as [s He]. apply (Hw k [] Hin) in He. destruct He.
    + symmetry. apply has_incoming_edge; [assumption|].
      exists s. apply (Hw k _ Hin). now left.
  - apply NoDup_rev. unfold no_incoming. now apply NoDup_keys_filter.
  - intros n Hin. apply in_rev in Hin. unfold no_incoming in Hin.
    apply in_map_iff in Hin. destruct Hin as (x & <- & Hin).
    apply filter_In in Hin. apply in_map. tauto.
Qed.

(** X10: on a well-formed graph in which every name has an incoming link
    and no name is a cycle breaker, nothing is ever ready and the output is
    the keys in lexicographic order. *)
Theorem no_source_sorted g :
  wf_graph g ->
  (forall k, In k (keys g) -> has_incoming g k = true) ->
  (forall b, In b cycle_breakers -> ~ In b (keys g)) ->
  order_graph g = Ok (sorted (keys g)).
Proof.
  intros Hwf Hall Hnone.
  destruct (initial_state_ok g Hwf) as (st0 & Hinit & _ & Hord & Hrdy & _).
  pose proof (initial_link_from_keys g st0 Hwf Hinit) as Hkeys.
  assert (Hno : filter (fun k => negb (has_incoming g k)) (keys g) = []).
  { clear -Hall. induction (keys g) as [|k l IH]; [reflexivity|]. simpl.
    rewrite (Hall k (or_introl eq_refl)). simpl. apply IH.
    intros x Hx. apply Hall. now right. }
  assert (Hyes : filter (has_incoming g) (keys g) = keys g)
    by (apply forallb_filter_id, forallb_forall; exact Hall).
  rewrite Hno in Hrdy. rewrite Hyes in Hkeys. cbn [rev] in Hrdy.
  assert (Hfind : find_breaker (link_from st0) = None).
  { pose proof (find_breaker_spec (link_from st0)) as Hb.
    destruct (find_breaker (link_from st0)) as [name|]; [|reflexivity].
    destruct Hb as (l1 & l2 & Hcb & Hin & _). exfalso.
    apply (Hnone name); [rewrite Hcb; apply in_elt | now rewrite <- Hkeys]. }
  unfold order_graph. rewrite Hinit. cbn [bind order_loop].
  unfold loop_body. rewrite Hrdy, Hfind. cbn [is_empty bind].
  unfold finish. rewrite Hord, <- Hkeys.
  destruct (link_from st0); reflexivity.
Qed.

Lemma no_source_sorted_witness :
  order_graph [("m", ["c"]); ("c", ["a"; "m"]); ("a", ["m"])]
  = Ok (sorted (keys [("m", ["c"]); ("c", ["a"; "m"]); ("a", ["m"])])).
Proof.
  apply no_source_sorted.
  - apply wf_graphb_wf. reflexivity.
  - intros k Hk. simpl in Hk.
    repeat (destruct Hk as [<-|Hk]; [reflexivity|]). destruct Hk.
  - intros b Hb. simpl in Hb. simpl.
    repeat (destruct Hb as [<-|Hb]; [intuition discriminate|]). destruct Hb.
Defined.

(** ** Headers: escaping and parsing *)

Lemma replace_char_app c r (a b : string) :
  replace_char c r (a ++ b)
  = (replace_char c r a ++ replace_char c r b)%string.
Proof.
  induction a as [|x a IH]; simpl; [reflexivity|].
  destruct (Ascii.eqb x c); rewrite IH; [now rewrite append_assoc | reflexivity].
Qed.

Lemma escape_app (a b : string) : escape (a ++ b) = (escape a ++ escape b)%string.
Proof. unfold escape. now rewrite !replace_char_app. Qed.

Lemma escape_char (c : ascii) :
  escape (String c EmptyString)
  = if is_special c then escaped c else String c EmptyString.
Proof.
  unfold escape, is_special. cbn [replace_char].
  destruct (Ascii.eqb_spec c bs) as [->|Hbs]; [reflexivity|].
  cbn [replace_char orb].
  destruct (Ascii.eqb_spec c "[") as [->|H1]; [reflexivity|].
  cbn [replace_char orb].
  destruct (Ascii.eqb_spec c "]") as [->|H2]; [reflexivity|].
  cbn [replace_char orb].
  destruct (Ascii.eqb_spec c "{") as [->|H3]; [reflexivity|].
  cbn [replace_char orb].
  destruct (Ascii.eqb_spec c "}") as [->|H4]; reflexivity.
Qed.

Lemma escape_cons (c : ascii) (s : string) :
  escape (String c s)
  = ((if is_special c then escaped c else String c EmptyString)
     ++ escape s)%string.
Proof.
  change (String c s) with (String c EmptyString ++ s)%string.
  now rewrite escape_app, escape_char.
Qed.

(** Reading an escaped text puts the text into the current buffer. *)
Lemma parse_header_loop_escape (s rest : string) :
  forall in_tags name_chars tag_chars,
  parse_header_loop (escape s ++ rest) in_tags name_chars tag_chars
  = if in_tags
    then parse_header_loop rest true name_chars (tag_chars ++ s)
    else parse_header_loop rest false (name_chars ++ s) tag_chars.
Proof.
  induction s as [|c s IH]; intros in_tags name_chars tag_chars.
  - cbn [escape replace_char append]. rewrite !append_nil_r.
    now destruct in_tags.
  - rewrite escape_cons, append_assoc.
    assert (Hnext : forall b n t,
               parse_header_loop (escape s ++ rest) b
                 (if b then n else (n ++ String c EmptyString)%string)
                 (if b then (t ++ String c EmptyString)%string else t)
               = if b
                 then parse_header_loop rest true n (t ++ String c s)
                 else parse_header_loop rest false (n ++ String c s) t).
    { intros b n t. rewrite IH. destruct b; now rewrite append_assoc. }
    destruct (is_special c) eqn:Hsp.
    + unfold escaped. cbn [append parse_header_loop].
      change (Ascii.eqb bs "[") with false.
      change (Ascii.eqb bs "]") with false.
      change (Ascii.eqb bs "{") with false.
      change (Ascii.eqb bs bs) with true. cbv iota.
      specialize (Hnext in_tags name_chars tag_chars).
      destruct in_tags; exact Hnext.
    + unfold is_special in Hsp.
      apply orb_false_iff in Hsp. destruct Hsp as [Hsp _].
      apply orb_false_iff in Hsp. destruct Hsp as [Hsp H3].
      apply orb_false_iff in Hsp. destruct Hsp as [Hsp H2].
      apply orb_false_iff in Hsp. destruct Hsp as [Hbs H1].
      cbn [append parse_header_loop]. rewrite H1, H2, H3, Hbs.
      specialize (Hnext in_tags name_chars tag_chars).
      destruct in_tags; exact Hnext.
Qed.

Lemma rstrip_app_space (s : string) : rstrip (s ++ " ") = rstrip s.
Proof.
  induction s as [|c s IH]; [reflexivity|].
  cbn [append rstrip]. now rewrite IH.
Qed.

Lemma lstrip_app_space (s : string) :
  lstrip (s ++ " ")
  = match lstrip s with
    | EmptyString => EmptyString
    | r => (r ++ " ")%string
    end.
Proof.
  induction s as [|c s IH]; [reflexivity|].
  cbn [append lstrip]. destruct (is_space c); [exact IH | reflexivity].
Qed.

Lemma strip_between_spaces (s : string) : strip (" " ++ s ++ " ") = strip s.
Proof.
  unfold strip. change (lstrip (" " ++ s ++ " ")) with (lstrip (s ++ " ")).
  rewrite lstrip_app_space. destruct (lstrip s) as [|c r]; [reflexivity|].
  apply rstrip_app_space.
Qed.

Lemma split_loop_word (t rest word : string) :
  all_chars (fun c => negb (is_space c)) t = true ->
  split_loop (t ++ rest) word = split_loop rest (word ++ t).
Proof.
  revert word. induction t as [|c t IH]; intros word Hall.
  - now rewrite append_nil_r.
  - simpl in Hall. apply andb_true_iff in Hall. destruct Hall as [Hc Ht].
    apply negb_true_iff in Hc. cbn [append split_loop]. rewrite Hc.
    rewrite IH by assumption. now rewrite append_assoc.
Qed.

Lemma split_join (ts : list string) :
  Forall is_tag ts -> split (String.concat " " ts) = ts.
Proof.
  unfold split. induction 1 as [|t ts [Hne Hall] Hts IH]; [reflexivity|].
  cbn [String.concat]. destruct ts as [|t' ts].
  - rewrite <- (append_nil_r t) at 1. rewrite split_loop_word by assumption.
    cbn [append split_loop]. destruct t; [contradiction | reflexivity].
  - rewrite split_loop_word by assumption.
    cbn [append split_loop]. change (is_space " ") with true. cbv iota.
    rewrite IH. destruct t; [contradiction | reflexivity].
Qed.

Lemma parse_header_loop_tags (ts : list string) (rest : string) :
  forall name_chars tag_chars,
  parse_header_loop (String.concat " " (map escape ts) ++ rest) true
    name_chars tag_chars
  = parse_header_loop rest true name_chars
      (tag_chars ++ String.concat " " ts).
Proof.
  induction ts as [|t ts IH]; intros name_chars tag_chars.
  - cbn [map String.concat append]. now rewrite append_nil_r.
  - cbn [map String.concat]. destruct ts as [|t' ts].
    + cbn [map]. now rewrite parse_header_loop_escape.
    + cbn [map] in *. rewrite append_assoc, parse_header_loop_escape.
      rewrite append_assoc. cbn [append parse_header_loop].
      change (Ascii.eqb " " "[") with false.
      change (Ascii.eqb " " "]") with false.
      change (Ascii.eqb " " "{") with false.
      change (Ascii.eqb " " bs) with false. cbv iota.
      rewrite IH. f_equal. now rewrite !append_assoc.
Qed.

Lemma slice_from_1 (a : ascii) (t : string) : slice_from (String a t) 1 = t.
Proof.
  unfold slice_from. cbn [String.length].
  replace (S (String.length t) - 1) with (String.length t) by lia.
  cbn [substring]. apply substring_all.
Qed.

Lemma header_line_plain (json_loads : loader) name :
  strip name = name ->
  parse_header json_loads (header_line name []) = Ok (name, [], JObject []).
Proof.
  intros Hname. unfold header_line, parse_header. cbn [is_empty].
  change (":: " ++ escape name)%string
    with (String ":" (String ":" (String " " (escape name)))).
  unfold startswith. rewrite !prefix_cons, prefix_nil. cbn [assert bind].
  rewrite slice_from_2. cbn [parse_header_loop].
  change (Ascii.eqb " " "[") with false.
  change (Ascii.eqb " " "]") with false.
  change (Ascii.eqb " " "{") with false.
  change (Ascii.eqb " " bs) with false. cbv iota.
  rewrite <- (append_nil_r (escape name)), parse_header_loop_escape.
  cbn [parse_header_loop bind fst snd append].
  change (strip (String " " name)) with (strip name). rewrite Hname.
  reflexivity.
Qed.

Lemma header_line_tagged (json_loads : loader) name t tags :
  strip name = name -> Forall is_tag (t :: tags) ->
  parse_header json_loads (header_line name (t :: tags))
  = Ok (name, sorted (t :: tags), JObject []).
Proof.
  intros Hname Htags. unfold header_line, parse_header.
  cbn [is_empty]. set (ts := sorted (t :: tags)).
  assert (Hts : Forall is_tag ts).
  { apply (Permutation_Forall (Permutation_sym (sorted_perm (t :: tags)))).
    exact Htags. }
  change (":: " ++ escape name ++ " [" ++ String.concat " " (map escape ts)
            ++ "]")%string
    with (String ":" (String ":" (String " "
            (escape name ++ " [" ++ String.concat " " (map escape ts)
               ++ "]")))).
  unfold startswith. rewrite !prefix_cons, prefix_nil. cbn [assert bind].
  rewrite slice_from_2. cbn [parse_header_loop].
  change (Ascii.eqb " " "[") with false.
  change (Ascii.eqb " " "]") with false.
  change (Ascii.eqb " " "{") with false.
  change (Ascii.eqb " " bs) with false. cbv iota.
  rewrite parse_header_loop_escape. cbn [append parse_header_loop].
  change (Ascii.eqb " " "[") with false.
  change (Ascii.eqb " " "]") with false.
  change (Ascii.eqb " " "{") with false.
  change (Ascii.eqb " " bs) with false.
  change (Ascii.eqb "[" "[") with true. cbv iota.
  rewrite parse_header_loop_tags. cbn [parse_header_loop].
  change (Ascii.eqb "]" "[") with false.
  change (Ascii.eqb "]" "]") with true. cbv iota.
  cbn [bind fst snd append]. rewrite slice_from_1, (split_join ts Hts).
  change (String " " (name ++ " ")) with (" " ++ name ++ " ")%string.
  now rewrite strip_between_spaces, Hname.
Qed.

(** X11: the header line written for a passage is parsed back to the name
    and the sorted tags, with empty metadata, whenever the name has no
    whitespace at its ends and the tags are non-empty and free of
    whitespace; brackets, braces and backslashes in them are restored. *)
Theorem header_round_trip (json_loads : loader) name tags :
  strip name = name -> Forall is_tag tags ->
  parse_header json_loads (header_line name tags) = Ok (name, sorted tags, JObject []).
Proof.
  intros Hname Htags. destruct tags as [|t tags].
  - now apply header_line_plain.
  - now apply header_line_tagged.
Qed.

Lemma header_round_trip_witness :
  let json_loads : loader := fun _ => Raise ValueError in
  parse_header json_loads
    (header_line "Ask [Billy] {now}" ["nosave"; "a\b"])
  = Ok ("Ask [Billy] {now}", sorted ["nosave"; "a\b"], JObject []).
Proof.
  intros json_loads. apply header_round_trip; [reflexivity|].
  repeat constructor; discriminate.
Defined.

(** X12: a header line that ends in a lone backslash makes [parse_header]
    raise [IndexError], and a second unescaped opening bracket makes it fail
    its assertion, whatever the escaped text in front of them is. *)
Theorem parse_header_malformed (json_loads : loader) :
  (forall s,
     parse_header json_loads ("::" ++ escape s ++ String bs EmptyString)
     = Raise IndexError)
  /\ (forall a b rest,
        parse_header json_loads ("::" ++ escape a ++ "[" ++ escape b ++ "[" ++ rest)
        = Raise AssertionError).
Proof.
  split.
  - intros s. unfold parse_header.
    change ("::" ++ escape s ++ String bs EmptyString)%string
      with (String ":" (String ":" (escape s ++ String bs EmptyString))).
    unfold startswith. rewrite !prefix_cons, prefix_nil. cbn [assert bind].
    rewrite slice_from_2, parse_header_loop_escape. reflexivity.
  - intros a b rest. unfold parse_header.
    change ("::" ++ escape a ++ "[" ++ escape b ++ "[" ++ rest)%string
      with (String ":" (String ":"
              (escape a ++ "[" ++ escape b ++ "[" ++ rest))).
    unfold startswith. rewrite !prefix_cons, prefix_nil. cbn [assert bind].
    rewrite slice_from_2, parse_header_loop_escape.
    cbn [append parse_header_loop].
    change (Ascii.eqb "[" "[") with true. cbv iota.
    rewrite parse_header_loop_escape. reflexivity.
Qed.

(** ** Splitting a file into passages *)

Lemma split_passages_loop_spec (json_loads : loader)
    (lines : list string) :
  forall current body ps,
  split_passages_loop json_loads lines current body = Ok ps ->
  Forall (fun l => is_header l = false) body ->
  Forall2 (fun p l => parse_header json_loads l = Ok (fst p))
    (match current with Some _ => tl ps | None => ps end)
    (filter is_header (map rstrip lines))
  /\ List.concat (map snd ps)
     = match current with
       | Some _ => body ++ filter (fun l => negb (is_header l))
                             (map rstrip lines)
       | None => filter (fun l => negb (is_header l))
                   (from_first_header (map rstrip lines))
       end
  /\ Forall (fun p => Forall (fun l => is_header l = false) (snd p)) ps
  /\ match current with
     | Some h => exists b ps', ps = (h, b) :: ps'
     | None => True
     end.
Proof.
  induction lines as [|line lines IH]; intros current body ps.
  - destruct current as [h|]; intros [= <-] Hbody; cbn.
    + rewrite !app_nil_r. repeat split; eauto.
    + repeat split; constructor.
  - cbn [split_passages_loop map filter from_first_header].
    destruct (is_header (rstrip line)) eqn:Hh.
    + destruct (parse_header json_loads (rstrip line)) as [h| |] eqn:Hp; cbn [bind];
        try discriminate.
      destruct (split_passages_loop json_loads lines (Some h) []) as [r| |] eqn:Hr;
        cbn [bind]; try discriminate.
      intros [= <-] Hbody.
      destruct (IH _ _ _ Hr (Forall_nil _)) as (H1 & H2 & H3 & b & ps' & ->).
      cbn [tl app negb filter map snd List.concat] in *.
      rewrite Hh. cbn [negb].
      destruct current as [h0|]; cbn [tl map snd List.concat].
      * split; [now constructor|]. split; [now rewrite H2|].
        split; [constructor; assumption | eauto].
      * split; [now constructor|]. split; [exact H2|]. split; [assumption|].
        exact I.
    + intros Hrec Hbody.
      assert (Hbody' : Forall (fun l => is_header l = false)
                         (body ++ [rstrip line])).
      { apply Forall_app. split; [assumption|]. now constructor. }
      destruct (IH _ _ _ Hrec Hbody') as (H1 & H2 & H3 & H4).
      cbn [negb].
      split; [exact H1|]. split; [|split; assumption].
      destruct current; [|exact H2]. rewrite H2, <- app_assoc. reflexivity.
Qed.

Lemma split_passages_loop_returns (json_loads : loader)
    (lines : list string) :
  Forall (fun l => exists h, parse_header json_loads l = Ok h)
    (filter is_header (map rstrip lines)) ->
  forall current body,
  exists ps, split_passages_loop json_loads lines current body = Ok ps.
Proof.
  induction lines as [|line lines IH]; intros Hall current body.
  - destruct current; cbn [split_passages_loop]; eauto.
  - cbn [map filter] in Hall. cbn [split_passages_loop].
    destruct (is_header (rstrip line)).
    + inversion Hall as [|? ? [h Hh] Hrest]; subst. rewrite Hh. cbn [bind].
      destruct (IH Hrest (Some h) []) as [r Hr]. rewrite Hr. cbn [bind].
      eauto.
    + apply IH. exact Hall.
Qed.

(** X13: [split_passages] returns when [parse_header] returns on every
    header line, whatever [json.loads] does on the others; what it returns
    is one passage per header line, in order and with the header parsed
    from it; no body holds a header line; and the bodies, put end to end,
    are the right-stripped lines that stand behind the first header line
    and are no header lines: lines in front of the first header are dropped
    and nothing else. *)
Theorem split_passages_spec (json_loads : loader) lines :
  (Forall (fun l => exists h, parse_header json_loads l = Ok h)
     (filter is_header (map rstrip lines)) ->
   exists ps, split_passages json_loads lines = Ok ps)
  /\ forall ps,
     split_passages json_loads lines = Ok ps ->
     Forall2 (fun p l => parse_header json_loads l = Ok (fst p)) ps
       (filter is_header (map rstrip lines))
     /\ List.concat (map snd ps)
        = filter (fun l => negb (is_header l))
            (from_first_header (map rstrip lines))
     /\ Forall (fun p => Forall (fun l => is_header l = false) (snd p)) ps.
Proof.
  split.
  - intros Hall. now apply split_passages_loop_returns.
  - intros ps H.
    destruct (split_passages_loop_spec json_loads lines None [] ps H
                (Forall_nil _)) as (H1 & H2 & H3 & _).
    auto.
Qed.

Lemma split_passages_spec_witness :
  let json_loads : loader :=
    fun text => if String.eqb text "{}" then Ok (JObject [])
                else Raise ValueError in
  let lines := ["intro  "; ":: A [t]"; "x [[B]]   "; ""; ":: B {}"; "y"] in
  let ps := [("A", ["t"], JObject [], ["x [[B]]"; EmptyString]);
             ("B", [], JObject [], ["y"])] in
  split_passages json_loads lines = Ok ps
  /\ (exists ps', split_passages json_loads lines = Ok ps')
  /\ List.concat (map snd ps)
     = filter (fun l => negb (is_header l))
         (from_first_header (map rstrip lines)).
Proof.
  intros json_loads lines ps. split; [reflexivity|]. split.
  - apply (proj1 (split_passages_spec json_loads lines)).
    repeat constructor; eexists; reflexivity.
  - apply (proj2 (split_passages_spec json_loads lines) ps). reflexivity.
Defined.

(** ** The link graph of a file *)

Lemma In_known_links_acc (ps : passages) links :
  forall acc x,
  In x (fold_left
          (fun acc link => if mem ps link then oset_add acc link else acc)
          links acc)
  <-> In x acc \/ (In x links /\ In x (keys ps)).
Proof.
  induction links as [|l links IH]; intros acc x; simpl; [tauto|].
  rewrite IH. destruct (mem ps l) eqn:E.
  - apply mem_In in E. rewrite In_oset_add. split.
    + intros [[H| ->]|H]; tauto.
    + intros [H|[[<-|H] Hk]]; tauto.
  - apply mem_not_In in E. split; [tauto|].
    intros [H|[[<-|H] Hk]]; tauto.
Qed.

Lemma NoDup_known_links_acc (ps : passages) links :
  forall acc, NoDup acc ->
  NoDup (fold_left
           (fun acc link => if mem ps link then oset_add acc link else acc)
           links acc).
Proof.
  induction links as [|l links IH]; intros acc Hnd; simpl; [assumption|].
  apply IH. destruct (mem ps l); [|assumption].
  unfold oset_add. destruct (smem l acc) eqn:E; [assumption|].
  apply smem_not_In in E.
  apply NoDup_app; [assumption | repeat constructor; simpl; tauto|].
  intros x Hx [<-|[]]. contradiction.
Qed.

Lemma In_known_links (ps : passages) links x :
  In x (known_links ps links) <-> In x links /\ In x (keys ps).
Proof. unfold known_links. rewrite In_known_links_acc. simpl. tauto. Qed.

Lemma build_link_to_loop (ps : passages) (items : passages) :
  forall (acc g : graph),
  NoDup (keys acc ++ keys items) ->
  for_each
    (fun acc item =>
       r <- find_links (snd (snd item)) ;;
       Ok (set acc (fst item) (known_links ps (fst r))))
    items acc = Ok g ->
  keys g = keys acc ++ keys items
  /\ forall name v, In (name, v) g ->
       In (name, v) acc
       \/ exists tags body links reports,
            In (name, (tags, body)) items
            /\ find_links body = Ok (links, reports)
            /\ v = known_links ps links.
Proof.
  induction items as [|[name [tags body]] items IH]; intros acc g Hnd.
  - intros [= <-]. rewrite app_nil_r. auto.
  - cbn [for_each fst snd].
    destruct (find_links body) as [[links reports]| |] eqn:Hf; cbn [bind];
      try discriminate.
    intros Hfor.
    assert (Hname : ~ In name (keys acc)).
    { apply NoDup_remove_2 in Hnd. intros H. apply Hnd.
      apply in_or_app. now left. }
    rewrite set_new in Hfor by assumption.
    apply IH in Hfor.
    + destruct Hfor as [Hk Hent]. split.
      * rewrite Hk, keys_app, <- app_assoc. reflexivity.
      * intros n v Hin. destruct (Hent n v Hin) as [H|H].
        -- apply in_app_or in H. destruct H as [H|[[= <- <-]|[]]]; [now left|].
           right. exists tags, body, links, reports.
           split; [now left | auto].
        -- right. destruct H as (t & b & ls & rs & H1 & H2 & H3).
           exists t, b, ls, rs. split; [now right | auto].
    + rewrite keys_app, <- app_assoc. exact Hnd.
Qed.

Lemma build_link_to_wf (ps : passages) g :
  NoDup (keys ps) -> build_link_to ps = Ok g ->
  wf_graph g /\ keys g = keys ps
  /\ forall name tags body, In (name, (tags, body)) ps ->
       exists links reports,
         find_links body = Ok (links, reports)
         /\ get g name = Some (known_links ps links).
Proof.
  intros Hnd Hb. unfold build_link_to in Hb.
  apply build_link_to_loop in Hb; [|exact Hnd].
  destruct Hb as [Hk Hent]. simpl in Hk.
  assert (Hndg : NoDup (keys g)) by now rewrite Hk.
  assert (Hval : forall name v, In (name, v) g ->
            exists tags body links reports,
              In (name, (tags, body)) ps
              /\ find_links body = Ok (links, reports)
              /\ v = known_links ps links).
  { intros name v Hin. destruct (Hent name v Hin) as [[]|H]. exact H. }
  split; [|split; [exact Hk|]].
  - constructor; [exact Hndg| |].
    + intros name links Hin.
      destruct (Hval _ _ Hin) as (_ & _ & ls & _ & _ & _ & ->).
      apply NoDup_known_links_acc. constructor.
    + intros name links link Hin Hl.
      destruct (Hval _ _ Hin) as (_ & _ & ls & _ & _ & _ & ->).
      apply In_known_links in Hl. rewrite Hk. tauto.
  - intros name tags body Hin.
    assert (Hkey : In name (keys g)).
    { rewrite Hk. apply (in_map fst) in Hin. exact Hin. }
    destruct (In_keys_get _ _ Hkey) as [v Hv].
    destruct (Hval _ _ (get_In _ _ _ Hv))
      as (tags' & body' & links & reports & Hin' & Hf & ->).
    assert (E : (tags', body') = (tags, body)).
    { apply (In_get _ _ _ Hnd) in Hin, Hin'. congruence. }
    injection E as -> ->. eauto.
Qed.

(** X14: the link graph built for the passages of a file has the passage
    names as keys, in their order; the links of a passage are the names its
    body refers to that are passages of the file, references to anything
    else being dropped; so the graph is well-formed and never makes
    [order_graph] raise. *)
Theorem build_link_to_spec (ps : passages) g :
  NoDup (keys ps) -> build_link_to ps = Ok g ->
  wf_graph g /\ keys g = keys ps
  /\ forall name tags body, In (name, (tags, body)) ps ->
       exists links reports,
         find_links body = Ok (links, reports)
         /\ forall l, edge g name l <-> In l links /\ In l (keys ps).
Proof.
  intros Hnd Hb. destruct (build_link_to_wf ps g Hnd Hb) as (Hwf & Hk & Hval).
  split; [exact Hwf|]. split; [exact Hk|].
  intros name tags body Hin.
  destruct (Hval _ _ _ Hin) as (links & reports & Hf & Hg).
  exists links, reports. split; [exact Hf|].
  intros l. unfold edge. rewrite <- In_known_links. split.
  - intros (ls & Hg' & Hl). congruence.
  - intros Hl. eauto.
Qed.

Lemma build_link_to_spec_witness :
  let ps : passages :=
    [("A", ([], ["go [[B]] or [[C|Gone]]"; "<<display " ++ quoted "A" ++ ">>"]));
     ("B", (["t"], ["[[back|A]] [[B]] [[A]]"]))]%string in
  let g := [("A", ["B"; "A"]); ("B", ["A"; "B"])] in
  build_link_to ps = Ok g
  /\ (wf_graph g /\ keys g = keys ps).
Proof.
  intros ps g. split; [reflexivity|].
  destruct (build_link_to_spec ps g) as (H1 & H2 & _);
    [repeat constructor; simpl; intuition discriminate | reflexivity | auto].
Defined.

(** ** Ordering the passages of a file *)

Lemma order_parts_ok g (parts : list (string * (list string * list string))) :
  wf_graph g ->
  forallb (fun part => forallb (mem g) (fst (snd part))) parts = true ->
  forall acc, exists outs,
    for_each (order_part g) parts acc = Ok (acc ++ outs)
    /\ Forall2
         (fun part out =>
            fst out = fst part /\ NoDup (snd out)
            /\ forall k, In k (snd out)
                         <-> reach g (fst (snd part)) (snd (snd part)) k)
         parts outs.
Proof.
  intros Hwf. induction parts as [|[file [starts limits]] parts IH];
    intros Hknown acc.
  - exists []. rewrite app_nil_r. split; [reflexivity | constructor].
  - cbn [forallb fst snd] in Hknown. apply andb_true_iff in Hknown.
    destruct Hknown as [Hstarts Hparts].
    rewrite forallb_forall in Hstarts.
    destruct (order_subgraph_ok g starts limits Hwf)
      as (r & out & Hsub & _ & Hord & Hnd & Hout).
    { intros s Hs. apply mem_In. now apply Hstarts. }
    destruct (IH Hparts (acc ++ [(file, out)])) as (outs & Hfor & Hall).
    exists ((file, out) :: outs). split.
    + cbn [for_each]. unfold order_part at 1. cbn [fst snd].
      rewrite Hsub. cbn [bind]. rewrite Hord. cbn [bind].
      rewrite Hfor, <- app_assoc. reflexivity.
    + constructor; [|exact Hall]. cbn [fst snd]. auto.
Qed.

Lemma forallb_pointwise {A} (f f' : A -> bool) (l : list A) :
  (forall x, f x = f' x) -> forallb f l = forallb f' l.
Proof.
  intros H. induction l as [|x l IH]; simpl; [reflexivity|].
  now rewrite H, IH.
Qed.

(** X15: for a .twee file other than [unsorted.twee] whose passages all
    yield their links, [order_passages] yields the file once, with a
    permutation of its passage names. *)
Theorem order_passages_ordinary filename (ps : passages) g :
  NoDup (keys ps) -> build_link_to ps = Ok g ->
  endswith filename ".twee" = true ->
  String.eqb filename "unsorted.twee" = false ->
  exists names,
    order_passages filename ps = Ok [(filename, names)]
    /\ Permutation names (keys ps).
Proof.
  intros Hnd Hb Htwee Hname.
  destruct (build_link_to_wf ps g Hnd Hb) as (Hwf & Hk & _).
  destruct (order_graph_ok g Hwf) as (st & Hord & _ & _ & _ & Hperm).
  exists (finish st). unfold order_passages.
  rewrite Htwee, Hb. cbn [negb bind]. rewrite Hname, Hord. cbn [bind].
  split; [reflexivity|]. now rewrite <- Hk.
Qed.

Lemma order_passages_ordinary_witness :
  let ps : passages :=
    [("You", (["nosave"], ["[[You too]]"]));
     ("You too", (["nosave"], ["[[You]] [[Elsewhere]]"]));
     ("Your room", (["nosave"], ["[[You]]"]))] in
  exists names,
    order_passages "you.twee" ps = Ok [("you.twee", names)]
    /\ Permutation names (keys ps).
Proof.
  intros ps.
  apply (order_passages_ordinary "you.twee" ps
           [("You", ["You too"]); ("You too", ["You"]); ("Your room", ["You"])]);
    try reflexivity.
  repeat constructor; simpl; intuition discriminate.
Defined.

(** X16: for [unsorted.twee], when the passages all yield their links and
    every start of the partition is a passage, [order_passages] yields the
    files of the partition in order, each with the names reachable from its
    starts along links that do not enter one of its limits, every such name
    exactly once. *)
Theorem order_passages_unsorted (ps : passages) g :
  NoDup (keys ps) -> build_link_to ps = Ok g ->
  forallb (fun part => forallb (mem ps) (fst (snd part))) unsorted_parts
  = true ->
  exists outs,
    order_passages "unsorted.twee" ps = Ok outs
    /\ Forall2
         (fun part out =>
            fst out = fst part /\ NoDup (snd out)
            /\ forall k, In k (snd out)
                         <-> reach g (fst (snd part)) (snd (snd part)) k)
         unsorted_parts outs.
Proof.
  intros Hnd Hb Hknown.
  destruct (build_link_to_wf ps g Hnd Hb) as (Hwf & Hk & _).
  assert (Hmem : forall s, mem g s = mem ps s).
  { intros s. destruct (mem ps s) eqn:E.
    - apply mem_In. rewrite Hk. now apply mem_In.
    - apply mem_not_In. rewrite Hk. now apply mem_not_In. }
  assert (Hknown' : forallb (fun part => forallb (mem g) (fst (snd part)))
                      unsorted_parts = true).
  { rewrite <- Hknown. apply forallb_pointwise. intros part.
    apply forallb_pointwise. exact Hmem. }
  destruct (order_parts_ok g unsorted_parts Hwf Hknown' [])
    as (outs & Hfor & Hall).
  exists outs. split; [|exact Hall].
  unfold order_passages. rewrite Hb.
  change (endswith "unsorted.twee" ".twee") with true.
  cbn [negb bind]. rewrite String.eqb_refl. exact Hfor.
Qed.

Lemma order_passages_unsorted_witness :
  let ps : passages :=
    [("Introduction", ([], ["[[Intro 2]] [[Monday Morning]]"]));
     ("Intro 2", ([], ["[[Introduction]] [[Nowhere]]"]))]
    ++ map (fun name => (name, ([], ["[[Sleep Night 3]]"])))
         (day1_start ++ day2_start ++ ["Go to dinner."] ++ day3_start
          ++ makeover_start ++ ["Go Home"; "That sounds good.";
                                "Makeover Done"; "Sleep Night 3"]
          ++ date_starts ++ end_of_content) in
  let g := match build_link_to ps with Ok g => g | _ => [] end in
  exists outs,
    order_passages "unsorted.twee" ps = Ok outs
    /\ Forall2
         (fun part out =>
            fst out = fst part /\ NoDup (snd out)
            /\ forall k, In k (snd out)
                         <-> reach g (fst (snd part)) (snd (snd part)) k)
         unsorted_parts outs.
Proof.
  intros ps g. apply (order_passages_unsorted ps g).
  - apply nodupb_NoDup. reflexivity.
  - reflexivity.
  - reflexivity.
Defined.

(** ** Classifying a passage *)

(** X17: [classify_passage] sends a passage to a file that is not a .twee
    file only when the passage is tagged as stylesheet or as script; it
    raises [KeyError] for the name only on a passage tagged as script, and
    fails its assertion only on a passage without the nosave tag. *)
Theorem classify_passage_cases name tags :
  (forall file, classify_passage name tags = Ok file ->
     endswith file ".twee" = false ->
     smem "stylesheet" tags = true \/ smem "script" tags = true)
  /\ (forall e, classify_passage name tags = Raise e ->
        (e = KeyError name /\ smem "script" tags = true)
        \/ (e = AssertionError /\ smem "nosave" tags = false)).
Proof.
  unfold classify_passage, lookup.
  destruct (smem name _);
    [split; [intros f [= <-] H; discriminate H | intros e [=]]|].
  destruct (smem name _);
    [split; [intros f [= <-] H; discriminate H | intros e [=]]|].
  destruct (smem "stylesheet" tags).
  { split; [intros; now left|].
    destruct (endswith name "font"); intros e [=]. }
  destruct (smem "widget" tags);
    [split; [intros f [= <-] H; discriminate H | intros e [=]]|].
  destruct (String.eqb name "Character Information");
    [split; [intros f [= <-] H; discriminate H | intros e [=]]|].
  destruct (smem name _ || startswith name "Beta-testing:");
    [split; [intros f [= <-] H; discriminate H | intros e [=]]|].
  destruct (smem "script" tags).
  { split; [intros; now right|].
    destruct (List.find _ _); intros e [=]. left. split; [now subst | reflexivity]. }
  destruct (startswith name "Q:" || String.eqb name "FAQ").
  { destruct (smem "nosave" tags); cbn [assert bind].
    - split; [intros f [= <-] H; discriminate H | intros e [=]].
    - split; [intros f [=]|]. intros e [= <-]. now right. }
  destruct (smem "nosave" tags).
  { destruct (startswith name "You" || String.eqb name "Basic Description");
      [split; [intros f [= <-] H; discriminate H | intros e [=]]|].
    destruct (startswith name "Var");
      (split; [intros f [= <-] H; discriminate H | intros e [=]]). }
  split; [intros f [= <-] H; discriminate H | intros e [=]].
Qed.

Lemma classify_passage_cases_witness :
  classify_passage "Main font" ["stylesheet"] = Ok "font.css"
  /\ (smem "stylesheet" ["stylesheet"] = true
      \/ smem "script" ["stylesheet"] = true)
  /\ classify_passage "Other" ["script"] = Raise (KeyError "Other")
  /\ ((KeyError "Other" = KeyError "Other" /\ smem "script" ["script"] = true)
      \/ (KeyError "Other" = AssertionError
          /\ smem "nosave" ["script"] = false)).
Proof.
  split; [reflexivity|]. split.
  - apply (proj1 (classify_passage_cases "Main font" ["stylesheet"])
             "font.css"); reflexivity.
  - split; [reflexivity|].
    apply (proj2 (classify_passage_cases "Other" ["script"])
             (KeyError "Other")).
    reflexivity.
Defined.

(** ** Reading back a written file *)

Lemma rstrip_print_line (l : string) : rstrip (print_line l) = rstrip l.
Proof.
  unfold print_line. induction l as [|c l IH]; [reflexivity|].
  cbn [append rstrip]. now rewrite IH.
Qed.

Lemma rstrip_app_kept (s t : string) :
  rstrip t = t -> t <> EmptyString -> rstrip (s ++ t) = (s ++ t)%string.
Proof.
  intros Ht Hne. induction s as [|c s IH]; [exact Ht|].
  cbn [append rstrip]. rewrite IH.
  destruct (s ++ t)%string eqn:E; [|reflexivity].
  destruct s; [cbn in E; contradiction | discriminate].
Qed.

Lemma rstrip_tail (c : ascii) (s : string) :
  s <> EmptyString -> rstrip (String c s) = String c s -> rstrip s = s.
Proof.
  intros Hne. cbn [rstrip]. destruct (rstrip s) as [|a r] eqn:E.
  - destruct (is_space c); intros [=]; subst; contradiction.
  - now intros [= <-].
Qed.

Lemma rstrip_single (c : ascii) :
  rstrip (String c EmptyString) = String c EmptyString ->
  is_space c = false.
Proof. cbn [rstrip]. destruct (is_space c); [discriminate | reflexivity]. Qed.

Lemma escape_not_empty (s : string) :
  s <> EmptyString -> escape s <> EmptyString.
Proof.
  destruct s as [|c s]; [contradiction|]. intros _.
  rewrite escape_cons. unfold escaped.
  destruct (is_special c); discriminate.
Qed.

Lemma rstrip_escape (s : string) : rstrip s = s -> rstrip (escape s) = escape s.
Proof.
  induction s as [|c s IH]; [reflexivity|]. intros H.
  rewrite escape_cons. destruct s as [|a s].
  - apply rstrip_single in H.
    change (escape EmptyString) with EmptyString. rewrite append_nil_r.
    unfold escaped. destruct (is_special c); cbn [rstrip]; now rewrite H.
  - apply rstrip_tail in H; [|discriminate].
    apply rstrip_app_kept; [now apply IH|].
    apply escape_not_empty. discriminate.
Qed.

Lemma rstrip_idempotent (s : string) : rstrip (rstrip s) = rstrip s.
Proof.
  induction s as [|c s IH]; [reflexivity|].
  cbn [rstrip]. destruct (rstrip s) as [|a r] eqn:E.
  - destruct (is_space c) eqn:Hc; [reflexivity|]. cbn [rstrip]. now rewrite Hc.
  - cbn [rstrip] in *. now rewrite IH.
Qed.

(** The header line of a stored passage is read back as written, but for
    the header of the empty name, which loses its space. *)
Lemma header_line_reread (json_loads : loader) (name : string)
    (tags : list string) :
  strip name = name -> Forall is_tag tags ->
  is_header (rstrip (print_line (header_line name tags))) = true
  /\ parse_header json_loads (rstrip (print_line (header_line name tags)))
     = Ok (name, sorted tags, JObject []).
Proof.
  intros Hname Htags.
  assert (Hparse : forall line,
            parse_header json_loads line = Ok (name, sorted tags, JObject []) ->
            is_header line = true /\
            parse_header json_loads line = Ok (name, sorted tags, JObject [])).
  { intros line H. split; [|exact H]. unfold parse_header in H.
    unfold is_header. destruct (startswith line "::");
      [reflexivity | discriminate]. }
  rewrite rstrip_print_line.
  destruct tags as [|t tags]; [destruct name as [|c name]|].
  - apply Hparse. reflexivity.
  - assert (Hr : rstrip (String c name) = String c name).
    { rewrite <- Hname at 1. unfold strip. rewrite rstrip_idempotent.
      exact Hname. }
    assert (Hkeep : rstrip (header_line (String c name) [])
                    = header_line (String c name) []).
    { unfold header_line. cbn [is_empty].
      apply rstrip_app_kept; [now apply rstrip_escape|].
      apply escape_not_empty. discriminate. }
    rewrite Hkeep. apply Hparse. now apply header_line_plain.
  - assert (Hkeep : rstrip (header_line name (t :: tags))
                    = header_line name (t :: tags)).
    { unfold header_line. cbn [is_empty].
      rewrite <- !append_assoc.
      apply rstrip_app_kept; [reflexivity | discriminate]. }
    rewrite Hkeep. apply Hparse. now apply header_line_tagged.
Qed.

Lemma split_passages_loop_body (json_loads : loader)
    (body rest : list string) :
  Forall (fun l => rstrip l = l /\ is_header l = false) body ->
  forall current acc,
  split_passages_loop json_loads (map print_line body ++ rest) current acc
  = split_passages_loop json_loads rest current (acc ++ body).
Proof.
  induction 1 as [|l body [Hl Hh] Hbody IH]; intros current acc.
  - now rewrite app_nil_r.
  - cbn [map app split_passages_loop]. rewrite rstrip_print_line, Hl, Hh.
    rewrite IH, <- app_assoc. reflexivity.
Qed.

Lemma trim_body_blank (body : list string) :
  trim_body ((body ++ [EmptyString]) ++ [EmptyString]) = trim_body body.
Proof.
  unfold trim_body. now rewrite !rev_app_distr.
Qed.

Lemma reread_loop (json_loads : loader) (filename : string)
    (ps : passages) :
  endswith filename ".twee" = true -> Forall stored ps ->
  forall h acc, trim_body acc = acc ->
  exists rs,
    split_passages_loop json_loads (write_passages filename false ps) (Some h) acc
    = Ok rs
    /\ map (fun r => (fst r, trim_body (snd r))) rs
       = (h, acc)
         :: map (fun p => ((fst p, sorted (fst (snd p)), JObject []), snd (snd p)))
              ps.
Proof.
  intros Hf. induction 1 as [|[name [tags body]] ps Hp Hps IH];
    intros h acc Hacc.
  - exists [(h, acc)]. split; [reflexivity|]. cbn [map fst snd].
    now rewrite Hacc.
  - destruct Hp as (Hname & Htags & Hbody & Htrim). cbn [fst snd] in *.
    destruct (header_line_reread json_loads name tags Hname Htags) as [Hh Hparse].
    destruct (IH (name, sorted tags, JObject []) body Htrim) as (rs & Hrs & Hmap).
    exists ((h, (acc ++ [EmptyString]) ++ [EmptyString]) :: rs).
    split.
    + cbn [write_passages]. rewrite Hf. cbn [app].
      change (split_passages_loop json_loads
                (print_line EmptyString :: print_line EmptyString
                   :: print_line (header_line name tags)
                   :: map print_line body
                      ++ write_passages filename false ps) (Some h) acc)
        with (split_passages_loop json_loads
                (print_line (header_line name tags)
                   :: map print_line body
                      ++ write_passages filename false ps) (Some h)
                ((acc ++ [EmptyString]) ++ [EmptyString])).
      cbn [split_passages_loop]. rewrite Hh, Hparse. cbn [bind].
      rewrite split_passages_loop_body by exact Hbody.
      cbn [app].
      match goal with
      | |- context [split_passages_loop ?j ?a ?b ?c] =>
          replace (split_passages_loop j a b c) with (Ok rs)
            by (symmetry; exact Hrs)
      end.
      reflexivity.
    + cbn [map fst snd]. rewrite trim_body_blank, Hacc, Hmap. reflexivity.
Qed.

(** X18: the texts written for the passages of a .twee file, read back by
    [split_passages] and with the blank lines at the end of each body
    removed as [split_file] does, give the passages that were written, in
    order, each with its tags sorted: splitting an output file again
    preserves it. *)
Theorem written_file_reread (json_loads : loader) filename ps :
  endswith filename ".twee" = true -> Forall stored ps ->
  exists rs,
    split_passages json_loads (write_passages filename true ps) = Ok rs
    /\ map (fun r => (fst r, trim_body (snd r))) rs
       = map (fun p => ((fst p, sorted (fst (snd p)), JObject []), snd (snd p))) ps.
Proof.
  intros Hf Hps. destruct Hps as [|[name [tags body]] ps Hp Hps].
  - exists []. split; reflexivity.
  - destruct Hp as (Hname & Htags & Hbody & Htrim). cbn [fst snd] in *.
    destruct (header_line_reread json_loads name tags Hname Htags) as [Hh Hparse].
    destruct (reread_loop json_loads filename ps Hf Hps (name, sorted tags, JObject []) body
                Htrim) as (rs & Hrs & Hmap).
    exists rs. split; [|exact Hmap].
    unfold split_passages. cbn [write_passages]. rewrite Hf. cbn [app].
    cbn [split_passages_loop]. rewrite Hh, Hparse. cbn [bind].
    rewrite split_passages_loop_body by exact Hbody.
    cbn [app].
    match goal with
    | |- context [split_passages_loop ?j ?a ?b ?c] =>
        replace (split_passages_loop j a b c) with (Ok rs)
          by (symmetry; exact Hrs)
    end.
    reflexivity.
Qed.

Lemma written_file_reread_witness :
  let json_loads : loader := fun _ => Raise ValueError in
  let ps : passages :=
    [("Start [here]", (["nosave"; "intro"],
                       ["Hello."; EmptyString; "[[Next|Second one]]"]));
     (EmptyString, ([], []));
     ("Second one",
      ([], [("  <<display " ++ quoted "Start [here]" ++ ">>")%string]))]
  in
  exists rs,
    split_passages json_loads (write_passages "day0.twee" true ps) = Ok rs
    /\ map (fun r => (fst r, trim_body (snd r))) rs
       = map (fun p => ((fst p, sorted (fst (snd p)), JObject []),
                        snd (snd p))) ps.
Proof.
  intros json_loads ps.
  apply (written_file_reread json_loads "day0.twee" ps); [reflexivity|].
  repeat constructor; discriminate.
Defined.
